(** * Scene model of the editor (game/editor/model.py)

    A shallow embedding of [Node] and [EditorModel]: the node table is a
    finite map from ids to nodes, the creation order a list of ids, the
    label counters a finite map from base names to integers.  Python
    integers are [Z]; the floating-point coordinates of pygame's [Vector2]
    and the radius of a payload are exact rationals [Q] (the model has no
    rounding and no NaN); [None] is [option]'s [None]. *)

From Stdlib Require Import ZArith QArith Lia.
From stdpp Require Import gmap strings list fin_maps pretty sorting.

Close Scope Q_scope.
Open Scope Z_scope.

#[local] Set Warnings "-clear-no-such-hyp".

(** ** Data model *)

(** [NodeKind = Literal["root", "entity", "environment"]] *)
Inductive NodeKind : Set := KRoot | KEntity | KEnvironment.

(** Modelled from the spec: [PaletteKind] of game/editor/registry.py, the
    kind of a palette item, which is an entity or an environment (the two
    keys of the table in [_parent_allows]). *)
Inductive PaletteKind : Set := PEntity | PEnvironment.

Definition node_kind (k : PaletteKind) : NodeKind :=
  match k with
  | PEntity => KEntity
  | PEnvironment => KEnvironment
  end.

Global Instance NodeKind_eq_dec : EqDecision NodeKind.
Proof. solve_decision. Defined.

Global Instance PaletteKind_eq_dec : EqDecision PaletteKind.
Proof. solve_decision. Defined.

(** [pygame.Vector2] *)
Record Vector2 : Set := mkVector2 { vx : Q; vy : Q }.

(** [pygame.Rect]: integer [left], [top], [width], [height]; [right] and
    [bottom] are derived. *)
Record Rect : Set := mkRect {
  rect_left : Z; rect_top : Z; rect_width : Z; rect_height : Z }.

Definition rect_right (r : Rect) : Z := rect_left r + rect_width r.
Definition rect_bottom (r : Rect) : Z := rect_top r + rect_height r.

(** A payload object, seen through the two attributes the model reads with
    [getattr]: [pos] ([None] when the attribute is missing or is [None]) and
    [radius] ([None] when the attribute is missing). *)
Record Payload : Set := mkPayload {
  pos : option Vector2;
  radius_attr : option Q }.

Record Node : Set := mkNode {
  id : Z;
  kind : NodeKind;
  name : string;
  base_name : string;
  payload : option Payload;
  parent : option Z;
  children : list Z }.

(** Modelled from the spec: [PaletteItem] of game/editor/registry.py, a
    display name and a factory that builds a payload from a position. *)
Record PaletteItem : Set := mkPaletteItem {
  item_name : string;
  factory : Vector2 → Payload }.

(** Modelled from the spec: [PaletteRegistry.get_item(kind, index)] of
    game/editor/registry.py, an optional item per kind and index. *)
Definition PaletteRegistry : Set := PaletteKind → Z → option PaletteItem.

Record EditorModel : Set := mkEditorModel {
  registry : PaletteRegistry;
  nodes : gmap Z Node;
  _order : list Z;
  _label_counts : gmap string Z;
  _next_id : Z;
  root_id : Z;
  selected_id : option Z }.

(** Field assignments. *)
Definition set_nodes (ns : gmap Z Node) (m : EditorModel) : EditorModel :=
  mkEditorModel (registry m) ns (_order m) (_label_counts m) (_next_id m)
    (root_id m) (selected_id m).

Definition set_order (o : list Z) (m : EditorModel) : EditorModel :=
  mkEditorModel (registry m) (nodes m) o (_label_counts m) (_next_id m)
    (root_id m) (selected_id m).

Definition set_label_counts (c : gmap string Z) (m : EditorModel) : EditorModel :=
  mkEditorModel (registry m) (nodes m) (_order m) c (_next_id m)
    (root_id m) (selected_id m).

Definition set_next_id (n : Z) (m : EditorModel) : EditorModel :=
  mkEditorModel (registry m) (nodes m) (_order m) (_label_counts m) n
    (root_id m) (selected_id m).

Definition set_selected_id (s : option Z) (m : EditorModel) : EditorModel :=
  mkEditorModel (registry m) (nodes m) (_order m) (_label_counts m)
    (_next_id m) (root_id m) s.

Definition set_children (cs : list Z) (n : Node) : Node :=
  mkNode (id n) (kind n) (name n) (base_name n) (payload n) (parent n) cs.

Definition set_payload (p : option Payload) (n : Node) : Node :=
  mkNode (id n) (kind n) (name n) (base_name n) p (parent n) (children n).

(** ** Node queries *)

Definition position (n : Node) : option Vector2 :=
  match payload n with
  | None => None
  | Some p => pos p
  end.

Definition radius (n : Node) : Q :=
  match payload n with
  | None => 0%Q
  | Some p => default 0%Q (radius_attr p)
  end.

(** ** Creation *)

(** The table [allowed] of [_parent_allows]. *)
Definition allowed (child_kind : PaletteKind) : list NodeKind :=
  match child_kind with
  | PEntity => [KEnvironment]
  | PEnvironment => [KRoot; KEntity]
  end.

Definition _parent_allows (m : EditorModel) (parent_id : Z)
    (child_kind : PaletteKind) : bool :=
  match nodes m !! parent_id with
  | None => false
  | Some parent_node => bool_decide (kind parent_node ∈ allowed child_kind)
  end.

(** The list [candidates] built by [_resolve_parent]. *)
Definition candidates (m : EditorModel) (parent_hint : option Z) : list (option Z) :=
  let cs := [parent_hint] in
  let cs := if bool_decide (selected_id m ∈ cs) then cs else cs ++ [selected_id m] in
  cs ++ [Some (root_id m)].

(** The loop of [_resolve_parent] over the candidates. *)
Fixpoint first_allowed (m : EditorModel) (child_kind : PaletteKind)
    (cs : list (option Z)) : option Z :=
  match cs with
  | [] => None
  | None :: cs' => first_allowed m child_kind cs'
  | Some candidate :: cs' =>
      if _parent_allows m candidate child_kind then Some candidate
      else first_allowed m child_kind cs'
  end.

Definition _resolve_parent (m : EditorModel) (child_kind : PaletteKind)
    (parent_hint : option Z) : option Z :=
  first_allowed m child_kind (candidates m parent_hint).

Definition _attach_child (m : EditorModel) (parent_id child_id : Z) : EditorModel :=
  match nodes m !! parent_id with
  | None => m
  | Some parent_node =>
      set_nodes
        (<[parent_id := set_children (children parent_node ++ [child_id]) parent_node]>
           (nodes m)) m
  end.

Definition label_count (m : EditorModel) (base : string) : Z :=
  default 0 (_label_counts m !! base).

Definition _make_label (m : EditorModel) (base : string) : EditorModel * string :=
  let count := label_count m base in
  let m' := set_label_counts (<[base := count + 1]> (_label_counts m)) m in
  (m', if bool_decide (count = 0) then base
       else base +:+ " #" +:+ pretty (count + 1)).

Definition root_node : Node :=
  mkNode 0 KRoot "Scene Root" "Scene" None None [].

Definition _create_root (m : EditorModel) : EditorModel * Z :=
  (set_nodes (<[id root_node := root_node]> (nodes m)) m, id root_node).

(** [EditorModel.__init__] *)
Definition init (reg : PaletteRegistry) : EditorModel :=
  let m0 := mkEditorModel reg ∅ [] ∅ 1 0 None in
  let '(m1, r) := _create_root m0 in
  mkEditorModel reg (nodes m1) (_order m1) (_label_counts m1) (_next_id m1) r None.

Definition vector2_of (p : Z * Z) : Vector2 :=
  mkVector2 (inject_Z p.1) (inject_Z p.2).

Definition spawn_from_palette (m : EditorModel) (child_kind : PaletteKind)
    (idx : Z) (position : Z * Z) (parent_hint : option Z)
    : EditorModel * option Node :=
  match registry m child_kind idx with
  | None => (m, None)
  | Some item =>
      match _resolve_parent m child_kind parent_hint with
      | None => (m, None)
      | Some parent_id =>
          let new_payload := factory item (vector2_of position) in
          let '(m1, label) := _make_label m (item_name item) in
          let node := mkNode (_next_id m1) (node_kind child_kind) label
                        (item_name item) (Some new_payload) (Some parent_id) [] in
          let m2 := set_nodes (<[id node := node]> (nodes m1)) m1 in
          let m3 := set_order (_order m2 ++ [id node]) m2 in
          let m4 := _attach_child m3 parent_id (id node) in
          let m5 := set_next_id (_next_id m4 + 1) m4 in
          let m6 := set_selected_id (Some (id node)) m5 in
          (m6, Some node)
      end
  end.

(** ** Queries *)

Definition iter_drawable_nodes (m : EditorModel) : list Node :=
  omap (λ node_id,
          match nodes m !! node_id with
          | None => None
          | Some node => match payload node with
                         | None => None
                         | Some _ => Some node
                         end
          end) (_order m).

Definition selected_node (m : EditorModel) : option Node :=
  match selected_id m with
  | None => None
  | Some i => nodes m !! i
  end.

(** ** Selection and movement *)

Definition select_node (m : EditorModel) (node_id : option Z) : EditorModel :=
  match node_id with
  | None => set_selected_id None m
  | Some i =>
      match nodes m !! i with
      | None => set_selected_id None m
      | Some _ =>
          if bool_decide (i = root_id m) then set_selected_id None m
          else set_selected_id (Some i) m
      end
  end.

(** Squared distance from the mouse position to a point, as computed in
    the loop of [select_at_position]. *)
Definition dist2 (mouse_pos : Z * Z) (p : Vector2) : Q :=
  let dx := (inject_Z mouse_pos.1 - vx p)%Q in
  let dy := (inject_Z mouse_pos.2 - vy p)%Q in
  (dx * dx + dy * dy)%Q.

(** One iteration of the loop of [select_at_position]; the state is
    [(best_id, best_d2)]. *)
Definition nearest_step (mouse_pos : Z * Z) (best : option Z * option Q)
    (node : Node) : option Z * option Q :=
  match position node with
  | None => best
  | Some p =>
      let d2 := dist2 mouse_pos p in
      match best.2 with
      | None => (Some (id node), Some d2)
      | Some best_d2 =>
          if Qlt_le_dec d2 best_d2 then (Some (id node), Some d2) else best
      end
  end.

Definition nearest (mouse_pos : Z * Z) (ns : list Node) : option Z * option Q :=
  foldl (nearest_step mouse_pos) (None, None) ns.

Definition select_at_position (m : EditorModel) (mouse_pos : Z * Z)
    : EditorModel * option Z :=
  let best_id := (nearest mouse_pos (iter_drawable_nodes m)).1 in
  (select_node m best_id, best_id).

(** Python's [max(a, b)] and [min(a, b)] on two arguments: the first one is
    kept unless the second is strictly greater (smaller). *)
Definition py_max (a b : Q) : Q := if Qlt_le_dec a b then b else a.
Definition py_min (a b : Q) : Q := if Qlt_le_dec b a then b else a.

Definition move_selected_within (m : EditorModel) (canvas_rect : Rect)
    (desired : Vector2) : EditorModel :=
  match selected_id m, selected_node m with
  | Some sel, Some node =>
      match payload node with
      | None => m
      | Some p =>
          match pos p with
          | None => m
          | Some _ =>
              let r := radius node in
              let left := (inject_Z (rect_left canvas_rect) + r)%Q in
              let right := (inject_Z (rect_right canvas_rect) - r)%Q in
              let top := (inject_Z (rect_top canvas_rect) + r)%Q in
              let bottom := (inject_Z (rect_bottom canvas_rect) - r)%Q in
              let new_pos :=
                mkVector2 (py_max left (py_min right (vx desired)))
                          (py_max top (py_min bottom (vy desired))) in
              set_nodes
                (<[sel := set_payload (Some (mkPayload (Some new_pos) (radius_attr p))) node]>
                   (nodes m)) m
          end
      end
  | _, _ => m
  end.

(** ** Deletion *)

(** Runs [f] on each id of [l] in turn, threading the model. *)
Fixpoint for_each (f : Z → EditorModel → option EditorModel) (l : list Z)
    (m : EditorModel) : option EditorModel :=
  match l with
  | [] => Some m
  | c :: l' =>
      match f c m with
      | None => None
      | Some m' => for_each f l' m'
      end
  end.

(** [_remove_subtree]; the recursion follows the children lists, so it is
    bounded by [fuel], and [None] means that the fuel ran out. *)
Fixpoint _remove_subtree (fuel : nat) (node_id : Z) (m : EditorModel)
    : option EditorModel :=
  match fuel with
  | O => None
  | S fuel' =>
      match nodes m !! node_id with
      | None => Some m
      | Some node =>
          let m1 := set_nodes (delete node_id (nodes m)) m in
          match for_each (_remove_subtree fuel') (children node) m1 with
          | None => None
          | Some m2 =>
              let m3 :=
                match parent node with
                | None => m2
                | Some p =>
                    match nodes m2 !! p with
                    | None => m2
                    | Some parent_node =>
                        set_nodes
                          (<[p := set_children
                                    (filter (λ cid, cid ≠ node_id) (children parent_node))
                                    parent_node]> (nodes m2)) m2
                    end
                end in
              Some (set_order (filter (λ nid, nid ≠ node_id) (_order m3)) m3)
          end
      end
  end.

(** Every recursive call pops a node of the table first, so one unit of
    fuel per node (and one more) is enough. *)
Definition delete_fuel (m : EditorModel) : nat := S (size (nodes m)).

Definition delete_selected (m : EditorModel) : option EditorModel :=
  match selected_node m with
  | None => Some m
  | Some node =>
      let parent_id := parent node in
      match _remove_subtree (delete_fuel m) (id node) m with
      | None => None
      | Some m1 =>
          let keep_parent :=
            match parent_id with
            | None => false
            | Some p => bool_decide (is_Some (nodes m1 !! p) ∧ p ≠ root_id m1)
            end in
          if keep_parent then Some (set_selected_id parent_id m1)
          else
            match last (_order m1) with
            | Some l => Some (set_selected_id (Some l) m1)
            | None => Some (set_selected_id None m1)
            end
      end
  end.

(** ** Sequences of calls *)

Inductive Op : Set :=
| OSpawn (child_kind : PaletteKind) (idx : Z) (position : Z * Z) (parent_hint : option Z)
| OSelectNode (node_id : option Z)
| OSelectAt (mouse_pos : Z * Z)
| OMove (canvas_rect : Rect) (desired : Vector2)
| ODelete.

(** One call: the model after it and the node it returned, if any. *)
Definition apply_op (op : Op) (m : EditorModel) : option (EditorModel * option Node) :=
  match op with
  | OSpawn k i p h => Some (spawn_from_palette m k i p h)
  | OSelectNode i => Some (select_node m i, None)
  | OSelectAt p => Some ((select_at_position m p).1, None)
  | OMove r d => Some (move_selected_within m r d, None)
  | ODelete =>
      match delete_selected m with
      | None => None
      | Some m' => Some (m', None)
      end
  end.

(** A sequence of calls: the final model and the nodes returned by the
    successful spawns, in order. *)
Fixpoint run (ops : list Op) (m : EditorModel) : option (EditorModel * list Node) :=
  match ops with
  | [] => Some (m, [])
  | op :: ops' =>
      match apply_op op m with
      | None => None
      | Some (m1, r) =>
          match run ops' m1 with
          | None => None
          | Some (m2, rs) => Some (m2, option_list r ++ rs)
          end
      end
  end.

Definition reachable (m : EditorModel) : Prop :=
  ∃ reg ops spawned, run ops (init reg) = Some (m, spawned).

(** ** Sample data for the examples *)

Definition sample_payload (v : Vector2) : Payload := mkPayload (Some v) (Some 10%Q).

Definition sample_registry : PaletteRegistry :=
  λ k i,
    if bool_decide (i = 0) then
      Some (mkPaletteItem (match k with PEntity => "Rock" | PEnvironment => "Zone" end)
              sample_payload)
    else None.


(** ** Parent resolution *)

(** The eligibility table of the specification: an entity lives in an
    environment, an environment hangs from the root or from an entity. *)
Definition eligible (m : EditorModel) (child_kind : PaletteKind) (p : Z) : Prop :=
  ∃ parent_node, nodes m !! p = Some parent_node ∧
    match child_kind with
    | PEntity => kind parent_node = KEnvironment
    | PEnvironment => kind parent_node = KRoot ∨ kind parent_node = KEntity
    end.

(** The candidates in the words of the specification: the hint, the
    selection if it differs from the hint, the root. *)
Definition spec_candidates (m : EditorModel) (parent_hint : option Z) : list (option Z) :=
  [parent_hint]
  ++ (if decide (selected_id m = parent_hint) then [] else [selected_id m])
  ++ [Some (root_id m)].

(** [r] is the first eligible candidate of [cs], or [None] when there is
    none. *)
Definition first_eligible (m : EditorModel) (child_kind : PaletteKind)
    (cs : list (option Z)) (r : option Z) : Prop :=
  match r with
  | Some p =>
      ∃ before after, cs = before ++ Some p :: after ∧ eligible m child_kind p ∧
        ∀ q, Some q ∈ before → ¬ eligible m child_kind q
  | None => ∀ q, Some q ∈ cs → ¬ eligible m child_kind q
  end.

(** ** Bounded movement *)

(** [v] lies in the interval from [lo + r] to [hi - r]. *)
Definition axis_within (lo hi : Z) (r v : Q) : Prop :=
  (inject_Z lo + r <= v)%Q ∧ (v <= inject_Z hi - r)%Q.

(** The bound of the specification on the position written by
    [move_selected_within], for a selected node with a positioned payload. *)
Definition moved_within_bounds (m : EditorModel) (canvas_rect : Rect)
    (desired : Vector2) : Prop :=
  ∀ node p v,
    selected_node m = Some node → payload node = Some p → pos p = Some v →
    ∃ node' v',
      selected_node (move_selected_within m canvas_rect desired) = Some node' ∧
      position node' = Some v' ∧
      axis_within (rect_left canvas_rect) (rect_right canvas_rect) (radius node) (vx v') ∧
      axis_within (rect_top canvas_rect) (rect_bottom canvas_rect) (radius node) (vy v').

(** A model with one environment, of radius 10, selected. *)
Definition one_zone : EditorModel :=
  (spawn_from_palette (init sample_registry) PEnvironment 0 (5, 5) None).1.

(** Three rocks in a zone, the second one deleted, then a fourth rock. *)
Definition rocks_ops : list Op :=
  [OSpawn PEnvironment 0 (5, 5) None; OSpawn PEntity 0 (1, 2) None;
   OSpawn PEntity 0 (1, 2) (Some 1); OSpawn PEntity 0 (7, 7) (Some 1);
   OSelectNode (Some 3); ODelete; OSpawn PEntity 0 (3, 3) None].

(** A zone with two rocks in it, the second rock selected. *)
Definition two_rocks : EditorModel :=
  (spawn_from_palette
     (spawn_from_palette one_zone PEntity 0 (1, 2) None).1
     PEntity 0 (7, 7) (Some 1)).1.

(** The zone of [two_rocks] and its second rock. *)
Definition zone_node : Node :=
  mkNode 1 KEnvironment "Zone" "Zone" (Some (sample_payload (vector2_of (5, 5))))
    (Some 0) [2; 3].

Definition rock_node : Node :=
  mkNode 3 KEntity "Rock #2" "Rock" (Some (sample_payload (vector2_of (7, 7))))
    (Some 1) [].

(** ** Labels *)

(** The label of the [n]-th node spawned with base name [base], in the
    words of the specification: the bare name first, then a numbered one. *)
Definition nth_label (base : string) (n : nat) : string :=
  if decide (n = 1%nat) then base else base +:+ " #" +:+ pretty (Z.of_nat n).

(** The nodes of [spawned] with base name [base]. *)
Definition with_base (base : string) (spawned : list Node) : list Node :=
  filter (λ node, base_name node = base) spawned.

(** The label [_make_label] computes when the counter of [base] is [count]. *)
Definition label_for_count (base : string) (count : Z) : string :=
  if bool_decide (count = 0) then base else base +:+ " #" +:+ pretty (count + 1).

(** What [_remove_subtree] never writes. *)
Definition same_scalars (m m' : EditorModel) : Prop :=
  registry m' = registry m ∧ _label_counts m' = _label_counts m ∧
  _next_id m' = _next_id m ∧ root_id m' = root_id m ∧
  selected_id m' = selected_id m.

(** ** Subtrees and removal *)

(** The subtree of [i]: [i] itself and the nodes of the table reachable
    from it through the children lists. *)
Inductive in_subtree (m : EditorModel) (i : Z) : Z → Prop :=
| in_subtree_self : is_Some (nodes m !! i) → in_subtree m i i
| in_subtree_child b n c :
    in_subtree m i b → nodes m !! b = Some n → c ∈ children n →
    is_Some (nodes m !! c) → in_subtree m i c.

(** The ids that are in the table of [m] and no longer in that of [m']. *)
Definition removed (m m' : EditorModel) : gset Z :=
  dom (nodes m) ∖ dom (nodes m').

(** [m'] is [m] without the removed nodes: they are gone from the table,
    from the children lists of the nodes that stay and from the creation
    order; nothing else differs. *)
Definition prunes (m m' : EditorModel) : Prop :=
  same_scalars m m' ∧
  dom (nodes m') ⊆ dom (nodes m) ∧
  (∀ j n, nodes m !! j = Some n → j ∉ removed m m' →
     nodes m' !! j
       = Some (set_children (filter (λ c, c ∉ removed m m') (children n)) n)) ∧
  _order m' = filter (λ j, j ∉ removed m m') (_order m).

(** The children of a removed node are not in the table of [m']. *)
Definition closed (m m' : EditorModel) : Prop :=
  ∀ b n c, b ∈ removed m m' → nodes m !! b = Some n → c ∈ children n →
    c ∉ dom (nodes m').

(** A child that is in the table points back to the node that lists it. *)
Definition children_linked (m : EditorModel) : Prop :=
  ∀ i n c cn, nodes m !! i = Some n → c ∈ children n →
    nodes m !! c = Some cn → parent cn = Some i.

(** The table and children lists of [m'] are within those of [m]. *)
Definition substate (m' m : EditorModel) : Prop :=
  ∀ j n', nodes m' !! j = Some n' →
    ∃ n, nodes m !! j = Some n ∧ ∀ c, c ∈ children n' → c ∈ children n.

(** The step of [_remove_subtree] that takes [node_id] out of the children
    of its parent, when the parent is still in the table. *)
Definition detach (node_id : Z) (node : Node) (m : EditorModel) : EditorModel :=
  match parent node with
  | None => m
  | Some p =>
      match nodes m !! p with
      | None => m
      | Some parent_node =>
          set_nodes
            (<[p := set_children
                      (filter (λ cid, cid ≠ node_id) (children parent_node))
                      parent_node]> (nodes m)) m
      end
  end.

(** What a run of [_remove_subtree] over the ids of [l] does to a model
    whose children are linked. *)
Definition removal (l : list Z) (m m' : EditorModel) : Prop :=
  children_linked m →
  prunes m m' ∧ closed m m' ∧
  ∀ j, j ∈ removed m m' → ∃ c, c ∈ l ∧ in_subtree m c j.

(** The selection [delete_selected] leaves, from the parent of the deleted
    node and the model after the removal. *)
Definition selection_after_delete (parent_id : option Z) (m1 : EditorModel)
    : option Z :=
  if match parent_id with
     | None => false
     | Some p => bool_decide (is_Some (nodes m1 !! p) ∧ p ≠ root_id m1)
     end
  then parent_id
  else last (_order m1).

(** ** Selection by position *)

(** The nodes that have both a payload and a position, with that position,
    in creation order. *)
Definition positioned (m : EditorModel) : list (Node * Vector2) :=
  omap (λ i,
          match nodes m !! i with
          | None => None
          | Some node =>
              match payload node with
              | None => None
              | Some p =>
                  match pos p with
                  | None => None
                  | Some v => Some (node, v)
                  end
              end
          end) (_order m).

(** The positioned nodes of a list of nodes. *)
Definition with_position (ns : list Node) : list (Node * Vector2) :=
  omap (λ node, match position node with
                | None => None
                | Some v => Some (node, v)
                end) ns.

(** ** Invariant of the reachable models *)

Record Inv (m : EditorModel) : Prop := mkInv {
  inv_root_id : root_id m = 0;
  inv_root : ∃ r, nodes m !! 0 = Some r ∧ kind r = KRoot ∧ parent r = None ∧
               payload r = None;
  inv_ids : ∀ i n, nodes m !! i = Some n → id n = i ∧ i < _next_id m;
  inv_selected : ∀ s, selected_id m = Some s →
                   is_Some (nodes m !! s) ∧ s ≠ root_id m;
  inv_children : ∀ i n c, nodes m !! i = Some n → c ∈ children n →
                   ∃ cn, nodes m !! c = Some cn ∧ parent cn = Some i;
  inv_order : ∀ i, i ∈ _order m ↔ is_Some (nodes m !! i) ∧ i ≠ 0;
  inv_payload : ∀ i n, nodes m !! i = Some n → i ≠ 0 → is_Some (payload n) }.

(** ** Inspector queries *)

Definition selected_label (m : EditorModel) : string :=
  match selected_node m with
  | Some node => name node
  | None => ""
  end.

Definition parent_label (m : EditorModel) (node_id : Z) : option string :=
  match nodes m !! node_id with
  | None => None
  | Some node =>
      match parent node with
      | None => None
      | Some p =>
          match nodes m !! p with
          | None => None
          | Some parent_node => Some (name parent_node)
          end
      end
  end.

Definition child_labels (m : EditorModel) (node_id : Z) : list string :=
  match nodes m !! node_id with
  | None => []
  | Some node =>
      omap (λ child_id,
              match nodes m !! child_id with
              | None => None
              | Some child => Some (name child)
              end) (children node)
  end.

(** ** Traversal *)

(** Runs [f] on each id of [l] and chains what it yields. *)
Fixpoint concat_each {A} (f : Z → option (list A)) (l : list Z) : option (list A) :=
  match l with
  | [] => Some []
  | c :: l' =>
      match f c with
      | None => None
      | Some ys =>
          match concat_each f l' with
          | None => None
          | Some rest => Some (ys ++ rest)
          end
      end
  end.

(** [_visit] of [iter_tree], as the list of the pairs it yields; the
    recursion follows the children lists, so it is bounded by [fuel], and
    [None] means that the fuel ran out. *)
Fixpoint _visit (fuel : nat) (m : EditorModel) (node_id : Z) (depth : Z)
    : option (list (Z * Node)) :=
  match fuel with
  | O => None
  | S fuel' =>
      match nodes m !! node_id with
      | None => Some []
      | Some node =>
          match concat_each (λ child_id, _visit fuel' m child_id (depth + 1))
                  (children node) with
          | None => None
          | Some rest => Some ((depth, node) :: rest)
          end
      end
  end.

Definition iter_tree (fuel : nat) (m : EditorModel) : option (list (Z * Node)) :=
  _visit fuel m (root_id m) 0.

(** [i] is at depth [d] below [r], which is at depth [d0]. *)
Inductive at_depth (m : EditorModel) (r : Z) (d0 : Z) : Z → Z → Prop :=
| at_depth_self : is_Some (nodes m !! r) → at_depth m r d0 r d0
| at_depth_child b n c d :
    at_depth m r d0 b d → nodes m !! b = Some n → c ∈ children n →
    is_Some (nodes m !! c) → at_depth m r d0 c (d + 1).

(** ** Structure of the reachable models *)

(** The table of [_parent_allows], on the kinds of a node and its parent. *)
Definition kinds_allowed (child_kind parent_kind : NodeKind) : Prop :=
  (child_kind = KEntity ∧ parent_kind = KEnvironment) ∨
  (child_kind = KEnvironment ∧ (parent_kind = KRoot ∨ parent_kind = KEntity)).

Record Tree (m : EditorModel) : Prop := mkTree {
  tree_inv : Inv m;
  tree_root_name : ∃ r, nodes m !! 0 = Some r ∧ name r = "Scene Root" ∧
                        base_name r = "Scene";
  tree_next_id : 1 ≤ _next_id m;
  tree_ids : ∀ i n, nodes m !! i = Some n → 0 ≤ i;
  tree_parent : ∀ i n, nodes m !! i = Some n → i ≠ 0 →
                  ∃ p pn, parent n = Some p ∧ nodes m !! p = Some pn ∧
                          i ∈ children pn ∧ p < i ∧
                          kinds_allowed (kind n) (kind pn);
  tree_children_nodup : ∀ i n, nodes m !! i = Some n → NoDup (children n);
  tree_order_sorted : StronglySorted Z.lt (_order m) }.

(** The structural part of a node: everything but the payload. *)
Definition same_structure (x x' : Node) : Prop :=
  id x' = id x ∧ kind x' = kind x ∧ name x' = name x ∧
  base_name x' = base_name x ∧ parent x' = parent x ∧ children x' = children x.

(** [delete_selected], [n] times in a row. *)
Fixpoint delete_n (n : nat) (m : EditorModel) : option EditorModel :=
  match n with
  | O => Some m
  | S n' =>
      match delete_selected m with
      | None => None
      | Some m' => delete_n n' m'
      end
  end.

(** ** The range of the integers of a [pygame.Rect] *)

(** [pygame.Rect] keeps [left], [top], [width] and [height] in 32-bit
    integers and computes [right] and [bottom] in them. *)
Definition int32 (z : Z) : Prop := - 2 ^ 31 ≤ z < 2 ^ 31.

(** A rectangle whose fields, [right] and [bottom] all fit in 32 bits, so
    that [rect_right] and [rect_bottom] are what [pygame.Rect] gives. *)
Definition rect_fits (r : Rect) : Prop :=
  int32 (rect_left r) ∧ int32 (rect_top r) ∧
  int32 (rect_width r) ∧ int32 (rect_height r) ∧
  int32 (rect_right r) ∧ int32 (rect_bottom r).

(** ** Vectors and Python's indexing *)

Definition vec_add (a b : Vector2) : Vector2 :=
  mkVector2 (vx a + vx b)%Q (vy a + vy b)%Q.

Definition vec_scale (a : Vector2) (k : Q) : Vector2 :=
  mkVector2 (vx a * k)%Q (vy a * k)%Q.

Definition vec_div (a : Vector2) (k : Q) : Vector2 :=
  mkVector2 (vx a / k)%Q (vy a / k)%Q.

Definition vec_zero : Vector2 := mkVector2 0 0.

(** The position that [l[i]] reads in Python: from the end for a negative
    [i]; [None] is Python's [IndexError]. *)
Definition py_position {A} (l : list A) (i : Z) : option nat :=
  if bool_decide (0 ≤ i ∧ i < Z.of_nat (length l)) then Some (Z.to_nat i)
  else if bool_decide (i < 0 ∧ 0 ≤ Z.of_nat (length l) + i)
       then Some (Z.to_nat (Z.of_nat (length l) + i))
       else None.

(** Python's [enumerate], counting from [i]. *)
Fixpoint enumerate_from {A} (i : Z) (l : list A) : list (Z * A) :=
  match l with
  | [] => []
  | a :: l' => (i, a) :: enumerate_from (i + 1) l'
  end.

(** ** The entity editor scene (game/scenes/entity_editor.py) *)

Module Scene.

(** The fields of [EntityEditorScene] that selection and dragging use; an
    entity is seen through its [pos] and [radius] attributes. *)
Record EntityEditorScene : Set := mk {
  entities : list Payload;
  selected : Z;
  dragging : bool;
  drag_mode : option string;
  drag_offset : Vector2;
  canvas_rect : Rect }.

(** One iteration of the loop of [_select_entity_at]; the state is
    [(best_i, best_d2)]. *)
Definition select_step (mouse_pos : Z * Z) (best : option Z * option Q)
    (ie : Z * Payload) : option Z * option Q :=
  match pos ie.2 with
  | None => best
  | Some p =>
      let d2 := dist2 mouse_pos p in
      match best.2 with
      | None => (Some ie.1, Some d2)
      | Some best_d2 =>
          if Qlt_le_dec d2 best_d2 then (Some ie.1, Some d2) else best
      end
  end.

Definition _select_entity_at (s : EntityEditorScene) (mouse_pos : Z * Z)
    : EntityEditorScene * option Z :=
  let best_i :=
    (foldl (select_step mouse_pos) (None, None)
       (enumerate_from 0 (entities s))).1 in
  (match best_i with
   | Some i => mk (entities s) i (dragging s) (drag_mode s) (drag_offset s)
                 (canvas_rect s)
   | None => s
   end, best_i).

(** [_drag_to]; [None] is the [IndexError] of [self.entities[self.selected]]. *)
Definition _drag_to (s : EntityEditorScene) (mouse_pos : Z * Z)
    : option EntityEditorScene :=
  match entities s with
  | [] => Some s
  | _ :: _ =>
      match py_position (entities s) (selected s) with
      | None => None
      | Some k =>
          match entities s !! k with
          | None => None
          | Some ent =>
              match pos ent with
              | None => Some s
              | Some _ =>
                  let desired := vec_add (vector2_of mouse_pos) (drag_offset s) in
                  let r := default 0%Q (radius_attr ent) in
                  let left := (inject_Z (rect_left (canvas_rect s)) + r)%Q in
                  let right := (inject_Z (rect_right (canvas_rect s)) - r)%Q in
                  let top := (inject_Z (rect_top (canvas_rect s)) + r)%Q in
                  let bottom := (inject_Z (rect_bottom (canvas_rect s)) - r)%Q in
                  let new_pos :=
                    mkVector2 (py_max left (py_min right (vx desired)))
                              (py_max top (py_min bottom (vy desired))) in
                  Some (mk (<[k := mkPayload (Some new_pos) (radius_attr ent)]>
                              (entities s))
                          (selected s) (dragging s) (drag_mode s) (drag_offset s)
                          (canvas_rect s))
              end
          end
      end
  end.

(** The entities that have a position, with their index and position. *)
Definition positioned (s : EntityEditorScene) : list (Z * Vector2) :=
  omap (λ ie : Z * Payload,
          match pos ie.2 with
          | None => None
          | Some v => Some (ie.1, v)
          end) (enumerate_from 0 (entities s)).

(** A Python [str] as the sequence of its code points: [len(s)] is
    [length s] and the slice [s[:n]] is [take n s]. *)
Definition PyStr : Set := list N.

(** The [str] of a literal of the source, which is ASCII. *)
Definition py_str (s : string) : PyStr :=
  map Ascii.N_of_ascii (String.list_ascii_of_string s).

(** [_safe_repr], from what [repr(v)] gives; [None] stands for a [repr]
    that raises an [Exception]. *)
Definition _safe_repr (repr_v : option PyStr) : PyStr :=
  let s := default (py_str "<unrepr-able>") repr_v in
  if bool_decide (length s ≤ 70)%nat then s
  else take 67 s ++ py_str "...".

End Scene.

(** ** Animation clips (game/entities/spyke_player.py) *)

Module Anim.

(** A [pygame.Surface], by a handle. *)
Inductive Surface : Set := surface (handle : Z).

Inductive Raised : Set := RuntimeError | IndexError.

(** The arithmetic of Python's [float] that [update] uses, whatever its
    rounding: [t + dt], [t - frame_time], [1.0 / fps], [fps <= 0] and
    [t >= frame_time]. *)
Record FloatOps : Type := mkFloatOps {
  num : Type;
  add : num → num → num;
  sub : num → num → num;
  inv : num → num;
  le_zero : num → bool;
  ge : num → num → bool }.

(** Arithmetic without rounding, on rationals. *)
Definition rational : FloatOps :=
  mkFloatOps Q Qplus Qminus (λ x, 1 / x)%Q (λ x, Qle_bool x 0) (λ x y, Qle_bool y x).

Record AnimClip (ops : FloatOps) : Type := mk {
  frames : list Surface;
  fps : num ops;
  loop : bool;
  t : num ops;
  idx : Z }.

Arguments mk {ops} _ _ _ _ _.
Arguments frames {ops} _.
Arguments fps {ops} _.
Arguments loop {ops} _.
Arguments t {ops} _.
Arguments idx {ops} _.

(** The body of the [while] loop of [update]. *)
Definition turn {ops} (frame_time : num ops) (c : AnimClip ops) : AnimClip ops :=
  let idx1 := idx c + 1 in
  let idx2 := if loop c then idx1 mod Z.of_nat (length (frames c))
              else Z.min idx1 (Z.of_nat (length (frames c)) - 1) in
  mk (frames c) (fps c) (loop c) (sub ops (t c) frame_time) idx2.

(** The clip after at most [n] turns of the [while] loop of [update]: the
    loop stops at the first turn whose test fails. *)
Fixpoint turns {ops} (n : nat) (frame_time : num ops) (c : AnimClip ops)
    : AnimClip ops :=
  match n with
  | O => c
  | S n' =>
      if ge ops (t c) frame_time then turns n' frame_time (turn frame_time c)
      else c
  end.

(** The [while] loop of [update], run to its end: [None] means that the
    test still holds after [fuel] turns. *)
Fixpoint advance {ops} (fuel : nat) (frame_time : num ops) (c : AnimClip ops)
    : option (AnimClip ops) :=
  match fuel with
  | O => None
  | S fuel' =>
      if ge ops (t c) frame_time then advance fuel' frame_time (turn frame_time c)
      else Some c
  end.

(** The clip at the entry of the loop: [self.t += dt]. *)
Definition started {ops} (c : AnimClip ops) (dt : num ops) : AnimClip ops :=
  mk (frames c) (fps c) (loop c) (add ops (t c) dt) (idx c).

Definition update {ops} (fuel : nat) (c : AnimClip ops) (dt : num ops)
    : option (AnimClip ops) :=
  if bool_decide (length (frames c) ≤ 1)%nat || le_zero ops (fps c) then Some c
  else advance fuel (inv ops (fps c)) (started c dt).

Definition current {ops} (c : AnimClip ops) : Surface + Raised :=
  match frames c with
  | [] => inr RuntimeError
  | _ :: _ =>
      match py_position (frames c) (idx c) with
      | None => inr IndexError
      | Some k =>
          match frames c !! k with
          | Some f => inl f
          | None => inr IndexError
          end
      end
  end.

End Anim.

(** ** Mass entities (game/entities/mass.py, visible_mass.py) *)

Module Mass.

Record MassEntity : Set := mk {
  pos : Vector2;
  mass : Q;
  velocity : Vector2;
  _force_accumulator : Vector2 }.

(** [integrate]; [None] is the [ZeroDivisionError] of a division by a mass
    of zero. *)
Definition integrate (e : MassEntity) (dt : Q) : option MassEntity :=
  if Qle_bool dt 0 then Some (mk (pos e) (mass e) (velocity e) vec_zero)
  else if Qeq_bool (mass e) 0 then None
  else
    let acceleration_px := vec_div (_force_accumulator e) (mass e) in
    let velocity' := vec_add (velocity e) (vec_scale acceleration_px dt) in
    let pos' := vec_add (pos e) (vec_scale velocity' dt) in
    Some (mk pos' (mass e) velocity' vec_zero).

(** A Python number: an [int] or a finite [float], an infinite [float] or
    the [float] NaN. *)
Inductive PyNumber : Set :=
| Finite (q : Q)
| Infinity (negative : bool)
| NaN.

Inductive Raised : Set := OverflowError | ValueError | TypeError.

(** A value given to [int]: one that [int] reads as a number, or one on
    which [int] raises the given exception ([TypeError] on [None] or a
    list, [ValueError] on a string that is no number). *)
Inductive PyValue : Set :=
| Number (x : PyNumber)
| NotNumber (e : Raised).

(** Python's [int]: the integer part, towards zero, of a finite number;
    [OverflowError] on an infinity and [ValueError] on NaN. *)
Definition py_int (v : PyValue) : Z + Raised :=
  match v with
  | Number (Finite q) => inl (Z.quot (Qnum q) (Z.pos (Qden q)))
  | Number (Infinity _) => inr OverflowError
  | Number NaN => inr ValueError
  | NotNumber e => inr e
  end.

(** [VisibleMassEntity._clamp8] *)
Definition _clamp8 (x : PyValue) : Z + Raised :=
  match py_int x with
  | inl n => inl (Z.max 0 (Z.min 255 n))
  | inr e => inr e
  end.

(** A Python [int] as a value. *)
Definition of_int (n : Z) : PyValue := Number (Finite (inject_Z n)).

(** What [_to_color] can be given: a [pygame.Color] with its four
    channels, a string, a tuple or list, or anything else. *)
Inductive ColorValue : Set :=
| VColor (r g b a : Z)
| VStr (s : string)
| VSeq (items : list PyValue)
| VOther.

(** [pygame.Color(r, g, b, a)] as its four channels. *)
Definition Color : Set := (Z * Z * Z * Z)%type.

(** [pygame.Color(_clamp8(r), _clamp8(g), _clamp8(b))]: the arguments are
    evaluated from left to right and the first exception is raised. *)
Definition color3 (r g b : PyValue) : Color + Raised :=
  match _clamp8 r with
  | inr e => inr e
  | inl r' =>
      match _clamp8 g with
      | inr e => inr e
      | inl g' =>
          match _clamp8 b with
          | inr e => inr e
          | inl b' => inl (r', g', b', 255)
          end
      end
  end.

(** [pygame.Color(_clamp8(r), _clamp8(g), _clamp8(b), _clamp8(a))] *)
Definition color4 (r g b a : PyValue) : Color + Raised :=
  match _clamp8 r with
  | inr e => inr e
  | inl r' =>
      match _clamp8 g with
      | inr e => inr e
      | inl g' =>
          match _clamp8 b with
          | inr e => inr e
          | inl b' =>
              match _clamp8 a with
              | inr e => inr e
              | inl a' => inl (r', g', b', a')
              end
          end
      end
  end.

(** The last lines of [_to_color], outside the [try]: the color of the
    fallback. *)
Definition fallback_color (fallback : PyValue * PyValue * PyValue)
    : Color + Raised :=
  let '(fr, fg, fb) := fallback in color3 fr fg fb.

(** The body of the [try] of [_to_color]: [None] when it ends without a
    [return]; [named] is [pygame.Color(name)], which is [None] when it
    raises [ValueError] on an unknown name. *)
Definition try_color (named : string → option Color) (value : ColorValue)
    : option (Color + Raised) :=
  match value with
  | VColor r g b a => Some (color4 (of_int r) (of_int g) (of_int b) (of_int a))
  | VStr s =>
      match named s with
      | Some (r, g, b, a) =>
          Some (color4 (of_int r) (of_int g) (of_int b) (of_int a))
      | None => Some (inr ValueError)
      end
  | VSeq [r; g; b] => Some (color3 r g b)
  | VSeq [r; g; b; a] => Some (color4 r g b a)
  | VSeq _ => None
  | VOther => None
  end.

(** [except (ValueError, TypeError)] *)
Definition caught (e : Raised) : bool :=
  match e with
  | ValueError | TypeError => true
  | OverflowError => false
  end.

(** [VisibleMassEntity._to_color] *)
Definition _to_color (named : string → option Color) (value : ColorValue)
    (fallback : PyValue * PyValue * PyValue) : Color + Raised :=
  match try_color named value with
  | Some (inl c) => inl c
  | Some (inr e) => if caught e then fallback_color fallback else inr e
  | None => fallback_color fallback
  end.

(** A channel value that [pygame.Color] accepts. *)
Definition byte_range (c : Z) : Prop := 0 ≤ c ≤ 255.

(** A color whose four channels are byte values. *)
Definition byte_color (c : Color) : Prop :=
  let '(r, g, b, a) := c in
  byte_range r ∧ byte_range g ∧ byte_range b ∧ byte_range a.

(** A value on which [int] raises [OverflowError]. *)
Definition overflows (v : PyValue) : Prop := py_int v = inr OverflowError.

End Mass.

(** ** Nearest item of a list *)

(** The loop body that [select_at_position] and [_select_entity_at] share,
    over items with a key and an optional position. *)
Definition nearest_step_of {A} (key : A → Z) (posn : A → option Vector2)
    (mouse_pos : Z * Z) (best : option Z * option Q) (a : A)
    : option Z * option Q :=
  match posn a with
  | None => best
  | Some p =>
      let d2 := dist2 mouse_pos p in
      match best.2 with
      | None => (Some (key a), Some d2)
      | Some best_d2 =>
          if Qlt_le_dec d2 best_d2 then (Some (key a), Some d2) else best
      end
  end.

(** The items of [l] that have a position, with their key and position. *)
Definition positions_of {A} (key : A → Z) (posn : A → option Vector2)
    (l : list A) : list (Z * Vector2) :=
  omap (λ a, match posn a with
             | None => None
             | Some v => Some (key a, v)
             end) l.

(** * Properties *)

Lemma _parent_allows_eligible m p k :
  _parent_allows m p k = true ↔ eligible m k p.
Proof.
  unfold _parent_allows, eligible. destruct (nodes m !! p) as [n|] eqn:E.
  - rewrite bool_decide_eq_true. split.
    + intros H. exists n. split; [done|].
      destruct k; simpl in H; rewrite ?elem_of_cons, elem_of_nil in H; tauto.
    + intros (n' & [= <-] & H).
      destruct k; simpl; rewrite ?elem_of_cons, elem_of_nil; tauto.
  - split; [done|]. by intros (? & ? & _).
Qed.

Lemma candidates_spec m hint : candidates m hint = spec_candidates m hint.
Proof.
  unfold candidates, spec_candidates. case_bool_decide as H; case_decide as H'; simpl.
  - done.
  - apply list_elem_of_singleton in H. done.
  - exfalso. apply H. rewrite H'. apply list_elem_of_singleton. done.
  - done.
Qed.

Lemma first_allowed_first_eligible m k cs :
  first_eligible m k cs (first_allowed m k cs).
Proof.
  induction cs as [|[c|] cs IH]; simpl.
  - intros q Hq. by apply elem_of_nil in Hq.
  - destruct (_parent_allows m c k) eqn:E.
    + exists [], cs. split; [done|]. split.
      * by apply _parent_allows_eligible.
      * intros q Hq. by apply elem_of_nil in Hq.
    + assert (¬ eligible m k c) as Hc.
      { rewrite <- _parent_allows_eligible. by rewrite E. }
      destruct (first_allowed m k cs) as [p|]; simpl in *.
      * destruct IH as (before & after & -> & Hp & Hb).
        exists (Some c :: before), after. split; [done|]. split; [done|].
        intros q [[= ->]|Hq]%elem_of_cons; auto.
      * intros q [[= ->]|Hq]%elem_of_cons; auto.
  - destruct (first_allowed m k cs) as [p|]; simpl in *.
    + destruct IH as (before & after & -> & Hp & Hb).
      exists (None :: before), after. split; [done|]. split; [done|].
      intros q [?|Hq]%elem_of_cons; [done|auto].
    + intros q [?|Hq]%elem_of_cons; [done|auto].
Qed.

(** C1: the effective parent chosen by [_resolve_parent] is the first
    candidate of the list (hint, selection if different from the hint, root)
    that satisfies the eligibility table; [spawn_from_palette] returns no
    node when no candidate qualifies, and otherwise the node it returns has
    that candidate as its parent and is appended to its children. *)
Theorem C1_resolve_parent_first_eligible
    (m : EditorModel) (k : PaletteKind) (idx : Z) (position : Z * Z)
    (hint : option Z) :
  first_eligible m k (spec_candidates m hint) (_resolve_parent m k hint) ∧
  match registry m k idx, _resolve_parent m k hint with
  | Some _, Some p =>
      ∃ node parent_node,
        (spawn_from_palette m k idx position hint).2 = Some node ∧
        parent node = Some p ∧ kind node = node_kind k ∧
        nodes (spawn_from_palette m k idx position hint).1 !! p = Some parent_node ∧
        id node ∈ children parent_node
  | _, _ => (spawn_from_palette m k idx position hint).2 = None
  end.
Proof.
  split.
  - unfold _resolve_parent. rewrite candidates_spec. apply first_allowed_first_eligible.
  - pose proof (first_allowed_first_eligible m k (candidates m hint)) as Hf.
    unfold spawn_from_palette. fold (_resolve_parent m k hint) in Hf.
    destruct (registry m k idx) as [item|]; [|done].
    destruct (_resolve_parent m k hint) as [p|]; [|done].
    destruct Hf as (_ & _ & _ & (pn & Hpn & _) & _). simpl.
    set (nid := _next_id m).
    set (node := mkNode nid _ _ _ _ _ _).
    destruct (decide (p = nid)) as [->|Hne].
    + exists node, (set_children (children node ++ [nid]) node).
      repeat split; try done.
      * unfold _attach_child. simpl. rewrite lookup_insert_eq. simpl.
        by rewrite lookup_insert_eq.
      * simpl. by apply list_elem_of_singleton.
    + exists node, (set_children (children pn ++ [nid]) pn).
      repeat split; try done.
      * unfold _attach_child. simpl. rewrite lookup_insert_ne by done.
        rewrite Hpn. simpl. by rewrite lookup_insert_eq.
      * simpl. apply elem_of_app. right. by apply list_elem_of_singleton.
Qed.

(** C5: a failing [spawn_from_palette] (no registry item, or no eligible
    parent) returns no node and leaves the model as it was. *)
Theorem C5_failed_spawn_unchanged
    (m : EditorModel) (k : PaletteKind) (idx : Z) (position : Z * Z)
    (hint : option Z) :
  ((spawn_from_palette m k idx position hint).2 = None ↔
     registry m k idx = None ∨ _resolve_parent m k hint = None) ∧
  ((spawn_from_palette m k idx position hint).2 = None →
     (spawn_from_palette m k idx position hint).1 = m).
Proof.
  unfold spawn_from_palette.
  destruct (registry m k idx) as [item|]; simpl; [|by split; [split; auto|]].
  destruct (_resolve_parent m k hint) as [p|]; simpl; [|by split; [split; auto|]].
  split; [|done]. split; [done|]. by intros [?|?].
Qed.

Lemma C5_failed_spawn_unchanged_witness :
  (spawn_from_palette (init sample_registry) PEntity 0 (3, 4) None).2 = None ∧
  (spawn_from_palette (init sample_registry) PEntity 0 (3, 4) None).1
    = init sample_registry.
Proof.
  split; [reflexivity|].
  apply (C5_failed_spawn_unchanged (init sample_registry) PEntity 0 (3, 4) None).
  reflexivity.
Defined.

(** ** Bounded movement *)

Lemma py_max_lower a b : (a <= py_max a b)%Q.
Proof.
  unfold py_max. destruct (Qlt_le_dec a b) as [H|H].
  - by apply Qlt_le_weak.
  - apply Qle_refl.
Qed.

Lemma py_max_upper a b c : (a <= c)%Q → (b <= c)%Q → (py_max a b <= c)%Q.
Proof. unfold py_max. by destruct (Qlt_le_dec a b). Qed.

Lemma py_min_upper a b : (py_min a b <= a)%Q.
Proof.
  unfold py_min. destruct (Qlt_le_dec b a) as [H|H].
  - by apply Qlt_le_weak.
  - apply Qle_refl.
Qed.

Lemma py_max_pinned a b : (b < a)%Q → py_max a b = a.
Proof.
  intros H. unfold py_max. destruct (Qlt_le_dec a b) as [H'|H']; [|done].
  exfalso. apply (Qlt_irrefl a). by apply Qlt_trans with b.
Qed.

Lemma clamp_pinned lo hi d : (hi < lo)%Q → py_max lo (py_min hi d) = lo.
Proof.
  intros H. apply py_max_pinned. apply Qle_lt_trans with hi; [|done].
  apply py_min_upper.
Qed.

Lemma selected_node_Some m node :
  selected_node m = Some node →
  ∃ sel, selected_id m = Some sel ∧ nodes m !! sel = Some node.
Proof.
  unfold selected_node. destruct (selected_id m) as [sel|]; [|done]. eauto.
Qed.

Lemma move_selected_within_positioned m canvas_rect desired sel node p v :
  selected_id m = Some sel → nodes m !! sel = Some node →
  payload node = Some p → pos p = Some v →
  move_selected_within m canvas_rect desired =
    set_nodes
      (<[sel := set_payload
                  (Some (mkPayload
                     (Some (mkVector2
                        (py_max (inject_Z (rect_left canvas_rect) + radius node)
                           (py_min (inject_Z (rect_right canvas_rect) - radius node)
                              (vx desired)))
                        (py_max (inject_Z (rect_top canvas_rect) + radius node)
                           (py_min (inject_Z (rect_bottom canvas_rect) - radius node)
                              (vy desired)))))
                     (radius_attr p))) node]> (nodes m)) m.
Proof.
  intros Hsel Hn Hp Hv. unfold move_selected_within, selected_node.
  by rewrite Hsel, Hn, Hp, Hv.
Qed.

(** C6, counterexample: a node of radius 10 in a bound of width 5 is moved
    to x = 10, which is above [right - radius] = -5. *)
Lemma C6_counterexample :
  ¬ moved_within_bounds one_zone (mkRect 0 0 5 100) (mkVector2 50 50).
Proof.
  intros H.
  destruct (H (mkNode 1 KEnvironment "Zone" "Zone"
                 (Some (sample_payload (vector2_of (5, 5)))) (Some 0) [])
              (sample_payload (vector2_of (5, 5))) (vector2_of (5, 5))
              eq_refl eq_refl eq_refl)
    as (node' & v' & Hn & Hv & [_ Hx] & _).
  vm_compute in Hn. injection Hn as <-. vm_compute in Hv. injection Hv as <-.
  vm_compute in Hx. by apply Hx.
Qed.

(** C6, amended: after [move_selected_within] the position of the selected
    node is, on each axis, at least [bound.min + radius]; it is at most
    [bound.max - radius] whenever that interval is not empty, and it is
    [bound.min + radius] when the interval is empty. *)
Theorem C6_move_selected_within_clamped
    (m : EditorModel) (canvas_rect : Rect) (desired : Vector2)
    (node : Node) (p : Payload) (v : Vector2) :
  selected_node m = Some node → payload node = Some p → pos p = Some v →
  ∃ node' v',
    selected_node (move_selected_within m canvas_rect desired) = Some node' ∧
    position node' = Some v' ∧ radius node' = radius node ∧
    let lo_x := (inject_Z (rect_left canvas_rect) + radius node)%Q in
    let hi_x := (inject_Z (rect_right canvas_rect) - radius node)%Q in
    let lo_y := (inject_Z (rect_top canvas_rect) + radius node)%Q in
    let hi_y := (inject_Z (rect_bottom canvas_rect) - radius node)%Q in
    (lo_x <= vx v')%Q ∧ ((lo_x <= hi_x)%Q → (vx v' <= hi_x)%Q) ∧
    ((hi_x < lo_x)%Q → vx v' = lo_x) ∧
    (lo_y <= vy v')%Q ∧ ((lo_y <= hi_y)%Q → (vy v' <= hi_y)%Q) ∧
    ((hi_y < lo_y)%Q → vy v' = lo_y).
Proof.
  intros Hsn Hp Hv. destruct (selected_node_Some _ _ Hsn) as (sel & Hsel & Hn).
  rewrite (move_selected_within_positioned _ canvas_rect desired _ _ _ _ Hsel Hn Hp Hv).
  eexists _, _. split.
  { unfold selected_node. simpl. rewrite Hsel. apply lookup_insert_eq. }
  split; [reflexivity|]. split.
  { unfold radius. simpl. by rewrite Hp. }
  simpl. repeat split.
  - apply py_max_lower.
  - intros H. apply py_max_upper; [done|apply py_min_upper].
  - apply clamp_pinned.
  - apply py_max_lower.
  - intros H. apply py_max_upper; [done|apply py_min_upper].
  - apply clamp_pinned.
Qed.

Lemma C6_move_selected_within_clamped_witness :
  ∃ node' v',
    selected_node (move_selected_within one_zone (mkRect 0 0 100 100)
                     (mkVector2 500 (-7))) = Some node' ∧
    position node' = Some v' ∧ (vx v' <= 90)%Q ∧ (10 <= vy v')%Q.
Proof.
  destruct (C6_move_selected_within_clamped one_zone (mkRect 0 0 100 100)
              (mkVector2 500 (-7))
              (mkNode 1 KEnvironment "Zone" "Zone"
                 (Some (sample_payload (vector2_of (5, 5)))) (Some 0) [])
              (sample_payload (vector2_of (5, 5))) (vector2_of (5, 5))
              eq_refl eq_refl eq_refl)
    as (node' & v' & Hn & Hv & _ & _ & Hx & _ & Hy & _).
  exists node', v'. split; [exact Hn|]. split; [exact Hv|]. split.
  - apply Hx. vm_compute. discriminate.
  - exact Hy.
Defined.

(** ** Labels *)

Lemma same_scalars_refl m : same_scalars m m.
Proof. by repeat split. Qed.

Lemma same_scalars_trans m1 m2 m3 :
  same_scalars m1 m2 → same_scalars m2 m3 → same_scalars m1 m3.
Proof.
  intros (?&?&?&?&?) (?&?&?&?&?). repeat split; congruence.
Qed.

Lemma for_each_preserves (R : EditorModel → EditorModel → Prop) f l :
  (∀ m, R m m) → (∀ m1 m2 m3, R m1 m2 → R m2 m3 → R m1 m3) →
  (∀ c m m', c ∈ l → f c m = Some m' → R m m') →
  ∀ m m', for_each f l m = Some m' → R m m'.
Proof.
  intros Hrefl Htrans. induction l as [|c l IH]; intros Hf m m' H; simpl in H.
  - injection H as <-. apply Hrefl.
  - destruct (f c m) as [m1|] eqn:E; [|done].
    apply Htrans with m1.
    + apply (Hf c); [apply elem_of_cons; by left|done].
    + apply IH; [|done]. intros c' ma mb Hc'. apply Hf. apply elem_of_cons. by right.
Qed.

Lemma _remove_subtree_same_scalars fuel :
  ∀ i m m', _remove_subtree fuel i m = Some m' → same_scalars m m'.
Proof.
  induction fuel as [|fuel IH]; intros i m m' H; simpl in H; [done|].
  destruct (nodes m !! i) as [node|]; [|injection H as <-; apply same_scalars_refl].
  destruct (for_each _ _ _) as [m2|] eqn:E; [|done].
  apply (for_each_preserves same_scalars) in E;
    [|apply same_scalars_refl|apply same_scalars_trans|intros c ma mb _; apply IH].
  injection H as <-. destruct E as (?&?&?&?&?).
  destruct (parent node) as [p|]; [destruct (nodes m2 !! p)|]; by repeat split.
Qed.

Lemma delete_selected_label_counts m m' :
  delete_selected m = Some m' → _label_counts m' = _label_counts m.
Proof.
  unfold delete_selected. intros H.
  destruct (selected_node m) as [node|]; [|by injection H as <-].
  destruct (_remove_subtree _ _ _) as [m1|] eqn:E; [|done].
  apply _remove_subtree_same_scalars in E as (_&Hl&_).
  destruct (match parent node with Some _ => _ | None => _ end).
  - by injection H as <-.
  - destruct (last _); by injection H as <-.
Qed.

Lemma select_node_label_counts m i : _label_counts (select_node m i) = _label_counts m.
Proof.
  unfold select_node. destruct i as [i|]; [|done].
  destruct (nodes m !! i); [|done]. by case_bool_decide.
Qed.

Lemma move_selected_within_label_counts m r d :
  _label_counts (move_selected_within m r d) = _label_counts m.
Proof.
  unfold move_selected_within. destruct (selected_id m); [|done].
  destruct (selected_node m) as [node|]; [|done].
  destruct (payload node) as [p|]; [|done]. by destruct (pos p).
Qed.

Lemma _attach_child_label_counts m p c :
  _label_counts (_attach_child m p c) = _label_counts m.
Proof. unfold _attach_child. by destruct (nodes m !! p). Qed.

(** A call that returns no node leaves the counters alone; a call that
    returns a node labelled it from the counter of its base name and
    incremented that counter only. *)
Lemma apply_op_labels op m m' r :
  apply_op op m = Some (m', r) →
  match r with
  | None => _label_counts m' = _label_counts m
  | Some node =>
      name node = label_for_count (base_name node) (label_count m (base_name node)) ∧
      ∀ b, label_count m' b =
             label_count m b + (if decide (base_name node = b) then 1 else 0)
  end.
Proof.
  destruct op as [k i p h|i|p|rc d|]; simpl; intros H.
  - unfold spawn_from_palette in H.
    destruct (registry m k i) as [item|]; [|by simplify_eq].
    destruct (_resolve_parent m k h) as [pid|]; [|by simplify_eq].
    simpl in H. simplify_eq. simpl. split; [done|].
    intros b. unfold label_count at 1. simpl. rewrite _attach_child_label_counts. simpl.
    case_decide as Hb.
    + subst b. by rewrite lookup_insert_eq.
    + rewrite lookup_insert_ne by done. unfold label_count. lia.
  - simplify_eq. apply select_node_label_counts.
  - simplify_eq. apply select_node_label_counts.
  - simplify_eq. apply move_selected_within_label_counts.
  - destruct (delete_selected m) as [m1|] eqn:E; [|done]. simplify_eq.
    by apply delete_selected_label_counts.
Qed.

Lemma apply_op_label_count_mono op m m' r b :
  apply_op op m = Some (m', r) → label_count m b ≤ label_count m' b.
Proof.
  intros H. apply apply_op_labels in H. destruct r as [node|].
  - destruct H as [_ H]. rewrite (H b). case_decide; lia.
  - unfold label_count. rewrite H. lia.
Qed.

Lemma run_labels base ops :
  ∀ m m' spawned, run ops m = Some (m', spawned) →
    label_count m' base
      = label_count m base + Z.of_nat (length (with_base base spawned)) ∧
    ∀ n node, with_base base spawned !! n = Some node →
      name node = label_for_count base (label_count m base + Z.of_nat n).
Proof.
  induction ops as [|op ops IH]; intros m m' spawned H; simpl in H.
  - simplify_eq. split; [simpl; lia|done].
  - destruct (apply_op op m) as [[m1 r]|] eqn:E; [|done].
    destruct (run ops m1) as [[m2 rs]|] eqn:E'; [|done].
    simplify_eq. apply IH in E' as [Hc Hn]. apply apply_op_labels in E.
    unfold with_base in *. rewrite filter_app.
    destruct r as [node|]; simpl.
    + destruct E as [Hname Hcount]. rewrite (Hcount base) in Hc, Hn.
      rewrite filter_cons, filter_nil. case_decide as Hb; simpl.
      * split; [lia|].
        intros [|n] node' Hl; simpl in Hl.
        -- injection Hl as <-. rewrite Hname, Hb. f_equal. lia.
        -- rewrite (Hn _ _ Hl). f_equal. lia.
      * split; [lia|].
        intros n node' Hl. rewrite (Hn _ _ Hl). f_equal. lia.
    + unfold label_count in *. rewrite E in Hc, Hn. done.
Qed.

Lemma label_for_count_nth base n :
  label_for_count base (Z.of_nat n) = nth_label base (S n).
Proof.
  unfold label_for_count, nth_label. destruct n as [|n].
  - done.
  - rewrite bool_decide_eq_false_2 by lia. rewrite decide_False by lia.
    do 3 f_equal. lia.
Qed.

(** ** Removal of a subtree *)

Lemma _remove_subtree_S fuel i m :
  _remove_subtree (S fuel) i m =
    match nodes m !! i with
    | None => Some m
    | Some node =>
        match for_each (_remove_subtree fuel) (children node)
                (set_nodes (delete i (nodes m)) m) with
        | None => None
        | Some m2 =>
            Some (set_order (filter (λ nid, nid ≠ i) (_order (detach i node m2)))
                    (detach i node m2))
        end
    end.
Proof. reflexivity. Qed.

Lemma detach_lookup i node m j :
  nodes (detach i node m) !! j =
    if decide (parent node = Some j)
    then (λ pn, set_children (filter (λ cid, cid ≠ i) (children pn)) pn)
           <$> nodes m !! j
    else nodes m !! j.
Proof.
  unfold detach. destruct (parent node) as [p|].
  - destruct (nodes m !! p) as [pn|] eqn:Hp.
    + simpl. case_decide as Hj.
      * injection Hj as ->. by rewrite lookup_insert_eq, Hp.
      * rewrite lookup_insert_ne; [done|congruence].
    + case_decide as Hj; [|done]. injection Hj as ->. by rewrite Hp.
  - by rewrite decide_False.
Qed.

Lemma detach_dom i node m : dom (nodes (detach i node m)) = dom (nodes m).
Proof.
  apply set_eq. intros j. rewrite !elem_of_dom, detach_lookup.
  case_decide; [|done]. by rewrite fmap_is_Some.
Qed.

Lemma detach_scalars i node m :
  same_scalars m (detach i node m) ∧ _order (detach i node m) = _order m.
Proof.
  unfold detach. destruct (parent node) as [p|]; [destruct (nodes m !! p)|];
    by repeat split.
Qed.

Lemma _remove_subtree_dom fuel :
  ∀ i m m', _remove_subtree fuel i m = Some m' →
    dom (nodes m') ⊆ dom (nodes m) ∧ i ∉ dom (nodes m').
Proof.
  induction fuel as [|fuel IH]; intros i m m' H; [done|].
  rewrite _remove_subtree_S in H.
  destruct (nodes m !! i) as [node|] eqn:Hi.
  2:{ injection H as <-. split; [done|]. by apply not_elem_of_dom. }
  destruct (for_each _ _ _) as [m2|] eqn:E; [|done].
  apply (for_each_preserves (λ a b, dom (nodes b) ⊆ dom (nodes a))) in E.
  - simpl in E. rewrite dom_delete_L in E. injection H as <-. simpl.
    rewrite detach_dom. split.
    + intros j Hj. apply E in Hj. by apply elem_of_difference in Hj as [? _].
    + intros Hj. apply E in Hj. apply elem_of_difference in Hj as [_ Hj].
      apply Hj. by apply elem_of_singleton.
  - done.
  - intros m1 m3 m4 ? ?. by etrans.
  - intros c ma mb _ Hc. by apply IH in Hc as [? _].
Qed.

Lemma for_each_total f l (N : nat) :
  (∀ c m, (size (nodes m) ≤ N)%nat → is_Some (f c m)) →
  (∀ c m m', f c m = Some m' → dom (nodes m') ⊆ dom (nodes m)) →
  ∀ m, (size (nodes m) ≤ N)%nat → is_Some (for_each f l m).
Proof.
  intros Hf Hd. induction l as [|c l IH]; intros m Hm; simpl; [by eexists|].
  destruct (Hf c m Hm) as [m1 E]. rewrite E. apply IH.
  apply Hd in E. apply subseteq_size in E. rewrite !size_dom in E. lia.
Qed.

(** One unit of fuel per node of the table, and one more, is enough. *)
Lemma _remove_subtree_total fuel :
  ∀ i m, (size (nodes m) < fuel)%nat → is_Some (_remove_subtree fuel i m).
Proof.
  induction fuel as [|fuel IH]; intros i m Hm; [lia|].
  rewrite _remove_subtree_S.
  destruct (nodes m !! i) as [node|] eqn:Hi; [|by eexists].
  assert (S (size (delete i (nodes m))) = size (nodes m)) as Hs.
  { rewrite map_size_delete_Some by (by rewrite Hi).
    assert (size (nodes m) ≠ 0%nat); [|lia].
    apply map_size_ne_0_lookup_2 with i. by rewrite Hi. }
  destruct (for_each_total (_remove_subtree fuel) (children node) (pred fuel))
    with (m := set_nodes (delete i (nodes m)) m) as [m2 E].
  - intros c ma Hma. apply IH. lia.
  - intros c ma mb Hc. by apply _remove_subtree_dom in Hc as [? _].
  - simpl. lia.
  - rewrite E. by eexists.
Qed.

Lemma delete_selected_total m : is_Some (delete_selected m).
Proof.
  unfold delete_selected. destruct (selected_node m) as [node|]; [|by eexists].
  destruct (_remove_subtree_total (delete_fuel m) (id node) m) as [m1 E].
  { unfold delete_fuel. lia. }
  rewrite E. destruct (match parent node with Some _ => _ | None => _ end);
    [by eexists|]. destruct (last _); by eexists.
Qed.

Lemma filter_ext_in {A} (P1 P2 : A → Prop)
    `{∀ x, Decision (P1 x)} `{∀ x, Decision (P2 x)} (l : list A) :
  (∀ x, x ∈ l → P1 x ↔ P2 x) → filter P1 l = filter P2 l.
Proof.
  induction l as [|a l IH]; intros Hl; [done|].
  rewrite !filter_cons.
  assert (P1 a ↔ P2 a) as Ha by (apply Hl, elem_of_cons; by left).
  rewrite IH by (intros x Hx; apply Hl, elem_of_cons; by right).
  destruct (decide (P1 a)), (decide (P2 a)); tauto.
Qed.

Lemma elem_of_removed m m' j :
  j ∈ removed m m' ↔ is_Some (nodes m !! j) ∧ nodes m' !! j = None.
Proof.
  unfold removed. by rewrite elem_of_difference, elem_of_dom, not_elem_of_dom.
Qed.

Lemma removed_trans m1 m2 m3 j :
  dom (nodes m2) ⊆ dom (nodes m1) → dom (nodes m3) ⊆ dom (nodes m2) →
  j ∈ removed m1 m3 ↔ j ∈ removed m1 m2 ∨ j ∈ removed m2 m3.
Proof.
  unfold removed. intros H12 H23. rewrite !elem_of_difference.
  destruct (decide (j ∈ dom (nodes m2))); set_solver.
Qed.

Lemma set_children_children n : set_children (children n) n = n.
Proof. by destruct n. Qed.

Lemma prunes_refl m : prunes m m.
Proof.
  assert (∀ l : list Z, filter (λ c, c ∉ removed m m) l = l) as Hf.
  { intros l. induction l as [|a l IH]; [done|].
    rewrite filter_cons_True, IH; [done|]. unfold removed. set_solver. }
  split; [apply same_scalars_refl|]. split; [done|]. split.
  - intros j n Hj _. by rewrite Hf, set_children_children.
  - by rewrite Hf.
Qed.

Lemma prunes_trans m1 m2 m3 : prunes m1 m2 → prunes m2 m3 → prunes m1 m3.
Proof.
  intros (Hs12 & Hd12 & Hc12 & Ho12) (Hs23 & Hd23 & Hc23 & Ho23).
  pose proof (λ j, removed_trans m1 m2 m3 j Hd12 Hd23) as Hr.
  split; [by apply same_scalars_trans with m2|]. split; [by etrans|].
  assert (∀ l : list Z,
    filter (λ c, c ∉ removed m2 m3) (filter (λ c, c ∉ removed m1 m2) l)
      = filter (λ c, c ∉ removed m1 m3) l) as Hf.
  { intros l. rewrite list_filter_filter. apply list_filter_iff.
    intros x. rewrite Hr. tauto. }
  split.
  - intros j n Hj Hn. rewrite Hr in Hn.
    assert (j ∉ removed m1 m2) as Hn12 by tauto.
    assert (j ∉ removed m2 m3) as Hn23 by tauto.
    rewrite (Hc23 j _ (Hc12 j n Hj Hn12) Hn23). simpl. by rewrite Hf.
  - by rewrite Ho23, Ho12, Hf.
Qed.

Lemma prunes_lookup m m' j n' :
  prunes m m' → nodes m' !! j = Some n' →
  ∃ n, nodes m !! j = Some n ∧
       n' = set_children (filter (λ c, c ∉ removed m m') (children n)) n.
Proof.
  intros (_ & Hd & Hc & _) Hj.
  assert (j ∈ dom (nodes m)) as [n Hn]%elem_of_dom.
  { apply Hd. by apply elem_of_dom. }
  exists n. split; [done|].
  assert (j ∉ removed m m') as Hr.
  { rewrite elem_of_removed, Hj. by intros [_ ?]. }
  rewrite (Hc j n Hn Hr) in Hj. by injection Hj as <-.
Qed.

Lemma prunes_substate m m' : prunes m m' → substate m' m.
Proof.
  intros Hp j n' Hj. destruct (prunes_lookup _ _ _ _ Hp Hj) as (n & Hn & ->).
  exists n. split; [done|]. simpl. intros c Hc.
  by apply list_elem_of_filter in Hc as [_ ?].
Qed.

Lemma prunes_children_linked m m' :
  prunes m m' → children_linked m → children_linked m'.
Proof.
  intros Hp Hl i n' c cn' Hi Hc Hcn.
  destruct (prunes_lookup _ _ _ _ Hp Hi) as (n & Hn & ->).
  destruct (prunes_lookup _ _ _ _ Hp Hcn) as (cn & Hcn0 & ->).
  simpl in *. apply list_elem_of_filter in Hc as [_ Hc]. by eapply Hl.
Qed.

Lemma in_subtree_root m i j : in_subtree m i j → is_Some (nodes m !! i).
Proof. by induction 1. Qed.

Lemma in_subtree_trans m a b c :
  in_subtree m a b → in_subtree m b c → in_subtree m a c.
Proof.
  intros Hab Hbc. induction Hbc as [|x n y _ IH Hx Hy Hin]; [done|].
  by eapply in_subtree_child.
Qed.

Lemma in_subtree_substate m' m a b :
  substate m' m → in_subtree m' a b → in_subtree m a b.
Proof.
  intros Hs H. induction H as [[n' Ha]|x n' y _ IH Hx Hy [yn' Hin]].
  - destruct (Hs _ _ Ha) as (n & Hn & _). by apply in_subtree_self.
  - destruct (Hs _ _ Hx) as (n & Hn & Hc). destruct (Hs _ _ Hin) as (yn & Hyn & _).
    eapply in_subtree_child; eauto.
Qed.

Lemma closed_trans m1 m2 m3 :
  prunes m1 m2 → prunes m2 m3 → closed m1 m2 → closed m2 m3 → closed m1 m3.
Proof.
  intros Hp12 Hp23 Hc12 Hc23 b n c Hb Hn Hc.
  destruct Hp12 as (Hs12 & Hd12 & Hch12 & Ho12).
  pose proof Hp23 as (Hs23 & Hd23 & _).
  apply (removed_trans m1 m2 m3 b Hd12 Hd23) in Hb as [Hb|Hb].
  - pose proof (Hc12 b n c Hb Hn Hc). set_solver.
  - destruct (decide (c ∈ removed m1 m2)) as [Hr|Hr].
    + apply elem_of_removed in Hr as [_ Hr]. apply not_elem_of_dom in Hr. set_solver.
    + assert (b ∉ removed m1 m2) as Hb12.
      { apply elem_of_removed in Hb as [Hb _]. rewrite elem_of_removed.
        intros [_ Hx]. rewrite Hx in Hb. by destruct Hb. }
      eapply (Hc23 b _ c Hb (Hch12 b n Hn Hb12)). simpl.
      by apply list_elem_of_filter.
Qed.

Lemma removal_refl l m : removal l m m.
Proof.
  intros _. split; [apply prunes_refl|]. split.
  - intros b n c Hb. unfold removed in Hb. set_solver.
  - intros j Hj. unfold removed in Hj. set_solver.
Qed.

Lemma removal_trans l m1 m2 m3 : removal l m1 m2 → removal l m2 m3 → removal l m1 m3.
Proof.
  intros H12 H23 Hl. destruct (H12 Hl) as (Hp12 & Hc12 & Hs12).
  destruct (H23 (prunes_children_linked _ _ Hp12 Hl)) as (Hp23 & Hc23 & Hs23).
  split; [by apply prunes_trans with m2|]. split; [by apply closed_trans with m2|].
  intros j Hj. destruct Hp12 as (_ & Hd12 & _). pose proof Hp23 as (_ & Hd23 & _).
  apply (removed_trans m1 m2 m3 j Hd12 Hd23) in Hj as [Hj|Hj]; [by apply Hs12|].
  destruct (Hs23 j Hj) as (c & Hc & Hsub). exists c. split; [done|].
  eapply in_subtree_substate; [|done]. apply prunes_substate.
  by destruct (H12 Hl) as (? & _).
Qed.

Lemma for_each_removes f l :
  (∀ c m m', f c m = Some m' →
     dom (nodes m') ⊆ dom (nodes m) ∧ c ∉ dom (nodes m')) →
  ∀ m m', for_each f l m = Some m' →
    dom (nodes m') ⊆ dom (nodes m) ∧ ∀ c, c ∈ l → c ∉ dom (nodes m').
Proof.
  intros Hf. induction l as [|a l IH]; intros m m' H; simpl in H.
  - injection H as <-. split; [done|]. intros c Hc. by apply elem_of_nil in Hc.
  - destruct (f a m) as [m1|] eqn:E; [|done].
    destruct (Hf _ _ _ E) as [Hd Ha]. destruct (IH _ _ H) as [Hd' Hl].
    split; [by etrans|].
    intros c [->|Hc]%elem_of_cons; [|by apply Hl]. set_solver.
Qed.

Lemma children_linked_delete i m :
  children_linked m → children_linked (set_nodes (delete i (nodes m)) m).
Proof.
  intros Hl j n c cn Hj Hc Hcn. simpl in *.
  apply lookup_delete_Some in Hj as [_ Hj]. apply lookup_delete_Some in Hcn as [_ Hcn].
  by eapply Hl.
Qed.

Lemma substate_delete i m : substate (set_nodes (delete i (nodes m)) m) m.
Proof.
  intros j n Hj. simpl in Hj. apply lookup_delete_Some in Hj as [_ Hj]. eauto.
Qed.

Lemma removal_weaken l l' m m' :
  (∀ c, c ∈ l → c ∈ l') → removal l m m' → removal l' m m'.
Proof.
  intros Hll H Hl. destruct (H Hl) as (Hp & Hc & Hs). split; [done|]. split; [done|].
  intros j Hj. destruct (Hs j Hj) as (c & Hc' & Hsub). eauto.
Qed.

(** The effect of [_remove_subtree] on a model whose children are linked:
    the removed ids are in the subtree of [i], they are gone from the
    table, the creation order and the children of the nodes that stay, and
    the children of a removed node are removed too. *)
Lemma _remove_subtree_removal fuel :
  ∀ i m m', _remove_subtree fuel i m = Some m' → removal [i] m m'.
Proof.
  induction fuel as [|fuel IH]; intros i m m' H; [done|].
  rewrite _remove_subtree_S in H.
  destruct (nodes m !! i) as [node|] eqn:Hi; [|injection H as <-; apply removal_refl].
  set (m1 := set_nodes (delete i (nodes m)) m) in *.
  destruct (for_each _ _ m1) as [m2|] eqn:E; [|done].
  injection H as <-. intros Hl.
  assert (removal (children node) m1 m2) as Hrem.
  { eapply for_each_preserves; [apply removal_refl|apply removal_trans| |exact E].
    intros c ma mb Hc Hrs. eapply removal_weaken; [|by apply IH in Hrs].
    by intros c' ->%list_elem_of_singleton. }
  destruct (Hrem (children_linked_delete _ _ Hl)) as (Hp & Hcl & Hsub).
  destruct (for_each_removes _ _
              (λ c ma mb, _remove_subtree_dom fuel c ma mb) _ _ E) as [Hd12 Hgone].
  set (m' := set_order _ _).
  assert (dom (nodes m') = dom (nodes m2)) as Hdom' by apply detach_dom.
  assert (dom (nodes m1) = dom (nodes m) ∖ {[i]}) as Hdom1 by apply dom_delete_L.
  assert (i ∈ dom (nodes m)) as Hidom by (by apply elem_of_dom_2 in Hi).
  assert (∀ j, j ∈ removed m m' ↔ j = i ∨ j ∈ removed m1 m2) as Hrm.
  { intros j. unfold removed. rewrite Hdom', Hdom1. rewrite Hdom1 in Hd12.
    destruct (decide (j = i)) as [->|]; set_solver. }
  destruct Hp as (Hs12 & _ & Hch12 & Ho12).
  assert (∀ l : list Z,
    filter (λ c, c ≠ i) (filter (λ c, c ∉ removed m1 m2) l)
      = filter (λ c, c ∉ removed m m') l) as Hff.
  { intros l. rewrite list_filter_filter. apply list_filter_iff.
    intros x. rewrite Hrm. tauto. }
  split; [split; [|split; [|split]]|split].
  - destruct Hs12 as (?&?&?&?&?).
    destruct (detach_scalars i node m2) as [(?&?&?&?&?) _].
    repeat split; simpl in *; congruence.
  - rewrite Hdom'. rewrite Hdom1 in Hd12. set_solver.
  - intros j n Hj Hnr. rewrite Hrm in Hnr.
    assert (j ≠ i) as Hji by tauto. assert (j ∉ removed m1 m2) as Hj12 by tauto.
    assert (nodes m1 !! j = Some n) as Hj1 by (simpl; by rewrite lookup_delete_ne).
    pose proof (Hch12 j n Hj1 Hj12) as Hj2.
    replace (nodes m') with (nodes (detach i node m2)) by done.
    rewrite detach_lookup, Hj2. simpl. case_decide as Hpar.
    + by rewrite Hff.
    + do 2 f_equal. apply filter_ext_in. intros x Hx. rewrite Hrm.
      assert (x ≠ i); [|tauto]. intros ->. apply Hpar. by eapply Hl.
  - replace (_order m') with (filter (λ c, c ≠ i) (_order (detach i node m2)))
      by done.
    destruct (detach_scalars i node m2) as [_ ->]. by rewrite Ho12, Hff.
  - intros b n c Hb Hn Hc. rewrite Hdom'. apply Hrm in Hb as [->|Hb].
    + rewrite Hi in Hn. injection Hn as <-. by apply Hgone.
    + apply (Hcl b n c Hb); [|done].
      apply elem_of_removed in Hb as [[n1 Hb] _]. simpl in Hb.
      apply lookup_delete_Some in Hb as [Hne _]. simpl. by rewrite lookup_delete_ne.
  - intros j Hj. exists i. split; [by apply list_elem_of_singleton|].
    apply Hrm in Hj as [->|Hj]; [by apply in_subtree_self|].
    destruct (Hsub j Hj) as (c & Hc & Hcj).
    apply (in_subtree_substate _ m) in Hcj; [|apply substate_delete].
    apply in_subtree_trans with c; [|done].
    eapply in_subtree_child; [by apply in_subtree_self|done|done|].
    by eapply in_subtree_root.
Qed.

(** Under the same assumption the removed ids are exactly the subtree. *)
Lemma removal_subtree i m m' :
  removal [i] m m' → children_linked m →
  (is_Some (nodes m !! i) → nodes m' !! i = None) →
  ∀ j, j ∈ removed m m' ↔ in_subtree m i j.
Proof.
  intros H Hl Hi j. destruct (H Hl) as (Hp & Hc & Hs). split.
  - intros Hj. destruct (Hs j Hj) as (c & Hc'%list_elem_of_singleton & ?).
    by subst c.
  - induction 1 as [Hin|b n c _ IH Hb Hcb Hcin].
    + apply elem_of_removed. auto.
    + apply elem_of_removed. split; [done|].
      apply not_elem_of_dom. by eapply Hc.
Qed.

(** ** The invariant holds in every reachable model *)

Lemma Inv_init reg : Inv (init reg).
Proof.
  split; simpl.
  - done.
  - exists root_node. by rewrite lookup_insert_eq.
  - intros i n [[<- <-] | [_ H]]%lookup_insert_Some; [done|].
    by rewrite lookup_empty in H.
  - done.
  - intros i n c [[<- <-] | [_ H]]%lookup_insert_Some.
    + intros Hc. by apply elem_of_nil in Hc.
    + by rewrite lookup_empty in H.
  - intros i. split.
    + intros Hi. by apply elem_of_nil in Hi.
    + intros [[n [[<- <-] | [_ H]]%lookup_insert_Some] Hne]; [done|].
      by rewrite lookup_empty in H.
  - intros i n [[<- <-] | [_ H]]%lookup_insert_Some; [done|].
    by rewrite lookup_empty in H.
Qed.

Lemma Inv_set_selected m s :
  Inv m →
  (∀ x, s = Some x → is_Some (nodes m !! x) ∧ x ≠ root_id m) →
  Inv (set_selected_id s m).
Proof. intros [] Hs. by split. Qed.

Lemma Inv_select_node m i : Inv m → Inv (select_node m i).
Proof.
  intros HI. unfold select_node.
  destruct i as [i|]; [|by apply Inv_set_selected].
  destruct (nodes m !! i) as [n|] eqn:Hi; [|by apply Inv_set_selected].
  case_bool_decide; apply Inv_set_selected; try done.
  intros x [= <-]. by rewrite Hi.
Qed.

Lemma Inv_move_selected_within m r d : Inv m → Inv (move_selected_within m r d).
Proof.
  intros HI. unfold move_selected_within.
  destruct (selected_id m) as [sel|] eqn:Hsel; [|done].
  unfold selected_node. rewrite Hsel.
  destruct (nodes m !! sel) as [node|] eqn:Hn; [|done].
  destruct (payload node) as [p|] eqn:Hp; [|done].
  destruct (pos p) as [v|]; [|done].
  set (node' := set_payload _ node).
  destruct HI as [Hrid Hroot Hids Hsl Hch Hord Hpay].
  destruct (Hsl _ Hsel) as [_ Hsel0]. rewrite Hrid in Hsel0.
  assert (∀ j x', <[sel:=node']> (nodes m) !! j = Some x' →
            ∃ x, nodes m !! j = Some x ∧ id x' = id x ∧ kind x' = kind x ∧
                 parent x' = parent x ∧ children x' = children x ∧
                 (is_Some (payload x) → is_Some (payload x'))) as Hold.
  { intros j x' [[<- <-] | [_ H]]%lookup_insert_Some.
    - exists node. repeat split; try done; simpl; by eexists.
    - exists x'. by repeat split. }
  assert (∀ j, is_Some (<[sel:=node']> (nodes m) !! j) ↔ is_Some (nodes m !! j))
    as Hdom.
  { intros j. rewrite lookup_insert_is_Some'. split; [|auto].
    intros [<-|?]; [by rewrite Hn|done]. }
  split; simpl.
  - done.
  - destruct Hroot as (rn & Hr & ?). exists rn. by rewrite lookup_insert_ne.
  - intros j x' (x & Hx & -> & _)%Hold. by apply Hids.
  - intros s Hs. rewrite Hdom. by apply Hsl.
  - intros j x' c (x & Hx & _ & _ & _ & -> & _)%Hold Hc.
    destruct (Hch j x c Hx Hc) as (cn & Hcn & Hpar).
    destruct (decide (c = sel)) as [->|Hne].
    + rewrite lookup_insert_eq. exists node'. split; [done|]. simpl. congruence.
    + rewrite lookup_insert_ne by done. eauto.
  - intros j. rewrite Hdom. apply Hord.
  - intros j x' (x & Hx & _ & _ & _ & _ & Hp')%Hold Hj. apply Hp'. by eapply Hpay.
Qed.

Lemma _resolve_parent_Some m k hint p :
  _resolve_parent m k hint = Some p → eligible m k p.
Proof.
  intros H. pose proof (first_allowed_first_eligible m k (candidates m hint)) as Hf.
  fold (_resolve_parent m k hint) in Hf. rewrite H in Hf.
  by destruct Hf as (_ & _ & _ & ? & _).
Qed.

Lemma Inv_spawn_from_palette m k idx position hint :
  Inv m → Inv (spawn_from_palette m k idx position hint).1.
Proof.
  intros HI. unfold spawn_from_palette.
  destruct (registry m k idx) as [item|]; [|done].
  destruct (_resolve_parent m k hint) as [pid|] eqn:Hres; [|done].
  apply _resolve_parent_Some in Hres as (pn & Hpn & _).
  destruct HI as [Hrid Hroot Hids Hsl Hch Hord Hpay].
  simpl. set (nid := _next_id m). set (node := mkNode nid _ _ _ _ _ _).
  assert (nodes m !! nid = None) as Hfresh.
  { destruct (nodes m !! nid) as [x|] eqn:Hx; [|done].
    apply Hids in Hx as [_ Hx]. unfold nid in Hx. lia. }
  assert (pid ≠ nid) as Hpn_ne by congruence.
  assert (nid ≠ 0) as Hnid0.
  { destruct Hroot as (rn & Hr & _). congruence. }
  unfold _attach_child. simpl. rewrite lookup_insert_ne, Hpn by done. simpl.
  set (pn' := set_children _ pn).
  set (ns' := <[pid:=pn']> (<[nid:=node]> (nodes m))).
  assert (∀ j x, nodes m !! j = Some x →
            ∃ x', ns' !! j = Some x' ∧ id x' = id x ∧ kind x' = kind x ∧
                  parent x' = parent x ∧ payload x' = payload x) as Hkeep.
  { intros j x Hx. unfold ns'. destruct (decide (j = pid)) as [->|Hne].
    - rewrite lookup_insert_eq. exists pn'. rewrite Hpn in Hx. by injection Hx as <-.
    - rewrite lookup_insert_ne by done.
      rewrite lookup_insert_ne by congruence. by exists x. }
  assert (∀ j x', ns' !! j = Some x' →
            (j = nid ∧ x' = node) ∨
            (j = pid ∧ x' = pn') ∨
            (j ≠ nid ∧ j ≠ pid ∧ nodes m !! j = Some x')) as Hcases.
  { intros j x'. unfold ns'.
    intros [[<- <-] | [? [[<- <-] | [? H]]%lookup_insert_Some]]%lookup_insert_Some;
      auto. }
  assert (ns' !! nid = Some node) as Hnew.
  { unfold ns'. rewrite lookup_insert_ne by done. apply lookup_insert_eq. }
  assert (∀ j, is_Some (ns' !! j) ↔ j = nid ∨ is_Some (nodes m !! j)) as Hdom.
  { intros j. split.
    - intros [x' Hx']. destruct (Hcases _ _ Hx') as [[-> _]|[[-> _]|(_&_&?)]]; eauto.
    - intros [->|[x Hx]]; [by eexists|].
      destruct (Hkeep _ _ Hx) as (x' & Hx' & _). by eexists. }
  split; simpl.
  - done.
  - destruct Hroot as (rn & Hr & Hk & Hp & Hpl).
    destruct (Hkeep _ _ Hr) as (rn' & Hr' & _ & Hk' & Hp' & Hpl').
    exists rn'. repeat split; congruence.
  - intros j x' Hx'. destruct (Hcases _ _ Hx') as [[-> ->]|[[-> ->]|(_&_&Hx)]].
    + simpl. split; [done|]. unfold nid. lia.
    + simpl. destruct (Hids _ _ Hpn) as [-> ?]. split; [done|]. lia.
    + destruct (Hids _ _ Hx) as [-> ?]. split; [done|]. lia.
  - intros s [= <-]. rewrite Hrid. split; [by eexists|done].
  - intros j x' c Hx' Hc.
    assert (∀ x, nodes m !! j = Some x → c ∈ children x →
              ∃ cn, ns' !! c = Some cn ∧ parent cn = Some j) as Hold.
    { intros x Hx Hcx. destruct (Hch _ _ _ Hx Hcx) as (cn & Hcn & Hpar).
      destruct (Hkeep _ _ Hcn) as (cn' & Hcn' & _ & _ & Hpar' & _).
      exists cn'. split; [done|congruence]. }
    destruct (Hcases _ _ Hx') as [[-> ->]|[[-> ->]|(_&_&Hx)]].
    + by apply elem_of_nil in Hc.
    + simpl in Hc. apply elem_of_app in Hc as [Hc|Hc%list_elem_of_singleton].
      * by apply (Hold pn).
      * subst c. by exists node.
    + by apply (Hold x').
  - intros j. rewrite elem_of_app, list_elem_of_singleton, Hdom, Hord.
    split; [|tauto]. intros [?| ->]; [tauto|]. auto.
  - intros j x' Hx' Hj. destruct (Hcases _ _ Hx') as [[-> ->]|[[-> ->]|(_&_&Hx)]].
    + by eexists.
    + simpl. by eapply Hpay.
    + by eapply Hpay.
Qed.

Lemma Inv_select_at_position m p : Inv m → Inv (select_at_position m p).1.
Proof. intros HI. by apply Inv_select_node. Qed.

Lemma Inv_children_linked m : Inv m → children_linked m.
Proof.
  intros HI i n c cn Hi Hc Hcn.
  destruct (inv_children m HI i n c Hi Hc) as (cn' & Hcn' & Hp). congruence.
Qed.

Lemma root_not_in_subtree m i : Inv m → i ≠ 0 → ¬ in_subtree m i 0.
Proof.
  intros HI Hi H. remember 0 as z eqn:Hz.
  destruct H as [|b n c _ Hb Hc _]; [done|]. subst c.
  destruct (inv_children m HI b n 0 Hb Hc) as (cn & Hcn & Hp).
  destruct (inv_root m HI) as (r & Hr & _ & Hpr & _). congruence.
Qed.

Lemma prunes_is_Some m m' j :
  prunes m m' → is_Some (nodes m' !! j) ↔ is_Some (nodes m !! j) ∧ j ∉ removed m m'.
Proof.
  intros Hp. split.
  - intros [n' Hn']. destruct (prunes_lookup _ _ _ _ Hp Hn') as (n & Hn & _).
    split; [by eexists|]. rewrite elem_of_removed, Hn'. by intros [_ ?].
  - intros [[n Hn] Hj]. destruct Hp as (_ & _ & Hc & _).
    rewrite (Hc j n Hn Hj). by eexists.
Qed.

Lemma Inv_prunes m m1 s :
  Inv m → prunes m m1 → 0 ∉ removed m m1 →
  (∀ x, s = Some x → is_Some (nodes m1 !! x) ∧ x ≠ 0) →
  Inv (set_selected_id s m1).
Proof.
  intros [Hrid Hroot Hids Hsl Hch Hord Hpay] Hp H0 Hs.
  pose proof Hp as ((_ & _ & Hnext & Hroot_id & _) & Hd & Hfw & Ho).
  split; simpl.
  - congruence.
  - destruct Hroot as (r & Hr & Hk & Hpr & Hpl).
    exists (set_children (filter (λ c, c ∉ removed m m1) (children r)) r).
    split; [by apply Hfw|done].
  - intros i n' Hn'. destruct (prunes_lookup _ _ _ _ Hp Hn') as (n & Hn & ->).
    simpl. rewrite Hnext. by apply Hids.
  - intros x Hx. rewrite Hroot_id, Hrid. by apply Hs.
  - intros i n' c Hn' Hc. destruct (prunes_lookup _ _ _ _ Hp Hn') as (n & Hn & ->).
    simpl in Hc. apply list_elem_of_filter in Hc as [Hcr Hc].
    destruct (Hch i n c Hn Hc) as (cn & Hcn & Hpar).
    eexists. split; [by apply Hfw|done].
  - intros i. rewrite Ho, list_elem_of_filter, Hord, (prunes_is_Some m m1 i Hp). tauto.
  - intros i n' Hn' Hi. destruct (prunes_lookup _ _ _ _ Hp Hn') as (n & Hn & ->).
    simpl. by eapply Hpay.
Qed.

Lemma delete_selected_unfold m node m1 :
  selected_node m = Some node →
  _remove_subtree (delete_fuel m) (id node) m = Some m1 →
  delete_selected m
    = Some (set_selected_id (selection_after_delete (parent node) m1) m1).
Proof.
  intros Hn Hr. unfold delete_selected, selection_after_delete. rewrite Hn, Hr.
  destruct (match parent node with Some _ => _ | None => _ end); [done|].
  by destruct (last (_order m1)).
Qed.

(** What the removal step of [delete_selected] does in a model that
    satisfies the invariant. *)
Lemma selected_subtree_removal m node :
  Inv m → selected_node m = Some node →
  ∃ m1, _remove_subtree (delete_fuel m) (id node) m = Some m1 ∧
        prunes m m1 ∧
        (∀ j, j ∈ removed m m1 ↔ in_subtree m (id node) j) ∧
        0 ∉ removed m m1.
Proof.
  intros HI Hn. destruct (selected_node_Some _ _ Hn) as (sel & Hsel & Hlk).
  destruct (inv_ids m HI sel node Hlk) as [Hid _].
  destruct (inv_selected m HI sel Hsel) as [_ Hsel0].
  rewrite (inv_root_id m HI) in Hsel0.
  destruct (_remove_subtree_total (delete_fuel m) (id node) m) as [m1 Hr].
  { unfold delete_fuel. lia. }
  exists m1. split; [done|].
  pose proof (_remove_subtree_removal _ _ _ _ Hr) as Hrem.
  pose proof (Inv_children_linked m HI) as Hl.
  assert (∀ j, j ∈ removed m m1 ↔ in_subtree m (id node) j) as Hsub.
  { apply removal_subtree; [done|done|]. intros _.
    apply _remove_subtree_dom in Hr as [_ Hr]. by apply not_elem_of_dom. }
  split; [by destruct (Hrem Hl)|]. split; [done|].
  rewrite Hsub, Hid. by apply root_not_in_subtree.
Qed.

Lemma selection_after_delete_valid m m1 parent_id x :
  Inv m → prunes m m1 →
  selection_after_delete parent_id m1 = Some x →
  is_Some (nodes m1 !! x) ∧ x ≠ 0.
Proof.
  intros HI Hp. unfold selection_after_delete.
  pose proof Hp as ((_ & _ & _ & Hroot_id & _) & _ & _ & Ho).
  destruct parent_id as [p|].
  - case_bool_decide as Hb.
    + intros [= <-]. destruct Hb as [? Hb]. split; [done|].
      by rewrite Hroot_id, (inv_root_id m HI) in Hb.
    + intros Hl%last_Some_elem_of. rewrite Ho in Hl.
      apply list_elem_of_filter in Hl as [Hr Hl].
      apply (inv_order m HI) in Hl as [? ?]. split; [|done].
      by apply (prunes_is_Some m m1 x Hp).
  - intros Hl%last_Some_elem_of. rewrite Ho in Hl.
    apply list_elem_of_filter in Hl as [Hr Hl].
    apply (inv_order m HI) in Hl as [? ?]. split; [|done].
    by apply (prunes_is_Some m m1 x Hp).
Qed.

Lemma Inv_delete_selected m m' : Inv m → delete_selected m = Some m' → Inv m'.
Proof.
  intros HI H. destruct (selected_node m) as [node|] eqn:Hn.
  - destruct (selected_subtree_removal m node HI Hn) as (m1 & Hr & Hp & _ & H0).
    rewrite (delete_selected_unfold m node m1 Hn Hr) in H. injection H as <-.
    apply Inv_prunes with m; try done.
    intros x Hx. by apply (selection_after_delete_valid m m1 (parent node)).
  - unfold delete_selected in H. rewrite Hn in H. by injection H as <-.
Qed.

Lemma Inv_apply_op op m m' r : Inv m → apply_op op m = Some (m', r) → Inv m'.
Proof.
  intros HI. destruct op as [k i p h|i|p|rc d|]; simpl; intros H.
  - destruct (spawn_from_palette m k i p h) as [m1 r1] eqn:E. simplify_eq.
    replace m' with (spawn_from_palette m k i p h).1 by (by rewrite E).
    by apply Inv_spawn_from_palette.
  - simplify_eq. by apply Inv_select_node.
  - simplify_eq. by apply Inv_select_at_position.
  - simplify_eq. by apply Inv_move_selected_within.
  - destruct (delete_selected m) as [m1|] eqn:E; [|done]. simplify_eq.
    by apply Inv_delete_selected with m.
Qed.

Lemma Inv_run ops : ∀ m m' spawned, Inv m → run ops m = Some (m', spawned) → Inv m'.
Proof.
  induction ops as [|op ops IH]; intros m m' spawned HI H; simpl in H.
  - by simplify_eq.
  - destruct (apply_op op m) as [[m1 r]|] eqn:E; [|done].
    destruct (run ops m1) as [[m2 rs]|] eqn:E'; [|done]. simplify_eq.
    eapply IH; [|done]. by eapply Inv_apply_op.
Qed.

Lemma reachable_Inv m : reachable m → Inv m.
Proof.
  intros (reg & ops & spawned & H). eapply Inv_run; [apply Inv_init|done].
Qed.

Lemma apply_op_total op m : is_Some (apply_op op m).
Proof.
  destruct op; simpl; try by eexists.
  destruct (delete_selected_total m) as [m' ->]. by eexists.
Qed.

Lemma run_total ops : ∀ m, is_Some (run ops m).
Proof.
  induction ops as [|op ops IH]; intros m; simpl; [by eexists|].
  destruct (apply_op_total op m) as [[m1 r] ->].
  destruct (IH m1) as [[m2 rs] ->]. by eexists.
Qed.

(** C2: every sequence of calls from initialization runs to the end, and
    along it the first node spawned with a base name is labelled with the
    bare name and the [n]-th ([n >= 2]) with the name followed by [" #n"];
    the counter of a base name is the number of nodes spawned with it so
    far, whatever was deleted, and no call decrements it. *)
Theorem C2_labels_numbered
    (reg : PaletteRegistry) (ops : list Op) (base : string) :
  ∃ m spawned,
    run ops (init reg) = Some (m, spawned) ∧
    (∀ n node, with_base base spawned !! n = Some node →
       name node = nth_label base (S n)) ∧
    label_count m base = Z.of_nat (length (with_base base spawned)) ∧
    (∀ op m' r, apply_op op m = Some (m', r) →
       label_count m base ≤ label_count m' base ∧
       (op = ODelete → _label_counts m' = _label_counts m)).
Proof.
  destruct (run_total ops (init reg)) as [[m spawned] H].
  exists m, spawned. split; [done|].
  apply (run_labels base) in H as [Hc Hn]. split; [|split].
  - intros n node Hl. rewrite (Hn _ _ Hl). apply label_for_count_nth.
  - rewrite Hc. done.
  - intros op m' r Hop. split.
    + by apply apply_op_label_count_mono with op r.
    + intros ->. simpl in Hop. destruct (delete_selected m) eqn:E; [|done].
      simplify_eq. by apply delete_selected_label_counts.
Qed.

Lemma C2_labels_numbered_witness :
  ∃ m spawned,
    run rocks_ops (init sample_registry) = Some (m, spawned) ∧
    ∀ n node, with_base "Rock" spawned !! n = Some node →
      name node = nth_label "Rock" (S n).
Proof.
  destruct (C2_labels_numbered sample_registry rocks_ops "Rock")
    as (m & spawned & Hrun & Hl & _).
  exists m, spawned. split; [exact Hrun|exact Hl].
Defined.

Lemma reachable_step op m m' r :
  reachable m → apply_op op m = Some (m', r) → reachable m'.
Proof.
  intros (reg & ops & spawned & H) Hop. exists reg, (ops ++ [op]).
  revert H. generalize (init reg). clear reg.
  induction ops as [|o ops IH] in spawned |- *; intros m0 H; simpl in *.
  - simplify_eq. rewrite Hop. eauto.
  - destruct (apply_op o m0) as [[m1 r1]|]; [|done].
    destruct (run ops m1) as [[m2 rs]|] eqn:E; [|done]. simplify_eq.
    destruct (IH rs m1 E) as (sp & ->). eauto.
Qed.

Lemma reachable_init reg : reachable (init reg).
Proof. by exists reg, [], []. Qed.

Lemma reachable_spawn m k i p h :
  reachable m → reachable (spawn_from_palette m k i p h).1.
Proof.
  intros H. apply (reachable_step (OSpawn k i p h) m _ (spawn_from_palette m k i p h).2 H).
  simpl. by destruct (spawn_from_palette m k i p h).
Qed.

Lemma reachable_one_zone : reachable one_zone.
Proof. apply reachable_spawn, reachable_init. Qed.

(** ** Selection and children in reachable models *)

(** C9: in every reachable model the selection is absent or is the id of a
    node of the table other than the root. *)
Theorem C9_selection_valid (m : EditorModel) :
  reachable m →
  match selected_id m with
  | None => True
  | Some s => is_Some (nodes m !! s) ∧ s ≠ root_id m
  end.
Proof.
  intros HI%reachable_Inv. destruct (selected_id m) as [s|] eqn:Hs; [|done].
  by apply (inv_selected m HI).
Qed.

Lemma C9_selection_valid_witness :
  match selected_id one_zone with
  | None => True
  | Some s => is_Some (nodes one_zone !! s) ∧ s ≠ root_id one_zone
  end.
Proof. apply (C9_selection_valid one_zone). apply reachable_one_zone. Defined.

(** C10: in every reachable model every id in a children list is the id of
    a node of the table whose parent is the node that lists it. *)
Theorem C10_children_consistent (m : EditorModel) (i : Z) (n : Node) (c : Z) :
  reachable m → nodes m !! i = Some n → c ∈ children n →
  ∃ cn, nodes m !! c = Some cn ∧ parent cn = Some i.
Proof. intros HI%reachable_Inv. by apply (inv_children m HI). Qed.

Lemma C10_children_consistent_witness :
  ∃ cn, nodes one_zone !! 1 = Some cn ∧ parent cn = Some 0.
Proof.
  apply (C10_children_consistent one_zone 0
           (mkNode 0 KRoot "Scene Root" "Scene" None None [1]) 1).
  - apply reachable_one_zone.
  - reflexivity.
  - apply list_elem_of_singleton. reflexivity.
Defined.

(** C8: in a reachable model without drawable nodes [select_at_position]
    returns no id and leaves the selection as it was. *)
Theorem C8_select_at_position_nothing_drawable (m : EditorModel) (mouse_pos : Z * Z) :
  reachable m → iter_drawable_nodes m = [] →
  (select_at_position m mouse_pos).2 = None ∧
  selected_id (select_at_position m mouse_pos).1 = selected_id m.
Proof.
  intros HI%reachable_Inv Hd. unfold select_at_position. rewrite Hd. simpl.
  split; [done|]. destruct (selected_id m) as [s|] eqn:Hs; [|done]. exfalso.
  destruct (inv_selected m HI s Hs) as [[n Hn] Hs0].
  rewrite (inv_root_id m HI) in Hs0.
  destruct (inv_payload m HI s n Hn Hs0) as [p Hp].
  assert (n ∈ iter_drawable_nodes m) as Hin.
  { unfold iter_drawable_nodes. apply list_elem_of_omap. exists s. split.
    - apply (inv_order m HI). split; [by eexists|done].
    - by rewrite Hn, Hp. }
  rewrite Hd in Hin. by apply elem_of_nil in Hin.
Qed.

Lemma C8_select_at_position_nothing_drawable_witness :
  (select_at_position (init sample_registry) (3, 4)).2 = None ∧
  selected_id (select_at_position (init sample_registry) (3, 4)).1
    = selected_id (init sample_registry).
Proof.
  apply (C8_select_at_position_nothing_drawable (init sample_registry) (3, 4)).
  - apply reachable_init.
  - reflexivity.
Defined.

(** ** Deletion *)

Lemma last_filter_split {A} (P : A → Prop) `{∀ x, Decision (P x)} (l : list A) x :
  last (filter P l) = Some x →
  ∃ before after, l = before ++ x :: after ∧ P x ∧ ∀ y, y ∈ after → ¬ P y.
Proof.
  induction l as [|a l IH] using rev_ind; [done|].
  rewrite filter_app, filter_cons, filter_nil. destruct (decide (P a)) as [Ha|Ha].
  - rewrite last_snoc. intros [= ->]. exists l, []. split; [done|]. split; [done|].
    intros y Hy. by apply elem_of_nil in Hy.
  - rewrite app_nil_r. intros (before & after & -> & Hx & Hafter)%IH.
    exists before, (after ++ [a]). split; [by rewrite <- app_assoc|]. split; [done|].
    intros y [Hy|Hy%list_elem_of_singleton]%elem_of_app; [by apply Hafter|by subst].
Qed.

(** C3: in a reachable model with a selected node, [delete_selected] returns
    and removes every id of the subtree of that node from the table, from
    the creation order and from the children of the nodes that stay; the
    nodes outside the subtree stay; the table shrinks by the number of
    nodes of the subtree. *)
Theorem C3_delete_removes_subtree (m : EditorModel) (node : Node) :
  reachable m → selected_node m = Some node →
  ∃ m', delete_selected m = Some m' ∧
    (∀ j, in_subtree m (id node) j →
       nodes m' !! j = None ∧ (j ∉ _order m') ∧
       ∀ k n, nodes m' !! k = Some n → j ∉ children n) ∧
    (∀ j n, nodes m !! j = Some n → ¬ in_subtree m (id node) j →
       (∃ n', nodes m' !! j = Some n' ∧ id n' = id n ∧ kind n' = kind n ∧
              name n' = name n ∧ base_name n' = base_name n ∧
              payload n' = payload n ∧ parent n' = parent n) ∧
       (j ∈ _order m → j ∈ _order m')) ∧
    (∀ S : gset Z, (∀ j, j ∈ S ↔ in_subtree m (id node) j) →
       size (nodes m) = (size (nodes m') + size S)%nat).
Proof.
  intros HI%reachable_Inv Hn.
  destruct (selected_subtree_removal m node HI Hn) as (m1 & Hr & Hp & Hsub & _).
  rewrite (delete_selected_unfold m node m1 Hn Hr). eexists. split; [done|]. simpl.
  pose proof Hp as (_ & Hd & Hfw & Ho).
  split; [|split].
  - intros j Hj%Hsub. split; [by apply elem_of_removed in Hj as [_ ?]|]. split.
    + rewrite Ho. intros [? _]%list_elem_of_filter. done.
    + intros k n' Hk. destruct (prunes_lookup _ _ _ _ Hp Hk) as (n & _ & ->).
      simpl. intros [? _]%list_elem_of_filter. done.
  - intros j n Hj Hns. rewrite <- Hsub in Hns. split.
    + eexists. split; [by apply Hfw|done].
    + intros Hjo. rewrite Ho. by apply list_elem_of_filter.
  - intros S HS. assert (S = removed m m1) as ->.
    { apply set_eq. intros j. by rewrite HS, Hsub. }
    unfold removed. rewrite size_difference by done.
    apply subseteq_size in Hd. rewrite !size_dom in *. lia.
Qed.

(** C4: in a reachable model, after [delete_selected] removed the subtree
    of the selected node, the parent of that node is selected if it is
    still in the table and is not the root; otherwise the node that stays
    and comes last in the creation order is selected if a node other than
    the root stays, and the selection is cleared if none does. *)
Theorem C4_selection_after_delete (m : EditorModel) (node : Node) :
  reachable m → selected_node m = Some node →
  ∃ m', delete_selected m = Some m' ∧
    (∀ p, parent node = Some p → is_Some (nodes m' !! p) → p ≠ root_id m →
       selected_id m' = Some p) ∧
    (¬ (∃ p, parent node = Some p ∧ is_Some (nodes m' !! p) ∧ p ≠ root_id m) →
       ((∃ j, is_Some (nodes m' !! j) ∧ j ≠ root_id m) →
          ∃ l before after,
            selected_id m' = Some l ∧ last (_order m') = Some l ∧
            _order m = before ++ l :: after ∧ is_Some (nodes m' !! l) ∧
            ∀ x, x ∈ after → nodes m' !! x = None) ∧
       ((∀ j, is_Some (nodes m' !! j) → j = root_id m) → selected_id m' = None)).
Proof.
  intros Hreach Hn. pose proof (reachable_Inv m Hreach) as HI.
  destruct (selected_subtree_removal m node HI Hn) as (m1 & Hr & Hp & Hsub & _).
  pose proof (delete_selected_unfold m node m1 Hn Hr) as Hdel.
  assert (Inv (set_selected_id (selection_after_delete (parent node) m1) m1))
    as HI' by (by apply Inv_delete_selected with m).
  eexists. split; [exact Hdel|].
  pose proof Hp as ((_ & _ & _ & Hroot_id & _) & Hd & Hfw & Ho).
  simpl in *. unfold selection_after_delete. split.
  - intros p -> Hin Hp0. rewrite bool_decide_eq_true_2; [done|].
    split; [done|congruence].
  - intros Hnk.
    assert (match parent node with
            | Some p => bool_decide (is_Some (nodes m1 !! p) ∧ p ≠ root_id m1)
            | None => false
            end = false) as ->.
    { destruct (parent node) as [p|]; [|done]. apply bool_decide_eq_false_2.
      intros [? ?]. apply Hnk. exists p. split; [done|]. split; [done|congruence]. }
    split.
    + intros (j & Hj & Hj0).
      assert (j ∈ _order m1) as Hjo.
      { apply (inv_order _ HI'). simpl. split; [done|].
        by rewrite (inv_root_id m HI) in Hj0. }
      destruct (last (_order m1)) as [l|] eqn:Hl.
      2:{ apply last_None in Hl. rewrite Hl in Hjo. by apply elem_of_nil in Hjo. }
      pose proof Hl as Hl'. rewrite Ho in Hl'.
      apply last_filter_split in Hl' as (before & after & Hsplit & Hlr & Hafter).
      exists l, before, after. split; [done|]. split; [done|]. split; [done|]. split.
      * apply (prunes_is_Some m m1 l Hp). split; [|done].
        apply (inv_order m HI). rewrite Hsplit.
        apply elem_of_app. right. apply elem_of_cons. by left.
      * intros x Hx. destruct (decide (x ∈ removed m m1)) as [Hxr|Hxr].
        -- by apply elem_of_removed in Hxr as [_ ?].
        -- by apply Hafter in Hx.
    + intros Hall. destruct (last (_order m1)) as [l|] eqn:Hl; [|done].
      apply last_Some_elem_of in Hl. apply (inv_order _ HI') in Hl as [Hl Hl0].
      simpl in Hl. apply Hall in Hl. rewrite (inv_root_id m HI) in Hl. done.
Qed.

Lemma reachable_select_node m i : reachable m → reachable (select_node m i).
Proof. intros H. by apply (reachable_step (OSelectNode i) m _ None H). Qed.

Lemma reachable_two_rocks : reachable two_rocks.
Proof. do 2 apply reachable_spawn. apply reachable_one_zone. Qed.

Lemma C3_delete_removes_subtree_witness :
  ∃ m', delete_selected (select_node two_rocks (Some 1)) = Some m' ∧
        nodes m' !! 3 = None.
Proof.
  destruct (C3_delete_removes_subtree (select_node two_rocks (Some 1)) zone_node)
    as (m' & Hd & Hsub & _).
  - apply reachable_select_node, reachable_two_rocks.
  - reflexivity.
  - exists m'. split; [exact Hd|]. apply Hsub.
    apply (in_subtree_child _ 1 1 zone_node 3).
    + apply in_subtree_self. exists zone_node. reflexivity.
    + reflexivity.
    + apply elem_of_cons. right. apply elem_of_cons. left. reflexivity.
    + exists rock_node. reflexivity.
Defined.

Lemma C4_selection_after_delete_witness :
  ∃ m', delete_selected two_rocks = Some m' ∧ selected_id m' = Some 1.
Proof.
  destruct (C4_selection_after_delete two_rocks rock_node
              reachable_two_rocks eq_refl) as (m' & Hd & H & _).
  exists m'. split; [exact Hd|].
  apply (H 1); [reflexivity| |discriminate].
  vm_compute in Hd. injection Hd as <-. eexists. vm_compute. reflexivity.
Defined.

(** ** Selection by position *)

Lemma positioned_with_position m :
  positioned m = with_position (iter_drawable_nodes m).
Proof.
  unfold positioned, with_position, iter_drawable_nodes.
  induction (_order m) as [|i l IH]; [done|]. simpl.
  destruct (nodes m !! i) as [node|]; [|exact IH].
  unfold position. destruct (payload node) as [p|] eqn:Hp; [|exact IH]. simpl.
  rewrite Hp. destruct (pos p); [f_equal|]; exact IH.
Qed.

Lemma nearest_step_no_position mouse best node :
  position node = None → nearest_step mouse best node = best.
Proof. intros H. unfold nearest_step. by rewrite H. Qed.

Lemma nearest_step_position mouse best node v :
  position node = Some v →
  nearest_step mouse best node =
    match best.2 with
    | None => (Some (id node), Some (dist2 mouse v))
    | Some best_d2 =>
        if Qlt_le_dec (dist2 mouse v) best_d2
        then (Some (id node), Some (dist2 mouse v)) else best
    end.
Proof. intros H. unfold nearest_step. by rewrite H. Qed.

Lemma with_position_cons n ns :
  with_position (n :: ns) =
    match position n with
    | Some v => (n, v) :: with_position ns
    | None => with_position ns
    end.
Proof. unfold with_position. simpl. by destruct (position n). Qed.

(** The loop of [select_at_position] from a state that already holds a
    candidate: it keeps it when no later node is strictly nearer, and it
    ends on the first of the strictly nearest later nodes otherwise. *)
Lemma nearest_from mouse ns :
  ∀ b bd,
    (foldl (nearest_step mouse) (Some b, Some bd) ns = (Some b, Some bd) ∧
     ∀ c, c ∈ with_position ns → (bd <= dist2 mouse c.2)%Q) ∨
    (∃ before best v after,
       with_position ns = before ++ (best, v) :: after ∧
       foldl (nearest_step mouse) (Some b, Some bd) ns
         = (Some (id best), Some (dist2 mouse v)) ∧
       (dist2 mouse v < bd)%Q ∧
       (∀ c, c ∈ before → (dist2 mouse v < dist2 mouse c.2)%Q) ∧
       (∀ c, c ∈ after → (dist2 mouse v <= dist2 mouse c.2)%Q)).
Proof.
  induction ns as [|n ns IH]; intros b bd.
  - left. split; [done|]. intros c Hc. by apply elem_of_nil in Hc.
  - cbn [foldl]. rewrite with_position_cons.
    destruct (position n) as [v|] eqn:Hv;
      [|rewrite nearest_step_no_position by done; apply IH].
    rewrite (nearest_step_position _ _ _ _ Hv). cbn [snd].
    destruct (Qlt_le_dec (dist2 mouse v) bd) as [Hlt|Hle].
    + destruct (IH (id n) (dist2 mouse v))
        as [[Hr Hall]|(before & best & v' & after & Hs & Hr & Hlt' & Hb & Ha)].
      * right. exists [], n, v, (with_position ns).
        split; [done|]. split; [done|]. split; [done|]. split; [|done].
        intros c Hc. by apply elem_of_nil in Hc.
      * right. exists ((n, v) :: before), best, v', after.
        split; [by rewrite Hs|]. split; [done|].
        split; [by apply Qlt_trans with (dist2 mouse v)|]. split; [|done].
        intros c [->|Hc]%elem_of_cons; [done|by apply Hb].
    + destruct (IH b bd)
        as [[Hr Hall]|(before & best & v' & after & Hs & Hr & Hlt' & Hb & Ha)].
      * left. split; [done|]. intros c [->|Hc]%elem_of_cons; [done|by apply Hall].
      * right. exists ((n, v) :: before), best, v', after.
        split; [by rewrite Hs|]. split; [done|]. split; [done|]. split; [|done].
        intros c [->|Hc]%elem_of_cons; [|by apply Hb].
        by apply Qlt_le_trans with bd.
Qed.

(** The loop of [select_at_position] from its initial state. *)
Lemma nearest_spec mouse ns :
  match with_position ns with
  | [] => nearest mouse ns = (None, None)
  | _ :: _ =>
      ∃ before best v after,
        with_position ns = before ++ (best, v) :: after ∧
        nearest mouse ns = (Some (id best), Some (dist2 mouse v)) ∧
        (∀ c, c ∈ before → (dist2 mouse v < dist2 mouse c.2)%Q) ∧
        (∀ c, c ∈ after → (dist2 mouse v <= dist2 mouse c.2)%Q)
  end.
Proof.
  unfold nearest. induction ns as [|n ns IH]; [done|].
  cbn [foldl]. rewrite with_position_cons.
  destruct (position n) as [v|] eqn:Hv;
    [|rewrite nearest_step_no_position by done; apply IH].
  rewrite (nearest_step_position _ _ _ _ Hv). cbn [snd].
  destruct (nearest_from mouse ns (id n) (dist2 mouse v))
    as [[Hr Hall]|(before & best & v' & after & Hs & Hr & Hlt' & Hb & Ha)].
  - exists [], n, v, (with_position ns). split; [done|]. split; [done|].
    split; [|done]. intros c Hc. by apply elem_of_nil in Hc.
  - exists ((n, v) :: before), best, v', after.
    split; [by rewrite Hs|]. split; [done|]. split; [|done].
    intros c [->|Hc]%elem_of_cons; [done|by apply Hb].
Qed.

Lemma positioned_elem m node v :
  (node, v) ∈ positioned m ↔
  ∃ i p, i ∈ _order m ∧ nodes m !! i = Some node ∧ payload node = Some p ∧
         pos p = Some v.
Proof.
  unfold positioned. rewrite list_elem_of_omap. split.
  - intros (i & Hi & H). destruct (nodes m !! i) as [n|] eqn:Hn; [|done].
    destruct (payload n) as [p|] eqn:Hp; [|done].
    destruct (pos p) as [w|] eqn:Hw; [|done]. injection H as -> ->. by exists i, p.
  - intros (i & p & Hi & Hn & Hp & Hv). exists i. split; [done|].
    by rewrite Hn, Hp, Hv.
Qed.

(** The choice of [select_at_position] in a model that keeps the
    invariant, in terms of the distance that the loop computes. *)
Lemma select_at_position_least_dist2 (m : EditorModel) (mouse_pos : Z * Z) :
  Inv m →
  match positioned m with
  | [] => select_at_position m mouse_pos = (set_selected_id None m, None)
  | _ :: _ =>
      ∃ before best v after,
        positioned m = before ++ (best, v) :: after ∧
        (∀ c, c ∈ before → (dist2 mouse_pos v < dist2 mouse_pos c.2)%Q) ∧
        (∀ c, c ∈ after → (dist2 mouse_pos v <= dist2 mouse_pos c.2)%Q) ∧
        select_at_position m mouse_pos
          = (set_selected_id (Some (id best)) m, Some (id best))
  end.
Proof.
  intros HI.
  pose proof (nearest_spec mouse_pos (iter_drawable_nodes m)) as Hn.
  rewrite <- positioned_with_position in Hn. unfold select_at_position.
  destruct (positioned m) as [|c0 l] eqn:Hpos.
  - by rewrite Hn.
  - destruct Hn as (before & best & v & after & Hs & Hr & Hb & Ha).
    exists before, best, v, after. split; [done|]. split; [done|]. split; [done|].
    rewrite Hr. simpl.
    assert ((best, v) ∈ positioned m) as Hin.
    { rewrite Hpos, Hs. apply elem_of_app. right. apply elem_of_cons. by left. }
    apply positioned_elem in Hin as (i & p & Hi & Hlk & _).
    destruct (inv_ids m HI i best Hlk) as [-> _].
    apply (inv_order m HI) in Hi as [_ Hi0].
    rewrite Hlk, bool_decide_eq_false_2; [done|]. by rewrite (inv_root_id m HI).
Qed.

(** C7: in a reachable model [select_at_position] looks at the nodes that
    have a payload and a position, in creation order; it selects and
    returns the id of the one whose position [(x, y)] has the least squared
    Euclidean distance [(mx - x)² + (my - y)²] from the point [(mx, my)],
    the earliest one among equals; when there is no such node it clears the
    selection and returns no id. *)
Theorem C7_select_at_position_nearest (m : EditorModel) (mx my : Z) :
  reachable m →
  let d2 := λ p : Vector2,
    ((inject_Z mx - vx p) * (inject_Z mx - vx p)
     + (inject_Z my - vy p) * (inject_Z my - vy p))%Q in
  (∀ node v, (node, v) ∈ positioned m ↔
     ∃ i p, i ∈ _order m ∧ nodes m !! i = Some node ∧ payload node = Some p ∧
            pos p = Some v) ∧
  match positioned m with
  | [] => select_at_position m (mx, my) = (set_selected_id None m, None)
  | _ :: _ =>
      ∃ before best v after,
        positioned m = before ++ (best, v) :: after ∧
        (∀ c, c ∈ before → (d2 v < d2 c.2)%Q) ∧
        (∀ c, c ∈ after → (d2 v <= d2 c.2)%Q) ∧
        select_at_position m (mx, my)
          = (set_selected_id (Some (id best)) m, Some (id best))
  end.
Proof.
  intros HI%reachable_Inv d2. split; [apply positioned_elem|].
  pose proof (select_at_position_least_dist2 m (mx, my) HI) as H.
  destruct (positioned m) as [|c0 l]; [exact H|].
  destruct H as (before & best & v & after & Hs & Hb & Ha & Hsel).
  exists before, best, v, after. split; [exact Hs|].
  split; [|split; [|exact Hsel]].
  - intros c Hc. exact (Hb c Hc).
  - intros c Hc. exact (Ha c Hc).
Qed.

Lemma C7_select_at_position_nearest_witness :
  select_at_position two_rocks (8, 8) = (set_selected_id (Some 3) two_rocks, Some 3).
Proof.
  destruct (C7_select_at_position_nearest two_rocks 8 8 reachable_two_rocks)
    as [_ H].
  assert (positioned two_rocks
            = [(zone_node, vector2_of (5, 5));
               (mkNode 2 KEntity "Rock" "Rock"
                  (Some (sample_payload (vector2_of (1, 2)))) (Some 1) [],
                vector2_of (1, 2));
               (rock_node, vector2_of (7, 7))]) as Hpos by reflexivity.
  rewrite Hpos in H.
  destruct H as (before & best & v & after & Hs & Hb & Ha & Hsel).
  destruct before as [|c1 [|c2 [|c3 before]]]; cbn [app] in Hs.
  - inversion Hs; subst best v after. exfalso.
    assert ((18 <= 2)%Q) as Hle.
    { apply (Ha (rock_node, vector2_of (7, 7))).
      apply list_elem_of_further, list_elem_of_here. }
    vm_compute in Hle. by apply Hle.
  - inversion Hs; subst c1 best v after. exfalso.
    assert ((85 < 18)%Q) as Hlt.
    { apply (Hb (zone_node, vector2_of (5, 5))). apply list_elem_of_here. }
    vm_compute in Hlt. discriminate Hlt.
  - inversion Hs; subst c1 c2 best v after. exact Hsel.
  - exfalso. apply (f_equal length) in Hs. rewrite !length_cons, length_app in Hs.
    simpl in Hs. lia.
Defined.

(** * Further properties of the model *)

(** ** The effect of a successful spawn *)

Lemma spawn_from_palette_success m k idx position hint item pid :
  Inv m → registry m k idx = Some item → _resolve_parent m k hint = Some pid →
  ∃ pn, nodes m !! pid = Some pn ∧ pid < _next_id m ∧
        nodes m !! _next_id m = None ∧
        match k with
        | PEntity => kind pn = KEnvironment
        | PEnvironment => kind pn = KRoot ∨ kind pn = KEntity
        end ∧
        spawn_from_palette m k idx position hint =
          (let nid := _next_id m in
           let node :=
             mkNode nid (node_kind k)
               (label_for_count (item_name item) (label_count m (item_name item)))
               (item_name item) (Some (factory item (vector2_of position)))
               (Some pid) [] in
           (mkEditorModel (registry m)
              (<[pid := set_children (children pn ++ [nid]) pn]>
                 (<[nid := node]> (nodes m)))
              (_order m ++ [nid])
              (<[item_name item := label_count m (item_name item) + 1]>
                 (_label_counts m))
              (nid + 1) (root_id m) (Some nid),
            Some node)).
Proof.
  intros HI Hreg Hres.
  destruct (_resolve_parent_Some _ _ _ _ Hres) as (pn & Hpn & Hk).
  exists pn. destruct (inv_ids m HI pid pn Hpn) as [_ Hlt].
  assert (nodes m !! _next_id m = None) as Hfresh.
  { destruct (nodes m !! _next_id m) as [x|] eqn:Hx; [|done].
    apply (inv_ids m HI) in Hx as [_ Hx]. lia. }
  split; [done|]. split; [done|]. split; [done|]. split; [done|].
  unfold spawn_from_palette. rewrite Hreg, Hres. simpl.
  unfold _attach_child. simpl. rewrite lookup_insert_ne by lia. rewrite Hpn. done.
Qed.

Lemma spawn_table_lookup (ns : gmap Z Node) pid pn' nid node j :
  pid ≠ nid →
  <[pid := pn']> (<[nid := node]> ns) !! j =
    if decide (j = pid) then Some pn'
    else if decide (j = nid) then Some node else ns !! j.
Proof.
  intros Hne. case_decide as H1; [subst; by rewrite lookup_insert_eq|].
  rewrite lookup_insert_ne by done.
  case_decide as H2; [subst; by rewrite lookup_insert_eq|].
  by rewrite lookup_insert_ne.
Qed.

(** ** The cases of a move *)

Lemma move_selected_within_cases m canvas_rect desired :
  move_selected_within m canvas_rect desired = m ∨
  ∃ sel node p v,
    selected_id m = Some sel ∧ nodes m !! sel = Some node ∧
    payload node = Some p ∧ pos p = Some v ∧
    move_selected_within m canvas_rect desired =
      set_nodes
        (<[sel := set_payload
                    (Some (mkPayload
                       (Some (mkVector2
                          (py_max (inject_Z (rect_left canvas_rect) + radius node)
                             (py_min (inject_Z (rect_right canvas_rect) - radius node)
                                (vx desired)))
                          (py_max (inject_Z (rect_top canvas_rect) + radius node)
                             (py_min (inject_Z (rect_bottom canvas_rect) - radius node)
                                (vy desired)))))
                       (radius_attr p))) node]> (nodes m)) m.
Proof.
  destruct (selected_id m) as [sel|] eqn:Hsel.
  2:{ left. unfold move_selected_within. by rewrite Hsel. }
  destruct (nodes m !! sel) as [node|] eqn:Hn.
  2:{ left. unfold move_selected_within, selected_node. by rewrite Hsel, Hn. }
  destruct (payload node) as [p|] eqn:Hp.
  2:{ left. unfold move_selected_within, selected_node. by rewrite Hsel, Hn, Hp. }
  destruct (pos p) as [v|] eqn:Hv.
  2:{ left. unfold move_selected_within, selected_node. by rewrite Hsel, Hn, Hp, Hv. }
  right. exists sel, node, p, v. repeat (split; [done|]).
  by apply move_selected_within_positioned with v.
Qed.

(** ** The structure of the reachable models *)

Lemma Tree_init reg : Tree (init reg).
Proof.
  split; simpl.
  - apply Inv_init.
  - exists root_node. by rewrite lookup_insert_eq.
  - done.
  - intros i n [[<- <-] | [_ H]]%lookup_insert_Some; [done|].
    by rewrite lookup_empty in H.
  - intros i n [[<- <-] | [_ H]]%lookup_insert_Some; [done|].
    by rewrite lookup_empty in H.
  - intros i n [[<- <-] | [_ H]]%lookup_insert_Some; [apply NoDup_nil_2|].
    by rewrite lookup_empty in H.
  - constructor.
Qed.

Lemma same_structure_refl x : same_structure x x.
Proof. by repeat split. Qed.

Lemma Tree_same_structure m m' :
  Tree m → Inv m' → _order m' = _order m → _next_id m' = _next_id m →
  (∀ j, match nodes m !! j, nodes m' !! j with
        | Some x, Some x' => same_structure x x'
        | None, None => True
        | _, _ => False
        end) →
  Tree m'.
Proof.
  intros [HI Hname Hnext Hids Hpar Hnd Hsort] HI' Ho Hn Hsame.
  assert (∀ j x', nodes m' !! j = Some x' →
            ∃ x, nodes m !! j = Some x ∧ same_structure x x') as Hback.
  { intros j x' Hx'. specialize (Hsame j). rewrite Hx' in Hsame.
    destruct (nodes m !! j) as [x|]; [|done]. by exists x. }
  assert (∀ j x, nodes m !! j = Some x →
            ∃ x', nodes m' !! j = Some x' ∧ same_structure x x') as Hfw.
  { intros j x Hx. specialize (Hsame j). rewrite Hx in Hsame.
    destruct (nodes m' !! j) as [x'|]; [|done]. by exists x'. }
  split.
  - done.
  - destruct Hname as (r & Hr & Hrn & Hrb).
    destruct (Hfw _ _ Hr) as (r' & Hr' & _ & _ & Hn' & Hb' & _).
    exists r'. split; [done|]. split; congruence.
  - by rewrite Hn.
  - intros i n' (n & Hi & _)%Hback. by eapply Hids.
  - intros i n' (n & Hi & _ & Hk & _ & _ & Hp & _)%Hback Hi0.
    destruct (Hpar i n Hi Hi0) as (p & pn & Hpn & Hlk & Hin & Hlt & Hka).
    destruct (Hfw _ _ Hlk) as (pn' & Hlk' & _ & Hk' & _ & _ & _ & Hc').
    exists p, pn'. rewrite Hp, Hc', Hk, Hk'. done.
  - intros i n' (n & Hi & _ & _ & _ & _ & _ & Hc)%Hback. rewrite Hc. by eapply Hnd.
  - by rewrite Ho.
Qed.

Lemma select_node_frame m i :
  nodes (select_node m i) = nodes m ∧ _order (select_node m i) = _order m ∧
  _next_id (select_node m i) = _next_id m ∧
  _label_counts (select_node m i) = _label_counts m ∧
  root_id (select_node m i) = root_id m ∧ registry (select_node m i) = registry m.
Proof.
  unfold select_node. destruct i as [i|]; [|done].
  destruct (nodes m !! i); [|done]. by case_bool_decide.
Qed.

Lemma Tree_select_node m i : Tree m → Tree (select_node m i).
Proof.
  intros HT. destruct (select_node_frame m i) as (Hn & Ho & Hnx & _).
  apply Tree_same_structure with m; try done.
  - apply Inv_select_node, HT.
  - intros j. rewrite Hn. destruct (nodes m !! j); [apply same_structure_refl|done].
Qed.

Lemma Tree_move_selected_within m r d : Tree m → Tree (move_selected_within m r d).
Proof.
  intros HT.
  destruct (move_selected_within_cases m r d)
    as [->|(sel & node & p & v & Hsel & Hn & Hp & Hv & Heq)]; [done|].
  apply Tree_same_structure with m; try done.
  - apply Inv_move_selected_within, HT.
  - by rewrite Heq.
  - by rewrite Heq.
  - intros j. rewrite Heq. simpl. destruct (decide (j = sel)) as [->|Hne].
    + rewrite lookup_insert_eq, Hn. by repeat split.
    + rewrite lookup_insert_ne by done.
      destruct (nodes m !! j); [apply same_structure_refl|done].
Qed.

Lemma Tree_spawn_from_palette m k idx position hint :
  Tree m → Tree (spawn_from_palette m k idx position hint).1.
Proof.
  intros HT. pose proof (Inv_spawn_from_palette m k idx position hint (tree_inv m HT))
    as HI'.
  destruct HT as [HI Hname Hnext Hids Hpar Hnd Hsort].
  destruct (registry m k idx) as [item|] eqn:Hreg.
  2:{ unfold spawn_from_palette. rewrite Hreg. by split. }
  destruct (_resolve_parent m k hint) as [pid|] eqn:Hres.
  2:{ unfold spawn_from_palette. rewrite Hreg, Hres. by split. }
  destruct (spawn_from_palette_success m k idx position hint item pid HI Hreg Hres)
    as (pn & Hpn & Hlt & Hfresh & Hkind & Heq).
  rewrite Heq in HI' |- *. simpl in HI' |- *.
  set (nid := _next_id m) in *. set (node := mkNode nid _ _ _ _ _ _) in *.
  set (pn' := set_children (children pn ++ [nid]) pn) in *.
  assert (pid ≠ nid) as Hne by lia.
  pose proof (λ j, spawn_table_lookup (nodes m) pid pn' nid node j Hne) as Hlk.
  assert (nid ∉ children pn) as Hnin.
  { intros Hin. destruct (inv_children m HI pid pn nid Hpn Hin) as (cn & Hcn & _).
    congruence. }
  split; simpl.
  - done.
  - destruct Hname as (r & Hr & Hrn & Hrb). rewrite Hlk.
    case_decide as H0; [|case_decide as H1].
    + exists pn'. split; [done|]. subst pid. rewrite Hr in Hpn.
      injection Hpn as <-. done.
    + congruence.
    + by exists r.
  - lia.
  - intros j x'. rewrite Hlk. case_decide as H0; [|case_decide as H1].
    + intros _. subst j. by eapply Hids.
    + intros _. subst j. unfold nid. lia.
    + apply Hids.
  - intros j x'. rewrite Hlk. intros Hx' Hj0.
    assert (∀ x, nodes m !! j = Some x → parent x' = parent x →
              kind x' = kind x →
              ∃ p pn0, parent x' = Some p ∧
                <[pid:=pn']> (<[nid:=node]> (nodes m)) !! p = Some pn0 ∧
                j ∈ children pn0 ∧ p < j ∧ kinds_allowed (kind x') (kind pn0))
      as Hold.
    { intros x Hx Hpx Hkx.
      destruct (Hpar j x Hx Hj0) as (p & pn0 & Hp & Hp0 & Hin & Hpj & Hka).
      rewrite Hpx, Hkx. destruct (decide (p = pid)) as [->|Hpp].
      - exists pid, pn'. rewrite Hlk, decide_True by done.
        rewrite Hpn in Hp0. injection Hp0 as <-.
        split; [done|]. split; [done|]. split; [|done].
        simpl. apply elem_of_app. by left.
      - exists p, pn0. rewrite Hlk, decide_False by done.
        rewrite decide_False by congruence. done. }
    case_decide as H0; [|case_decide as H1].
    + injection Hx' as <-. subst j. by apply (Hold pn).
    + injection Hx' as <-. subst j. exists pid, pn'. rewrite Hlk, decide_True by done.
      split; [done|]. split; [done|]. split.
      { simpl. apply elem_of_app. right. by apply list_elem_of_singleton. }
      split; [done|]. unfold kinds_allowed. simpl. destruct k; simpl; tauto.
    + by apply (Hold x').
  - intros j x'. rewrite Hlk. case_decide as H0; [|case_decide as H1].
    + intros [= <-]. simpl. apply NoDup_app. split; [by eapply Hnd|]. split.
      * intros x Hx ->%list_elem_of_singleton. done.
      * apply NoDup_singleton.
    + intros [= <-]. apply NoDup_nil_2.
    + apply Hnd.
  - apply StronglySorted_app_2; [|done|].
    + intros x1 x2 Hx1 ->%list_elem_of_singleton.
      apply (inv_order m HI) in Hx1 as [[n1 Hn1] _].
      by apply (inv_ids m HI) in Hn1 as [_ ?].
    + repeat constructor.
Qed.

Lemma StronglySorted_filter {A} (R : relation A) (P : A → Prop)
    `{∀ x, Decision (P x)} (l : list A) :
  StronglySorted R l → StronglySorted R (filter P l).
Proof.
  induction 1 as [|a l Hs IH Hall]; [constructor|].
  rewrite filter_cons. case_decide; [|done]. constructor; [done|].
  apply Forall_forall. intros x [_ Hx]%list_elem_of_filter.
  rewrite Forall_forall in Hall. by apply Hall.
Qed.

Lemma Tree_prunes m m1 s :
  Tree m → prunes m m1 → 0 ∉ removed m m1 → closed m m1 →
  (∀ x, s = Some x → is_Some (nodes m1 !! x) ∧ x ≠ 0) →
  Tree (set_selected_id s m1).
Proof.
  intros [HI Hname Hnext Hids Hpar Hnd Hsort] Hp H0 Hcl Hs.
  pose proof (Inv_prunes m m1 s HI Hp H0 Hs) as HI'.
  pose proof Hp as ((_ & _ & Hnx & _ & _) & Hd & Hfw & Ho).
  split; simpl.
  - done.
  - destruct Hname as (r & Hr & Hrn & Hrb). eexists. split; [by apply Hfw|done].
  - by rewrite Hnx.
  - intros i n' Hn'. destruct (prunes_lookup _ _ _ _ Hp Hn') as (n & Hn & _).
    by eapply Hids.
  - intros i n' Hn' Hi0. destruct (prunes_lookup _ _ _ _ Hp Hn') as (n & Hn & ->).
    destruct (Hpar i n Hn Hi0) as (p & pn & Hpp & Hlk & Hin & Hlt & Hka).
    assert (i ∉ removed m m1) as Hir.
    { rewrite elem_of_removed, Hn'. by intros [_ ?]. }
    assert (p ∉ removed m m1) as Hpr.
    { intros Hpr. apply (Hcl p pn i Hpr Hlk Hin). by apply elem_of_dom_2 in Hn'. }
    eexists p, _. split; [done|]. split; [by apply Hfw|]. split; [|done].
    simpl. by apply list_elem_of_filter.
  - intros i n' Hn'. destruct (prunes_lookup _ _ _ _ Hp Hn') as (n & Hn & ->).
    simpl. apply NoDup_filter. by eapply Hnd.
  - rewrite Ho. by apply StronglySorted_filter.
Qed.

Lemma subtree_closed m m1 i :
  dom (nodes m1) ⊆ dom (nodes m) →
  (∀ j, j ∈ removed m m1 ↔ in_subtree m i j) → closed m m1.
Proof.
  intros Hd Hsub b n c Hb Hn Hc Hin.
  assert (c ∈ removed m m1) as Hcr.
  { apply Hsub. apply in_subtree_child with b n; [by apply Hsub|done|done|].
    apply elem_of_dom. by apply Hd. }
  apply elem_of_removed in Hcr as [_ Hcr]. apply not_elem_of_dom in Hcr. done.
Qed.

Lemma Tree_delete_selected m m' : Tree m → delete_selected m = Some m' → Tree m'.
Proof.
  intros HT H. pose proof (tree_inv m HT) as HI.
  destruct (selected_node m) as [node|] eqn:Hn.
  - destruct (selected_subtree_removal m node HI Hn) as (m1 & Hr & Hp & Hsub & H0).
    rewrite (delete_selected_unfold m node m1 Hn Hr) in H. injection H as <-.
    apply Tree_prunes with m; try done.
    + apply subtree_closed with (id node); [by destruct Hp as (_ & ? & _)|done].
    + intros x Hx. by apply (selection_after_delete_valid m m1 (parent node)).
  - unfold delete_selected in H. rewrite Hn in H. by injection H as <-.
Qed.

Lemma Tree_apply_op op m m' r : Tree m → apply_op op m = Some (m', r) → Tree m'.
Proof.
  intros HT. destruct op as [k i p h|i|p|rc d|]; simpl; intros H.
  - destruct (spawn_from_palette m k i p h) as [m1 r1] eqn:E. simplify_eq.
    replace m' with (spawn_from_palette m k i p h).1 by (by rewrite E).
    by apply Tree_spawn_from_palette.
  - simplify_eq. by apply Tree_select_node.
  - simplify_eq. by apply Tree_select_node.
  - simplify_eq. by apply Tree_move_selected_within.
  - destruct (delete_selected m) as [m1|] eqn:E; [|done]. simplify_eq.
    by apply Tree_delete_selected with m.
Qed.

Lemma Tree_run ops : ∀ m m' spawned, Tree m → run ops m = Some (m', spawned) → Tree m'.
Proof.
  induction ops as [|op ops IH]; intros m m' spawned HT H; simpl in H.
  - by simplify_eq.
  - destruct (apply_op op m) as [[m1 r]|] eqn:E; [|done].
    destruct (run ops m1) as [[m2 rs]|] eqn:E'; [|done]. simplify_eq.
    eapply IH; [|done]. by eapply Tree_apply_op.
Qed.

Lemma reachable_Tree m : reachable m → Tree m.
Proof.
  intros (reg & ops & spawned & H). eapply Tree_run; [apply Tree_init|done].
Qed.

(** ** Root, ids and links *)

(** X1: in every reachable model the root is node 0 of the table, with its
    kind, names, no payload and no parent; it is the only node of kind root,
    and [spawn_from_palette] never returns it. *)
Theorem X1_root_persistent (m : EditorModel) :
  reachable m →
  root_id m = 0 ∧
  (∃ r, nodes m !! 0 = Some r ∧ id r = 0 ∧ kind r = KRoot ∧
        name r = "Scene Root" ∧ base_name r = "Scene" ∧
        payload r = None ∧ parent r = None) ∧
  (∀ i n, nodes m !! i = Some n → kind n = KRoot → i = 0) ∧
  (∀ k idx position hint node,
     (spawn_from_palette m k idx position hint).2 = Some node →
     1 ≤ id node ∧ kind node ≠ KRoot).
Proof.
  intros HT%reachable_Tree. pose proof (tree_inv m HT) as HI.
  split; [apply (inv_root_id m HI)|]. split; [|split].
  - destruct (inv_root m HI) as (r & Hr & Hk & Hp & Hpl).
    destruct (tree_root_name m HT) as (r' & Hr' & Hn & Hb).
    rewrite Hr in Hr'. injection Hr' as <-.
    exists r. destruct (inv_ids m HI 0 r Hr) as [Hid _]. done.
  - intros i n Hn Hk. destruct (decide (i = 0)) as [|Hi0]; [done|].
    destruct (tree_parent m HT i n Hn Hi0) as (p & pn & _ & _ & _ & _ & Hka).
    rewrite Hk in Hka. by destruct Hka as [[? _]|[? _]].
  - intros k idx position hint node. unfold spawn_from_palette.
    destruct (registry m k idx) as [item|]; [|done].
    destruct (_resolve_parent m k hint) as [pid|]; [|done].
    simpl. intros [= <-]. simpl. split; [apply (tree_next_id m HT)|].
    by destruct k.
Qed.

Lemma X1_root_persistent_witness :
  root_id two_rocks = 0 ∧
  ∃ r, nodes two_rocks !! 0 = Some r ∧ kind r = KRoot ∧ parent r = None.
Proof.
  destruct (X1_root_persistent two_rocks reachable_two_rocks)
    as (H0 & (r & Hr & _ & Hk & _ & _ & _ & Hp) & _).
  split; [exact H0|]. exists r. split; [exact Hr|]. split; [exact Hk|exact Hp].
Defined.

Lemma apply_op_next_id op m m' r :
  apply_op op m = Some (m', r) →
  match r with
  | Some node => id node = _next_id m ∧ _next_id m' = _next_id m + 1
  | None => _next_id m' = _next_id m
  end.
Proof.
  destruct op as [k i p h|i|p|rc d|]; simpl; intros H.
  - unfold spawn_from_palette in H.
    destruct (registry m k i) as [item|]; [|by simplify_eq].
    destruct (_resolve_parent m k h) as [pid|]; [|by simplify_eq].
    simpl in H. simplify_eq. simpl. split; [done|].
    unfold _attach_child. simpl. by destruct (_ !! pid).
  - simplify_eq. apply select_node_frame.
  - simplify_eq. apply select_node_frame.
  - simplify_eq.
    destruct (move_selected_within_cases m rc d) as [->|(?&?&?&?&_&_&_&_&->)]; done.
  - destruct (delete_selected m) as [m1|] eqn:E; [|done]. simplify_eq.
    unfold delete_selected in E. destruct (selected_node m) as [node|]; [|by simplify_eq].
    destruct (_remove_subtree _ _ _) as [m2|] eqn:E2; [|done].
    apply _remove_subtree_same_scalars in E2 as (_ & _ & Hn & _).
    destruct (match parent node with Some _ => _ | None => _ end);
      [by simplify_eq|].
    destruct (last _); by simplify_eq.
Qed.

Lemma run_ids ops :
  ∀ m m' spawned, run ops m = Some (m', spawned) →
    _next_id m' = _next_id m + Z.of_nat (length spawned) ∧
    ∀ k node, spawned !! k = Some node → id node = _next_id m + Z.of_nat k.
Proof.
  induction ops as [|op ops IH]; intros m m' spawned H; simpl in H.
  - simplify_eq. split; [simpl; lia|done].
  - destruct (apply_op op m) as [[m1 r]|] eqn:E; [|done].
    destruct (run ops m1) as [[m2 rs]|] eqn:E'; [|done].
    simplify_eq. apply IH in E' as [Hn Hk]. apply apply_op_next_id in E.
    destruct r as [node|]; simpl.
    + destruct E as [Hid Hnx]. split; [lia|].
      intros [|k] node' Hl; simpl in Hl.
      * injection Hl as <-. lia.
      * rewrite (Hk _ _ Hl). lia.
    + rewrite E in Hn, Hk. done.
Qed.

(** X2: along every sequence of calls from initialization, the [k]-th node
    that [spawn_from_palette] returns has id [k] (from 1), whatever was
    deleted in between, and [_next_id] is one more than the number of
    nodes spawned so far. *)
Theorem X2_ids_never_reused
    (reg : PaletteRegistry) (ops : list Op) (m : EditorModel) (spawned : list Node) :
  run ops (init reg) = Some (m, spawned) →
  _next_id m = Z.of_nat (length spawned) + 1 ∧
  (∀ k node, spawned !! k = Some node → id node = Z.of_nat k + 1) ∧
  (∀ i n, nodes m !! i = Some n → id n = i ∧ 0 ≤ i < _next_id m).
Proof.
  intros H. pose proof (run_ids ops _ _ _ H) as [Hn Hk]. simpl in Hn, Hk.
  split; [lia|]. split.
  - intros k node Hl. rewrite (Hk _ _ Hl). lia.
  - assert (Tree m) as HT by (apply reachable_Tree; by exists reg, ops, spawned).
    intros i n Hi. destruct (inv_ids m (tree_inv m HT) i n Hi) as [? ?].
    pose proof (tree_ids m HT i n Hi). lia.
Qed.

Lemma X2_ids_never_reused_witness :
  match run rocks_ops (init sample_registry) with
  | Some (m, spawned) => _next_id m = Z.of_nat (length spawned) + 1
  | None => False
  end.
Proof.
  destruct (run rocks_ops (init sample_registry)) as [[m spawned]|] eqn:E.
  - apply (X2_ids_never_reused sample_registry rocks_ops m spawned E).
  - vm_compute in E. discriminate E.
Defined.

(** X3: in every reachable model a node other than the root has a parent
    that is in the table, has a smaller id, and lists the node exactly once
    among its children. *)
Theorem X3_parent_lists_child_once (m : EditorModel) (i : Z) (n : Node) :
  reachable m → nodes m !! i = Some n → i ≠ 0 →
  ∃ p pn l1 l2,
    parent n = Some p ∧ nodes m !! p = Some pn ∧ p < i ∧
    children pn = l1 ++ i :: l2 ∧ (i ∉ l1) ∧ (i ∉ l2).
Proof.
  intros HT%reachable_Tree Hn Hi0.
  destruct (tree_parent m HT i n Hn Hi0) as (p & pn & Hp & Hpn & Hin & Hlt & _).
  pose proof (tree_children_nodup m HT p pn Hpn) as Hnd.
  apply list_elem_of_split in Hin as (l1 & l2 & Hsplit).
  exists p, pn, l1, l2. repeat (split; [done|]).
  rewrite Hsplit in Hnd. apply NoDup_app in Hnd as (_ & Hl1 & Hnd).
  apply NoDup_cons in Hnd as [Hl2 _]. split; [|done].
  intros Hin1. apply (Hl1 i Hin1). apply elem_of_cons. by left.
Qed.

Lemma X3_parent_lists_child_once_witness :
  ∃ p pn l1 l2,
    parent rock_node = Some p ∧ nodes two_rocks !! p = Some pn ∧ p < 3 ∧
    children pn = l1 ++ 3 :: l2 ∧ (3 ∉ l1) ∧ (3 ∉ l2).
Proof.
  apply (X3_parent_lists_child_once two_rocks 3 rock_node).
  - apply reachable_two_rocks.
  - reflexivity.
  - discriminate.
Defined.

(** X4: in every reachable model the parent of an entity is an environment
    and the parent of an environment is the root or an entity: no
    environment is nested in an environment, and no entity hangs from the
    root or from an entity. *)
Theorem X4_kinds_follow_the_table (m : EditorModel) (i : Z) (n : Node) :
  reachable m → nodes m !! i = Some n → i ≠ 0 →
  ∃ p pn,
    parent n = Some p ∧ nodes m !! p = Some pn ∧
    ((kind n = KEntity ∧ kind pn = KEnvironment) ∨
     (kind n = KEnvironment ∧ (kind pn = KRoot ∨ kind pn = KEntity))).
Proof.
  intros HT%reachable_Tree Hn Hi0.
  destruct (tree_parent m HT i n Hn Hi0) as (p & pn & Hp & Hpn & _ & _ & Hka).
  by exists p, pn.
Qed.

Lemma X4_kinds_follow_the_table_witness :
  ∃ p pn,
    parent rock_node = Some p ∧ nodes two_rocks !! p = Some pn ∧
    ((kind rock_node = KEntity ∧ kind pn = KEnvironment) ∨
     (kind rock_node = KEnvironment ∧ (kind pn = KRoot ∨ kind pn = KEntity))).
Proof.
  apply (X4_kinds_follow_the_table two_rocks 3 rock_node).
  - apply reachable_two_rocks.
  - reflexivity.
  - discriminate.
Defined.

(** ** Creation order *)

Lemma StronglySorted_lt_NoDup (l : list Z) : StronglySorted Z.lt l → NoDup l.
Proof.
  induction 1 as [|a l Hs IH Hall]; [apply NoDup_nil_2|].
  apply NoDup_cons. split; [|done]. intros Ha.
  rewrite Forall_forall in Hall. specialize (Hall a Ha). lia.
Qed.

(** X5: in every reachable model the creation order holds exactly the ids
    of the nodes other than the root, each once, in increasing order; so
    the table has one node more than the order has ids, and the drawable
    nodes are these nodes in that order. *)
Theorem X5_order_lists_spawned_nodes (m : EditorModel) :
  reachable m →
  StronglySorted Z.lt (_order m) ∧ NoDup (_order m) ∧
  (∀ i, i ∈ _order m ↔ is_Some (nodes m !! i) ∧ i ≠ 0) ∧
  size (nodes m) = S (length (_order m)) ∧
  map id (iter_drawable_nodes m) = _order m ∧
  (∀ node, node ∈ iter_drawable_nodes m → nodes m !! id node = Some node).
Proof.
  intros HT%reachable_Tree. pose proof (tree_inv m HT) as HI.
  pose proof (tree_order_sorted m HT) as Hs.
  pose proof (StronglySorted_lt_NoDup _ Hs) as Hnd.
  split; [done|]. split; [done|]. split; [apply (inv_order m HI)|]. split; [|split].
  - assert (dom (nodes m) = {[0]} ∪ list_to_set (_order m)) as Hdom.
    { apply set_eq. intros i. rewrite elem_of_union, elem_of_singleton,
        elem_of_list_to_set, (inv_order m HI i), elem_of_dom.
      destruct (inv_root m HI) as (r & Hr & _).
      destruct (decide (i = 0)) as [->|]; [|tauto]. split; [auto|].
      intros _. by eexists. }
    rewrite <- size_dom, Hdom, size_union, size_singleton, size_list_to_set by
      (try done; intros i ->%elem_of_singleton Hi%elem_of_list_to_set;
       by apply (inv_order m HI) in Hi as [_ ?]).
    done.
  - unfold iter_drawable_nodes.
    assert (∀ i, i ∈ _order m → ∃ n p, nodes m !! i = Some n ∧ id n = i ∧
                                        payload n = Some p) as Hall.
    { intros i [[n Hn] Hi0]%(inv_order m HI).
      destruct (inv_payload m HI i n Hn Hi0) as [p Hp].
      destruct (inv_ids m HI i n Hn) as [Hid _]. by exists n, p. }
    induction (_order m) as [|i l IH]; [done|]. simpl.
    destruct (Hall i) as (n & p & Hn & Hid & Hp); [apply elem_of_cons; by left|].
    rewrite Hn, Hp. simpl. rewrite Hid. f_equal. apply IH.
    + by apply StronglySorted_inv in Hs as [? _].
    + by apply NoDup_cons in Hnd as [_ ?].
    + intros j Hj. apply Hall. apply elem_of_cons. by right.
  - intros node (i & Hi & H)%list_elem_of_omap.
    destruct (nodes m !! i) as [n|] eqn:Hn; [|done].
    destruct (payload n); [|done]. injection H as ->.
    by destruct (inv_ids m HI i node Hn) as [-> _].
Qed.

Lemma X5_order_lists_spawned_nodes_witness :
  size (nodes two_rocks) = S (length (_order two_rocks)).
Proof.
  destruct (X5_order_lists_spawned_nodes two_rocks reachable_two_rocks)
    as (_ & _ & _ & H & _).
  exact H.
Defined.

(** ** Spawning, and deleting what was spawned *)

(** X6: in a reachable model a spawn that returns a node adds exactly that
    node: it gets the next id, which was free, the kind asked for, the name
    of the item as base name, the payload of the factory and no children;
    it is appended to the children of its parent and to the creation order
    and becomes the selection; no other node changes. *)
Theorem X6_spawn_adds_one_node
    (m : EditorModel) (k : PaletteKind) (idx : Z) (position : Z * Z)
    (hint : option Z) (node : Node) :
  reachable m → (spawn_from_palette m k idx position hint).2 = Some node →
  ∃ item pid pn,
    registry m k idx = Some item ∧ parent node = Some pid ∧
    nodes m !! pid = Some pn ∧
    id node = _next_id m ∧ nodes m !! id node = None ∧
    kind node = node_kind k ∧ base_name node = item_name item ∧
    payload node = Some (factory item (vector2_of position)) ∧
    children node = [] ∧
    nodes (spawn_from_palette m k idx position hint).1
      = <[pid := set_children (children pn ++ [id node]) pn]>
          (<[id node := node]> (nodes m)) ∧
    size (nodes (spawn_from_palette m k idx position hint).1) = S (size (nodes m)) ∧
    _order (spawn_from_palette m k idx position hint).1 = _order m ++ [id node] ∧
    selected_id (spawn_from_palette m k idx position hint).1 = Some (id node) ∧
    _next_id (spawn_from_palette m k idx position hint).1 = _next_id m + 1.
Proof.
  intros HI%reachable_Inv Hr.
  destruct (registry m k idx) as [item|] eqn:Hreg.
  2:{ unfold spawn_from_palette in Hr. by rewrite Hreg in Hr. }
  destruct (_resolve_parent m k hint) as [pid|] eqn:Hres.
  2:{ unfold spawn_from_palette in Hr. by rewrite Hreg, Hres in Hr. }
  destruct (spawn_from_palette_success m k idx position hint item pid HI Hreg Hres)
    as (pn & Hpn & Hlt & Hfresh & Hkind & Heq).
  rewrite Heq in Hr |- *. simpl in Hr. injection Hr as <-. simpl.
  exists item, pid, pn. repeat (split; [done|]). split; [|done].
  rewrite map_size_insert_Some.
  - by rewrite map_size_insert_None.
  - rewrite lookup_insert_ne by lia. by rewrite Hpn.
Qed.

Lemma X6_spawn_adds_one_node_witness :
  size (nodes (spawn_from_palette one_zone PEntity 0 (1, 2) None).1)
    = S (size (nodes one_zone)).
Proof.
  destruct (X6_spawn_adds_one_node one_zone PEntity 0 (1, 2) None
              (mkNode 2 KEntity "Rock" "Rock"
                 (Some (sample_payload (vector2_of (1, 2)))) (Some 1) [])
              reachable_one_zone eq_refl)
    as (item & pid & pn & _ & _ & _ & _ & _ & _ & _ & _ & _ & _ & H & _).
  exact H.
Defined.

Lemma in_subtree_leaf m i n j :
  nodes m !! i = Some n → children n = [] → in_subtree m i j → j = i.
Proof.
  intros Hn Hc H. induction H as [|b nb c _ IH Hb Hin _]; [done|].
  subst b. rewrite Hn in Hb. injection Hb as <-. rewrite Hc in Hin.
  by apply elem_of_nil in Hin.
Qed.

Lemma filter_keeps_all {A} (P : A → Prop) `{∀ x, Decision (P x)} (l : list A) :
  (∀ x, x ∈ l → P x) → filter P l = l.
Proof.
  induction l as [|a l IH]; intros Hl; [done|].
  rewrite filter_cons_True by (apply Hl, elem_of_cons; by left).
  rewrite IH; [done|]. intros x Hx. apply Hl, elem_of_cons. by right.
Qed.

(** X7: in a reachable model, [delete_selected] right after a spawn that
    returned a node takes that node away again: the table and the creation
    order are as before the spawn; the id and the label counter stay used;
    the parent of the node is selected if it is not the root, and the last
    id of the creation order otherwise. *)
Theorem X7_spawn_then_delete
    (m : EditorModel) (k : PaletteKind) (idx : Z) (position : Z * Z)
    (hint : option Z) (node : Node) :
  reachable m → (spawn_from_palette m k idx position hint).2 = Some node →
  ∃ m2,
    delete_selected (spawn_from_palette m k idx position hint).1 = Some m2 ∧
    nodes m2 = nodes m ∧ _order m2 = _order m ∧
    _next_id m2 = _next_id m + 1 ∧
    _label_counts m2 = _label_counts (spawn_from_palette m k idx position hint).1 ∧
    selected_id m2
      = if decide (parent node = Some 0) then last (_order m) else parent node.
Proof.
  intros Hreach Hr. pose proof (reachable_Inv m Hreach) as HI.
  pose proof (Inv_spawn_from_palette m k idx position hint HI) as HI1.
  destruct (registry m k idx) as [item|] eqn:Hreg.
  2:{ unfold spawn_from_palette in Hr. by rewrite Hreg in Hr. }
  destruct (_resolve_parent m k hint) as [pid|] eqn:Hres.
  2:{ unfold spawn_from_palette in Hr. by rewrite Hreg, Hres in Hr. }
  destruct (spawn_from_palette_success m k idx position hint item pid HI Hreg Hres)
    as (pn & Hpn & Hlt & Hfresh & Hkind & Heq).
  rewrite Heq in Hr, HI1 |- *. simpl in Hr, HI1 |- *. injection Hr as <-.
  set (nid := _next_id m) in *. set (node := mkNode nid _ _ _ _ _ _) in *.
  set (pn' := set_children (children pn ++ [nid]) pn) in *.
  set (m1 := mkEditorModel _ _ _ _ _ _ _) in *.
  assert (pid ≠ nid) as Hne by lia.
  pose proof (λ j, spawn_table_lookup (nodes m) pid pn' nid node j Hne) as Hlk.
  assert (selected_node m1 = Some node) as Hsel.
  { unfold selected_node. simpl. rewrite Hlk, decide_False, decide_True; done. }
  destruct (selected_subtree_removal m1 node HI1 Hsel) as (m1' & Hrs & Hp & Hsub & _).
  rewrite (delete_selected_unfold m1 node m1' Hsel Hrs).
  assert (∀ j, j ∈ removed m1 m1' ↔ j = nid) as Hrem.
  { intros j. rewrite Hsub. split.
    - apply in_subtree_leaf with node; [|done]. simpl.
      rewrite Hlk, decide_False, decide_True; done.
    - intros ->. apply in_subtree_self. simpl.
      rewrite Hlk, decide_False, decide_True; done. }
  assert (∀ j x, nodes m !! j = Some x → nid ∉ children x) as Hnin.
  { intros j x Hx Hin. destruct (inv_children m HI j x nid Hx Hin) as (cn & Hcn & _).
    congruence. }
  assert (∀ l : list Z, nid ∉ l → filter (λ c, c ∉ removed m1 m1') l = l) as Hfilter.
  { intros l Hl. apply filter_keeps_all. intros x Hx. rewrite Hrem.
    intros ->. done. }
  pose proof Hp as ((_ & Hlc & Hnx & Hrid & _) & Hd & Hfw & Ho).
  assert (nodes m1' = nodes m) as Hnodes.
  { apply map_eq. intros j. destruct (decide (j = nid)) as [->|Hj].
    - rewrite Hfresh. assert (nid ∈ removed m1 m1') as Hin by (by apply Hrem).
      by apply elem_of_removed in Hin as [_ ?].
    - assert (j ∉ removed m1 m1') as Hjr by (by rewrite Hrem).
      destruct (nodes m1 !! j) as [x|] eqn:Hx.
      + rewrite (Hfw j x Hx Hjr). simpl in Hx. rewrite Hlk in Hx.
        case_decide as Hjp.
        * injection Hx as <-. subst j. rewrite Hpn. f_equal. simpl.
          rewrite filter_app, (Hfilter (children pn)) by by eapply Hnin.
          rewrite filter_cons_False, filter_nil by (rewrite Hrem; tauto).
          rewrite app_nil_r. by destruct pn.
        * rewrite decide_False in Hx by done. rewrite Hx. f_equal.
          rewrite Hfilter by by eapply Hnin. apply set_children_children.
      + assert (nodes m1' !! j = None) as ->.
        { apply not_elem_of_dom. intros Hin. apply Hd in Hin.
          apply elem_of_dom in Hin as [? Hin]. congruence. }
        simpl in Hx. rewrite Hlk in Hx. case_decide; [done|].
        by rewrite decide_False in Hx. }
  assert (nid ∉ _order m) as Hno.
  { intros [Hin _]%(inv_order m HI). rewrite Hfresh in Hin. by destruct Hin. }
  assert (_order m1' = _order m) as Horder.
  { rewrite Ho. simpl. rewrite filter_app, (Hfilter (_order m)) by done.
    rewrite filter_cons_False, filter_nil by (rewrite Hrem; tauto).
    apply app_nil_r. }
  eexists. split; [done|]. simpl. repeat (split; [done|]).
  unfold selection_after_delete. simpl. rewrite Hnodes, Hpn, Hrid, Horder. simpl.
  rewrite (inv_root_id m HI).
  destruct (decide (pid = 0)) as [->|Hp0].
  - rewrite bool_decide_eq_false_2 by tauto. by rewrite decide_True.
  - rewrite bool_decide_eq_true_2 by (split; [by eexists|done]).
    rewrite decide_False; [done|congruence].
Qed.

Lemma X7_spawn_then_delete_witness :
  ∃ m2,
    delete_selected (spawn_from_palette one_zone PEntity 0 (1, 2) None).1 = Some m2 ∧
    nodes m2 = nodes one_zone.
Proof.
  destruct (X7_spawn_then_delete one_zone PEntity 0 (1, 2) None
              (mkNode 2 KEntity "Rock" "Rock"
                 (Some (sample_payload (vector2_of (1, 2)))) (Some 1) [])
              reachable_one_zone eq_refl)
    as (m2 & Hd & Hn & _).
  exists m2. split; [exact Hd|exact Hn].
Defined.

(** ** Moves *)

(** X8: [move_selected_within] changes positions only: the keys of the
    table, the creation order, the selection, the counters, the root id
    and the registry are left alone, and every node keeps its id, kind,
    names, parent, children, radius and the presence of its payload. *)
Theorem X8_move_keeps_structure
    (m : EditorModel) (canvas_rect : Rect) (desired : Vector2) :
  let m' := move_selected_within m canvas_rect desired in
  _order m' = _order m ∧ selected_id m' = selected_id m ∧
  _next_id m' = _next_id m ∧ _label_counts m' = _label_counts m ∧
  root_id m' = root_id m ∧ registry m' = registry m ∧
  dom (nodes m') = dom (nodes m) ∧
  (∀ j x, nodes m !! j = Some x →
     ∃ x', nodes m' !! j = Some x' ∧ same_structure x x' ∧
           radius x' = radius x ∧ (payload x' = None ↔ payload x = None)).
Proof.
  destruct (move_selected_within_cases m canvas_rect desired)
    as [->|(sel & node & p & v & Hsel & Hn & Hp & Hv & ->)]; simpl.
  - repeat (split; [done|]). intros j x Hx. by exists x.
  - repeat (split; [done|]). split.
    + rewrite dom_insert_L. apply elem_of_dom_2 in Hn. set_solver.
    + intros j x Hx. destruct (decide (j = sel)) as [->|Hne].
      * rewrite lookup_insert_eq. eexists. split; [done|].
        rewrite Hn in Hx. injection Hx as <-. split; [done|]. split.
        -- unfold radius. simpl. by rewrite Hp.
        -- simpl. rewrite Hp. split; intros H; discriminate H.
      * rewrite lookup_insert_ne by done. by exists x.
Qed.

Lemma py_min_keeps a b : (b <= a)%Q → (py_min a b == b)%Q.
Proof.
  intros H. unfold py_min. destruct (Qlt_le_dec b a) as [_|H']; [reflexivity|].
  by apply Qle_antisym.
Qed.

Lemma py_max_keeps a b : (a <= b)%Q → (py_max a b == b)%Q.
Proof.
  intros H. unfold py_max. destruct (Qlt_le_dec a b) as [_|H']; [reflexivity|].
  by apply Qle_antisym.
Qed.

Lemma clamp_keeps lo hi d : (lo <= d)%Q → (d <= hi)%Q → (py_max lo (py_min hi d) == d)%Q.
Proof.
  intros Hlo Hhi. rewrite py_max_keeps.
  - by apply py_min_keeps.
  - by rewrite py_min_keeps.
Qed.

(** X9: for a bound whose fields, right and bottom fit in the 32-bit
    integers of [pygame.Rect], when the desired point lies within the
    bound shrunk by the radius, [move_selected_within] puts the selected
    node on that point. *)
Theorem X9_move_inside_bound_reaches_desired
    (m : EditorModel) (canvas_rect : Rect) (desired : Vector2)
    (node : Node) (p : Payload) (v : Vector2) :
  rect_fits canvas_rect →
  selected_node m = Some node → payload node = Some p → pos p = Some v →
  (inject_Z (rect_left canvas_rect) + radius node <= vx desired)%Q →
  (vx desired <= inject_Z (rect_right canvas_rect) - radius node)%Q →
  (inject_Z (rect_top canvas_rect) + radius node <= vy desired)%Q →
  (vy desired <= inject_Z (rect_bottom canvas_rect) - radius node)%Q →
  ∃ node' v',
    selected_node (move_selected_within m canvas_rect desired) = Some node' ∧
    position node' = Some v' ∧ (vx v' == vx desired)%Q ∧ (vy v' == vy desired)%Q.
Proof.
  intros _ Hsn Hp Hv Hx1 Hx2 Hy1 Hy2.
  destruct (selected_node_Some _ _ Hsn) as (sel & Hsel & Hn).
  rewrite (move_selected_within_positioned _ canvas_rect desired _ _ _ _ Hsel Hn Hp Hv).
  eexists _, _. split.
  { unfold selected_node. simpl. rewrite Hsel. apply lookup_insert_eq. }
  split; [reflexivity|]. simpl. split; by apply clamp_keeps.
Qed.

Lemma X9_move_inside_bound_reaches_desired_witness :
  ∃ node' v',
    selected_node (move_selected_within one_zone (mkRect 0 0 100 100)
                     (mkVector2 30 40)) = Some node' ∧
    position node' = Some v' ∧ (vx v' == 30)%Q ∧ (vy v' == 40)%Q.
Proof.
  apply (X9_move_inside_bound_reaches_desired one_zone (mkRect 0 0 100 100)
           (mkVector2 30 40)
           (mkNode 1 KEnvironment "Zone" "Zone"
              (Some (sample_payload (vector2_of (5, 5)))) (Some 0) [])
           (sample_payload (vector2_of (5, 5))) (vector2_of (5, 5)));
    [unfold rect_fits, int32, rect_right, rect_bottom; simpl; lia
    |reflexivity|reflexivity|reflexivity
    |vm_compute; discriminate|vm_compute; discriminate
    |vm_compute; discriminate|vm_compute; discriminate].
Defined.

(** X10: moving twice to the same point within the same bound is the same
    as moving once. *)
Theorem X10_move_idempotent
    (m : EditorModel) (canvas_rect : Rect) (desired : Vector2) :
  move_selected_within (move_selected_within m canvas_rect desired)
    canvas_rect desired
  = move_selected_within m canvas_rect desired.
Proof.
  destruct (move_selected_within_cases m canvas_rect desired)
    as [H|(sel & node & p & v & Hsel & Hn & Hp & Hv & ->)].
  - by rewrite !H.
  - set (new_pos := mkVector2 _ _). set (node' := set_payload _ node).
    rewrite (move_selected_within_positioned _ canvas_rect desired sel node'
               (mkPayload (Some new_pos) (radius_attr p)) new_pos);
      [|done|by simpl; rewrite lookup_insert_eq|done|done].
    simpl.
    assert (radius node' = radius node) as ->.
    { unfold radius. simpl. by rewrite Hp. }
    fold new_pos. unfold set_nodes. simpl. by rewrite insert_insert_eq.
Qed.

(** ** Deleting again and again *)

Lemma filter_length_lt {A} (P : A → Prop) `{∀ x, Decision (P x)} (l : list A) x :
  x ∈ l → ¬ P x → (length (filter P l) < length l)%nat.
Proof.
  induction l as [|a l IH]; intros Hx Hnp; [by apply elem_of_nil in Hx|].
  pose proof (length_filter P l) as Hle.
  rewrite filter_cons. apply elem_of_cons in Hx as [<-|Hx].
  - rewrite decide_False by done. simpl. lia.
  - specialize (IH Hx Hnp). case_decide; simpl; lia.
Qed.

Lemma delete_n_clears n :
  ∀ m, Tree m → (selected_id m = None → _order m = []) →
       (length (_order m) ≤ n)%nat →
       ∃ m', delete_n n m = Some m' ∧ _order m' = [] ∧ selected_id m' = None ∧
             Tree m'.
Proof.
  induction n as [|n IH]; intros m HT Hsel Hlen.
  - exists m. simpl. destruct (_order m) as [|i l] eqn:Ho; [|simpl in Hlen; lia].
    repeat (split; [done|]). split; [|done].
    destruct (selected_id m) as [s|] eqn:Hs; [|done].
    destruct (inv_selected m (tree_inv m HT) s Hs) as [Hin Hs0].
    rewrite (inv_root_id m (tree_inv m HT)) in Hs0.
    assert (s ∈ _order m) as Hso by (by apply (inv_order m (tree_inv m HT))).
    rewrite Ho in Hso. by apply elem_of_nil in Hso.
  - simpl. destruct (delete_selected_total m) as [m1 Hd]. rewrite Hd.
    pose proof (Tree_delete_selected m m1 HT Hd) as HT1.
    pose proof (tree_inv m HT) as HI.
    apply IH; [done| |].
    + destruct (selected_node m) as [node|] eqn:Hn.
      * destruct (selected_subtree_removal m node HI Hn) as (m1' & Hr & _).
        rewrite (delete_selected_unfold m node m1' Hn Hr) in Hd.
        injection Hd as <-. simpl. unfold selection_after_delete.
        destruct (match parent node with Some _ => _ | None => _ end) eqn:Hk.
        -- destruct (parent node); [done|]. done.
        -- by intros ?%last_None.
      * unfold delete_selected in Hd. rewrite Hn in Hd. injection Hd as <-.
        done.
    + destruct (selected_node m) as [node|] eqn:Hn.
      * destruct (selected_subtree_removal m node HI Hn) as (m1' & Hr & Hp & Hsub & _).
        rewrite (delete_selected_unfold m node m1' Hn Hr) in Hd.
        injection Hd as <-. simpl. destruct Hp as (_ & _ & _ & ->).
        destruct (selected_node_Some _ _ Hn) as (s & Hs & Hlk).
        destruct (inv_ids m HI s node Hlk) as [Hid _].
        destruct (inv_selected m HI s Hs) as [Hin Hs0].
        rewrite (inv_root_id m HI) in Hs0.
        assert ((length (filter (λ j, j ∉ removed m m1') (_order m))
                 < length (_order m))%nat); [|lia].
        apply filter_length_lt with s.
        -- by apply (inv_order m HI).
        -- intros Hnr. apply Hnr. apply Hsub. rewrite Hid.
           by apply in_subtree_self.
      * unfold delete_selected in Hd. rewrite Hn in Hd. injection Hd as <-.
        destruct (selected_id m) as [s|] eqn:Hs.
        -- destruct (inv_selected m HI s Hs) as [[x Hx] _].
           unfold selected_node in Hn. rewrite Hs, Hx in Hn. done.
        -- rewrite Hsel by done. simpl. lia.
Qed.

(** X11: in a reachable model with a selection, calling [delete_selected]
    as many times as there are spawned nodes empties the scene: only the
    root is left in the table, the creation order is empty and nothing is
    selected. *)
Theorem X11_repeated_delete_clears (m : EditorModel) :
  reachable m → is_Some (selected_id m) →
  ∃ m', delete_n (length (_order m)) m = Some m' ∧
        _order m' = [] ∧ selected_id m' = None ∧
        ∀ i, is_Some (nodes m' !! i) ↔ i = 0.
Proof.
  intros HT%reachable_Tree [s Hs].
  destruct (delete_n_clears (length (_order m)) m HT) as (m' & Hd & Ho & Hsel & HT').
  { by rewrite Hs. }
  { done. }
  exists m'. repeat (split; [done|]). intros i.
  pose proof (inv_order m' (tree_inv m' HT') i) as Hi. rewrite Ho in Hi. split.
  - intros Hin. destruct (decide (i = 0)) as [|Hi0]; [done|].
    assert (i ∈ []) as Hnil by (by apply Hi). by apply elem_of_nil in Hnil.
  - intros ->. destruct (inv_root m' (tree_inv m' HT')) as (r & Hr & _).
    by eexists.
Qed.

Lemma X11_repeated_delete_clears_witness :
  ∃ m', delete_n (length (_order two_rocks)) two_rocks = Some m' ∧
        _order m' = [] ∧ selected_id m' = None.
Proof.
  destruct (X11_repeated_delete_clears two_rocks reachable_two_rocks)
    as (m' & Hd & Ho & Hs & _).
  - exists 3. reflexivity.
  - exists m'. split; [exact Hd|]. split; [exact Ho|exact Hs].
Defined.

(** ** Labels for the inspector *)

(** X12: in a reachable model [parent_label] is the name of the parent for
    every node other than the root; it is absent for the root and for an
    id that is not in the table. *)
Theorem X12_parent_label (m : EditorModel) :
  reachable m →
  parent_label m (root_id m) = None ∧
  (∀ i, nodes m !! i = None → parent_label m i = None) ∧
  (∀ i n, nodes m !! i = Some n → i ≠ 0 →
     ∃ p pn, parent n = Some p ∧ nodes m !! p = Some pn ∧
             parent_label m i = Some (name pn)).
Proof.
  intros HT%reachable_Tree. pose proof (tree_inv m HT) as HI. split; [|split].
  - unfold parent_label. rewrite (inv_root_id m HI).
    destruct (inv_root m HI) as (r & -> & _ & -> & _). done.
  - intros i Hi. unfold parent_label. by rewrite Hi.
  - intros i n Hn Hi0.
    destruct (tree_parent m HT i n Hn Hi0) as (p & pn & Hp & Hpn & _).
    exists p, pn. split; [done|]. split; [done|].
    unfold parent_label. by rewrite Hn, Hp, Hpn.
Qed.

Lemma X12_parent_label_witness : parent_label two_rocks (root_id two_rocks) = None.
Proof.
  destruct (X12_parent_label two_rocks reachable_two_rocks) as [H _]. exact H.
Defined.

(** X13: in a reachable model [child_labels] gives one label per child, in
    the order of the children list, and each is the name of that child; it
    is empty for an id that is not in the table. *)
Theorem X13_child_labels (m : EditorModel) :
  reachable m →
  (∀ i, nodes m !! i = None → child_labels m i = []) ∧
  (∀ i n, nodes m !! i = Some n →
     Forall2 (λ c label, ∃ cn, nodes m !! c = Some cn ∧ label = name cn)
       (children n) (child_labels m i)).
Proof.
  intros HI%reachable_Inv. split.
  - intros i Hi. unfold child_labels. by rewrite Hi.
  - intros i n Hn. unfold child_labels. rewrite Hn.
    assert (∀ c, c ∈ children n → is_Some (nodes m !! c)) as Hall.
    { intros c Hc. destruct (inv_children m HI i n c Hn Hc) as (cn & -> & _).
      by eexists. }
    induction (children n) as [|c l IH]; [constructor|]. simpl.
    destruct (Hall c) as [cn Hcn]; [apply elem_of_cons; by left|].
    rewrite Hcn. constructor; [by exists cn|].
    apply IH. intros c' Hc'. apply Hall, elem_of_cons. by right.
Qed.

Lemma X13_child_labels_witness :
  Forall2 (λ c label, ∃ cn, nodes two_rocks !! c = Some cn ∧ label = name cn)
    (children zone_node) (child_labels two_rocks 1).
Proof.
  destruct (X13_child_labels two_rocks reachable_two_rocks) as [_ H].
  apply (H 1 zone_node). reflexivity.
Defined.

(** X14: in a reachable model [selected_label] is the name of the selected
    node, which is in the table, and the empty string when nothing is
    selected; right after a spawn that returned a node it is the label of
    that node. *)
Theorem X14_selected_label (m : EditorModel) :
  reachable m →
  match selected_id m with
  | None => selected_label m = ""
  | Some s => ∃ n, nodes m !! s = Some n ∧ selected_label m = name n
  end ∧
  (∀ k idx position hint node,
     (spawn_from_palette m k idx position hint).2 = Some node →
     selected_label (spawn_from_palette m k idx position hint).1 = name node).
Proof.
  intros HI%reachable_Inv. split.
  - unfold selected_label, selected_node. destruct (selected_id m) as [s|] eqn:Hs; [|done].
    destruct (inv_selected m HI s Hs) as [[n Hn] _]. exists n. by rewrite Hn.
  - intros k idx position hint node Hr.
    destruct (registry m k idx) as [item|] eqn:Hreg.
    2:{ unfold spawn_from_palette in Hr. by rewrite Hreg in Hr. }
    destruct (_resolve_parent m k hint) as [pid|] eqn:Hres.
    2:{ unfold spawn_from_palette in Hr. by rewrite Hreg, Hres in Hr. }
    destruct (spawn_from_palette_success m k idx position hint item pid HI Hreg Hres)
      as (pn & Hpn & Hlt & Hfresh & Hkind & Heq).
    rewrite Heq in Hr |- *. simpl in Hr. injection Hr as <-.
    unfold selected_label, selected_node. simpl.
    rewrite spawn_table_lookup by lia.
    rewrite decide_False by lia. by rewrite decide_True.
Qed.

Lemma X14_selected_label_witness :
  ∃ n, nodes two_rocks !! 3 = Some n ∧ selected_label two_rocks = name n.
Proof.
  destruct (X14_selected_label two_rocks reachable_two_rocks) as [H _]. exact H.
Defined.

(** ** Traversal *)

Lemma concat_each_Some {A} (f : Z → option (list A)) l r :
  concat_each f l = Some r →
  (∀ c, c ∈ l → is_Some (f c)) ∧
  (∀ x, x ∈ r ↔ ∃ c ys, c ∈ l ∧ f c = Some ys ∧ x ∈ ys).
Proof.
  revert r. induction l as [|a l IH]; intros r H; simpl in H.
  - injection H as <-. split.
    + intros c Hc. by apply elem_of_nil in Hc.
    + intros x. split.
      * intros Hx. by apply elem_of_nil in Hx.
      * intros (c & ys & Hc & _). by apply elem_of_nil in Hc.
  - destruct (f a) as [ys|] eqn:Ha; [|done].
    destruct (concat_each f l) as [rest|] eqn:Hl; [|done]. injection H as <-.
    destruct (IH rest eq_refl) as [Hall Hin]. split.
    + intros c [->|Hc]%elem_of_cons; [by rewrite Ha|by apply Hall].
    + intros x. rewrite elem_of_app, Hin. split.
      * intros [Hx|(c & zs & Hc & Hf & Hx)].
        -- exists a, ys. split; [apply elem_of_cons; by left|done].
        -- exists c, zs. split; [apply elem_of_cons; by right|done].
      * intros (c & zs & [->|Hc]%elem_of_cons & Hf & Hx).
        -- left. congruence.
        -- right. by exists c, zs.
Qed.

Lemma concat_each_total {A} (f : Z → option (list A)) l :
  (∀ c, c ∈ l → is_Some (f c)) → is_Some (concat_each f l).
Proof.
  induction l as [|a l IH]; intros Hall; simpl; [by eexists|].
  destruct (Hall a) as [ys ->]; [apply elem_of_cons; by left|].
  destruct IH as [rest ->]; [|by eexists].
  intros c Hc. apply Hall, elem_of_cons. by right.
Qed.

Lemma at_depth_root m r d0 i d : at_depth m r d0 i d → is_Some (nodes m !! r).
Proof. by induction 1. Qed.

Lemma at_depth_trans m r d0 c d1 i d :
  at_depth m r d0 c d1 → at_depth m c d1 i d → at_depth m r d0 i d.
Proof.
  intros Hrc Hci. induction Hci as [|b n x d' _ IH Hb Hx Hin]; [done|].
  by eapply at_depth_child.
Qed.

Lemma at_depth_front m r d0 i d :
  at_depth m r d0 i d →
  (i = r ∧ d = d0) ∨
  ∃ rn c, nodes m !! r = Some rn ∧ c ∈ children rn ∧ at_depth m c (d0 + 1) i d.
Proof.
  induction 1 as [|b n x d' Hrb IH Hb Hx Hin]; [by left|]. right.
  destruct IH as [[-> ->]|(rn & c & Hr & Hc & Hcb)].
  - exists n, x. split; [done|]. split; [done|]. by apply at_depth_self.
  - exists rn, c. split; [done|]. split; [done|]. by eapply at_depth_child.
Qed.

Lemma at_depth_nonneg m i d : at_depth m 0 0 i d → 0 ≤ d.
Proof. induction 1; lia. Qed.

(** What [_visit] yields, when it returns: the nodes below [r], each with
    its depth. *)
Lemma _visit_elem m fuel :
  ∀ r d0 l, _visit fuel m r d0 = Some l →
    ∀ d n, (d, n) ∈ l ↔ ∃ i, nodes m !! i = Some n ∧ at_depth m r d0 i d.
Proof.
  induction fuel as [|fuel IH]; intros r d0 l H d n; simpl in H; [done|].
  destruct (nodes m !! r) as [rn|] eqn:Hr.
  - destruct (concat_each _ _) as [rest|] eqn:Hc; [|done]. injection H as <-.
    destruct (concat_each_Some _ _ _ Hc) as [Hall Hin].
    rewrite elem_of_cons, Hin. split.
    + intros [[= -> ->]|(c & ys & Hcin & Hv & Hx)].
      * exists r. split; [done|]. apply at_depth_self. by rewrite Hr.
      * apply (IH _ _ _ Hv) in Hx as (i & Hi & Hd). exists i. split; [done|].
        apply at_depth_trans with c (d0 + 1); [|done].
        apply at_depth_child with r rn; [|done|done|by eapply at_depth_root].
        apply at_depth_self. by rewrite Hr.
    + intros (i & Hi & [[-> ->]|(rn' & c & Hr' & Hcin & Hd)]%at_depth_front).
      * left. congruence.
      * right. rewrite Hr in Hr'. injection Hr' as <-.
        destruct (Hall c Hcin) as [ys Hv]. exists c, ys.
        split; [done|]. split; [done|]. apply (IH _ _ _ Hv). by exists i.
  - injection H as <-. split.
    + intros Hx. by apply elem_of_nil in Hx.
    + intros (i & _ & [x Hx]%at_depth_root). congruence.
Qed.

Lemma Tree_child_greater m r rn c :
  Tree m → nodes m !! r = Some rn → c ∈ children rn →
  r < c < _next_id m.
Proof.
  intros HT Hr Hc. pose proof (tree_inv m HT) as HI.
  destruct (inv_children m HI r rn c Hr Hc) as (cn & Hcn & Hp).
  destruct (inv_ids m HI c cn Hcn) as [_ Hlt]. split; [|done].
  assert (c ≠ 0) as Hc0.
  { intros ->. destruct (inv_root m HI) as (x & Hx & _ & Hpx & _). congruence. }
  destruct (tree_parent m HT c cn Hcn Hc0) as (p & pn & Hp' & _ & _ & Hpc & _).
  congruence.
Qed.

Lemma _visit_total m fuel :
  Tree m →
  ∀ r d0, 0 ≤ r → (Z.to_nat (_next_id m - r) < fuel)%nat →
          is_Some (_visit fuel m r d0).
Proof.
  intros HT. induction fuel as [|fuel IH]; intros r d0 Hr0 Hf; [lia|]. simpl.
  destruct (nodes m !! r) as [rn|] eqn:Hr; [|by eexists].
  destruct (concat_each_total
              (λ child_id, _visit fuel m child_id (d0 + 1)) (children rn))
    as [rest ->]; [|by eexists].
  intros c Hc. pose proof (Tree_child_greater m r rn c HT Hr Hc). apply IH; lia.
Qed.

Lemma Tree_at_depth m (k : nat) :
  Tree m → ∀ i n, (Z.to_nat i ≤ k)%nat → nodes m !! i = Some n →
              ∃ d, at_depth m 0 0 i d.
Proof.
  intros HT. induction k as [|k IH]; intros i n Hk Hn.
  - pose proof (tree_ids m HT i n Hn). assert (i = 0) as -> by lia.
    exists 0. apply at_depth_self. by rewrite Hn.
  - destruct (decide (i = 0)) as [->|Hi0].
    { exists 0. apply at_depth_self. by rewrite Hn. }
    destruct (tree_parent m HT i n Hn Hi0) as (p & pn & Hp & Hpn & Hin & Hlt & _).
    pose proof (tree_ids m HT p pn Hpn).
    destruct (IH p pn) as [d Hd]; [lia|done|].
    exists (d + 1). apply at_depth_child with p pn; done.
Qed.

(** X15: in a reachable model [iter_tree] returns once the fuel exceeds
    [_next_id]; it yields the root first, at depth 0, and then nodes of the
    table only; every node of the table is yielded, and each node other
    than the root is yielded one level below its parent. *)
Theorem X15_iter_tree_covers_the_table (m : EditorModel) (fuel : nat) :
  reachable m → (Z.to_nat (_next_id m) < fuel)%nat →
  ∃ r rest,
    nodes m !! 0 = Some r ∧ iter_tree fuel m = Some ((0, r) :: rest) ∧
    (∀ d n, (d, n) ∈ (0, r) :: rest → nodes m !! id n = Some n ∧ 0 ≤ d) ∧
    (∀ i n, nodes m !! i = Some n → ∃ d, (d, n) ∈ (0, r) :: rest) ∧
    (∀ d n, (d, n) ∈ (0, r) :: rest → id n ≠ 0 →
       ∃ p pn, parent n = Some p ∧ nodes m !! p = Some pn ∧
               (d - 1, pn) ∈ (0, r) :: rest).
Proof.
  intros HT%reachable_Tree Hf. pose proof (tree_inv m HT) as HI.
  destruct (inv_root m HI) as (r & Hr & _).
  destruct (_visit_total m fuel HT 0 0) as [l Hl]; [done|by rewrite Z.sub_0_r|].
  pose proof (_visit_elem m fuel 0 0 l Hl) as Helem.
  unfold iter_tree. rewrite (inv_root_id m HI), Hl.
  assert (∃ rest, l = (0, r) :: rest) as [rest ->].
  { destruct fuel as [|fuel]; [done|]. simpl in Hl. rewrite Hr in Hl.
    destruct (concat_each _ _) as [rest|]; [|done]. injection Hl as <-. by eexists. }
  exists r, rest. split; [done|]. split; [done|]. split; [|split].
  - intros d n (i & Hi & Hd)%Helem. destruct (inv_ids m HI i n Hi) as [-> _].
    split; [done|]. by eapply at_depth_nonneg.
  - intros i n Hn. destruct (Tree_at_depth m (Z.to_nat i) HT i n) as [d Hd]; [lia|done|].
    exists d. apply Helem. by exists i.
  - intros d n (i & Hi & Hd)%Helem Hn0. destruct (inv_ids m HI i n Hi) as [Hid _].
    destruct Hd as [|b nb c d' Hb Hnb Hc _]; [congruence|].
    destruct (inv_children m HI b nb c Hnb Hc) as (cn & Hcn & Hp).
    rewrite Hi in Hcn. injection Hcn as <-.
    exists b, nb. split; [done|]. split; [done|].
    apply Helem. exists b. split; [done|]. by replace (d' + 1 - 1) with d' by lia.
Qed.

Lemma X15_iter_tree_covers_the_table_witness :
  ∃ r rest, nodes two_rocks !! 0 = Some r ∧
            iter_tree 5 two_rocks = Some ((0, r) :: rest).
Proof.
  destruct (X15_iter_tree_covers_the_table two_rocks 5 reachable_two_rocks)
    as (r & rest & Hr & Hl & _).
  - vm_compute. lia.
  - exists r, rest. split; [exact Hr|exact Hl].
Defined.

(** ** The nearest item of a list *)

Lemma positions_of_cons {A} (key : A → Z) (posn : A → option Vector2) a l :
  positions_of key posn (a :: l) =
    match posn a with
    | Some v => (key a, v) :: positions_of key posn l
    | None => positions_of key posn l
    end.
Proof. unfold positions_of. simpl. by destruct (posn a). Qed.

Lemma nearest_step_of_None {A} (key : A → Z) (posn : A → option Vector2)
    mouse best a :
  posn a = None → nearest_step_of key posn mouse best a = best.
Proof. intros H. unfold nearest_step_of. by rewrite H. Qed.

Lemma nearest_step_of_Some {A} (key : A → Z) (posn : A → option Vector2)
    mouse best a v :
  posn a = Some v →
  nearest_step_of key posn mouse best a =
    match best.2 with
    | None => (Some (key a), Some (dist2 mouse v))
    | Some best_d2 =>
        if Qlt_le_dec (dist2 mouse v) best_d2
        then (Some (key a), Some (dist2 mouse v)) else best
    end.
Proof. intros H. unfold nearest_step_of. by rewrite H. Qed.

Lemma nearest_of_from {A} (key : A → Z) (posn : A → option Vector2) mouse l :
  ∀ b bd,
    (foldl (nearest_step_of key posn mouse) (Some b, Some bd) l = (Some b, Some bd) ∧
     ∀ c, c ∈ positions_of key posn l → (bd <= dist2 mouse c.2)%Q) ∨
    (∃ before i v after,
       positions_of key posn l = before ++ (i, v) :: after ∧
       foldl (nearest_step_of key posn mouse) (Some b, Some bd) l
         = (Some i, Some (dist2 mouse v)) ∧
       (dist2 mouse v < bd)%Q ∧
       (∀ c, c ∈ before → (dist2 mouse v < dist2 mouse c.2)%Q) ∧
       (∀ c, c ∈ after → (dist2 mouse v <= dist2 mouse c.2)%Q)).
Proof.
  induction l as [|a l IH]; intros b bd.
  - left. split; [done|]. intros c Hc. by apply elem_of_nil in Hc.
  - cbn [foldl]. rewrite positions_of_cons.
    destruct (posn a) as [v|] eqn:Hv;
      [|rewrite nearest_step_of_None by done; apply IH].
    rewrite (nearest_step_of_Some _ _ _ _ _ _ Hv). cbn [snd].
    destruct (Qlt_le_dec (dist2 mouse v) bd) as [Hlt|Hle].
    + destruct (IH (key a) (dist2 mouse v))
        as [[Hr Hall]|(before & i & v' & after & Hs & Hr & Hlt' & Hb & Ha)].
      * right. exists [], (key a), v, (positions_of key posn l).
        split; [done|]. split; [done|]. split; [done|]. split; [|done].
        intros c Hc. by apply elem_of_nil in Hc.
      * right. exists ((key a, v) :: before), i, v', after.
        split; [by rewrite Hs|]. split; [done|].
        split; [by apply Qlt_trans with (dist2 mouse v)|]. split; [|done].
        intros c [->|Hc]%elem_of_cons; [done|by apply Hb].
    + destruct (IH b bd)
        as [[Hr Hall]|(before & i & v' & after & Hs & Hr & Hlt' & Hb & Ha)].
      * left. split; [done|]. intros c [->|Hc]%elem_of_cons; [done|by apply Hall].
      * right. exists ((key a, v) :: before), i, v', after.
        split; [by rewrite Hs|]. split; [done|]. split; [done|]. split; [|done].
        intros c [->|Hc]%elem_of_cons; [|by apply Hb].
        by apply Qlt_le_trans with bd.
Qed.

Lemma nearest_of_spec {A} (key : A → Z) (posn : A → option Vector2) mouse l :
  match positions_of key posn l with
  | [] => foldl (nearest_step_of key posn mouse) (None, None) l = (None, None)
  | _ :: _ =>
      ∃ before i v after,
        positions_of key posn l = before ++ (i, v) :: after ∧
        foldl (nearest_step_of key posn mouse) (None, None) l
          = (Some i, Some (dist2 mouse v)) ∧
        (∀ c, c ∈ before → (dist2 mouse v < dist2 mouse c.2)%Q) ∧
        (∀ c, c ∈ after → (dist2 mouse v <= dist2 mouse c.2)%Q)
  end.
Proof.
  induction l as [|a l IH]; [done|].
  cbn [foldl]. rewrite positions_of_cons.
  destruct (posn a) as [v|] eqn:Hv;
    [|rewrite nearest_step_of_None by done; apply IH].
  rewrite (nearest_step_of_Some _ _ _ _ _ _ Hv). cbn [snd].
  destruct (nearest_of_from key posn mouse l (key a) (dist2 mouse v))
    as [[Hr Hall]|(before & i & v' & after & Hs & Hr & Hlt' & Hb & Ha)].
  - exists [], (key a), v, (positions_of key posn l). split; [done|]. split; [done|].
    split; [|done]. intros c Hc. by apply elem_of_nil in Hc.
  - exists ((key a, v) :: before), i, v', after.
    split; [by rewrite Hs|]. split; [done|]. split; [|done].
    intros c [->|Hc]%elem_of_cons; [done|by apply Hb].
Qed.

Lemma enumerate_from_elem {A} (l : list A) :
  ∀ k i a, (i, a) ∈ enumerate_from k l ↔
           ∃ n : nat, i = k + Z.of_nat n ∧ l !! n = Some a.
Proof.
  induction l as [|x l IH]; intros k i a; simpl.
  - split; [intros H; by apply elem_of_nil in H|]. by intros (n & _ & ?).
  - rewrite elem_of_cons, IH. split.
    + intros [[= -> ->]|(n & -> & Hn)].
      * exists 0%nat. split; [lia|done].
      * exists (S n). split; [lia|done].
    + intros ([|n] & -> & Hn).
      * left. simpl in Hn. injection Hn as ->. f_equal. lia.
      * right. exists n. split; [lia|done].
Qed.

(** ** The entity editor scene *)

Lemma positioned_entities (s : Scene.EntityEditorScene) (i : Z) (v : Vector2) :
  (i, v) ∈ Scene.positioned s ↔
  ∃ (n : nat) e, i = Z.of_nat n ∧ Scene.entities s !! n = Some e ∧ pos e = Some v.
Proof.
  unfold Scene.positioned. rewrite list_elem_of_omap. split.
  - intros ([j e] & Hin & H). simpl in H.
    destruct (pos e) as [w|] eqn:Hw; [|done]. injection H as -> ->.
    apply enumerate_from_elem in Hin as (n & -> & Hn). by exists n, e.
  - intros (n & e & -> & Hn & Hv). exists (Z.of_nat n, e). split.
    + apply enumerate_from_elem. by exists n.
    + simpl. by rewrite Hv.
Qed.

(** The choice of [_select_entity_at], in terms of the distance that the
    loop computes. *)
Lemma _select_entity_at_least_dist2
    (s : Scene.EntityEditorScene) (mouse_pos : Z * Z) :
  match Scene.positioned s with
  | [] => Scene._select_entity_at s mouse_pos = (s, None)
  | _ :: _ =>
      ∃ before i v after,
        Scene.positioned s = before ++ (i, v) :: after ∧
        (∀ c, c ∈ before → (dist2 mouse_pos v < dist2 mouse_pos c.2)%Q) ∧
        (∀ c, c ∈ after → (dist2 mouse_pos v <= dist2 mouse_pos c.2)%Q) ∧
        Scene._select_entity_at s mouse_pos
          = (Scene.mk (Scene.entities s) i (Scene.dragging s) (Scene.drag_mode s)
               (Scene.drag_offset s) (Scene.canvas_rect s), Some i) ∧
        0 ≤ i < Z.of_nat (length (Scene.entities s))
  end.
Proof.
  pose proof (nearest_of_spec fst (λ ie : Z * Payload, pos ie.2) mouse_pos
                (enumerate_from 0 (Scene.entities s))) as Hn.
  change (positions_of fst (λ ie : Z * Payload, pos ie.2)
            (enumerate_from 0 (Scene.entities s)))
    with (Scene.positioned s) in Hn.
  unfold Scene._select_entity_at.
  change (Scene.select_step mouse_pos)
    with (nearest_step_of fst (λ ie : Z * Payload, pos ie.2) mouse_pos).
  destruct (Scene.positioned s) as [|c0 l] eqn:Hpos.
  - by rewrite Hn.
  - destruct Hn as (before & i & v & after & Hs & Hr & Hb & Ha).
    exists before, i, v, after. rewrite Hr. simpl. repeat (split; [done|]).
    assert ((i, v) ∈ c0 :: l) as Hin.
    { rewrite Hs. apply elem_of_app. right. apply elem_of_cons. by left. }
    rewrite <- Hpos in Hin.
    apply positioned_entities in Hin as (n & e & -> & Hlk & _).
    apply lookup_lt_Some in Hlk. lia.
Qed.

(** X16: [_select_entity_at] looks at the entities that have a position, in
    list order; it selects and returns the index of the one whose position
    [(x, y)] has the least squared Euclidean distance
    [(mx - x)² + (my - y)²] from the point [(mx, my)], the first one among
    equals, and that index is within the list; when no entity has a
    position it returns no index and leaves the scene, its selection
    included, as it was. *)
Theorem X16_select_entity_at_nearest
    (s : Scene.EntityEditorScene) (mx my : Z) :
  let d2 := λ p : Vector2,
    ((inject_Z mx - vx p) * (inject_Z mx - vx p)
     + (inject_Z my - vy p) * (inject_Z my - vy p))%Q in
  (∀ i v, (i, v) ∈ Scene.positioned s ↔
     ∃ (n : nat) e, i = Z.of_nat n ∧ Scene.entities s !! n = Some e ∧
                    pos e = Some v) ∧
  match Scene.positioned s with
  | [] => Scene._select_entity_at s (mx, my) = (s, None)
  | _ :: _ =>
      ∃ before i v after,
        Scene.positioned s = before ++ (i, v) :: after ∧
        (∀ c, c ∈ before → (d2 v < d2 c.2)%Q) ∧
        (∀ c, c ∈ after → (d2 v <= d2 c.2)%Q) ∧
        Scene._select_entity_at s (mx, my)
          = (Scene.mk (Scene.entities s) i (Scene.dragging s) (Scene.drag_mode s)
               (Scene.drag_offset s) (Scene.canvas_rect s), Some i) ∧
        0 ≤ i < Z.of_nat (length (Scene.entities s))
  end.
Proof.
  intros d2. split; [apply positioned_entities|].
  pose proof (_select_entity_at_least_dist2 s (mx, my)) as H.
  destruct (Scene.positioned s) as [|c0 l]; [exact H|].
  destruct H as (before & i & v & after & Hs & Hb & Ha & Hsel & Hi).
  exists before, i, v, after. split; [exact Hs|].
  split; [|split; [|split; [exact Hsel|exact Hi]]].
  - intros c Hc. exact (Hb c Hc).
  - intros c Hc. exact (Ha c Hc).
Qed.

(** X17: [_drag_to] leaves a scene without entities alone and raises
    [IndexError] when the selected index is outside a non-empty list; for
    an index within the list, an entity without a position is left alone,
    and an entity with one is the only thing that changes: its position on
    each axis is at least [min + radius], and at most [max - radius]
    whenever that interval is not empty. *)
Theorem X17_drag_to_clamps
    (s : Scene.EntityEditorScene) (mouse_pos : Z * Z) :
  (Scene.entities s = [] → Scene._drag_to s mouse_pos = Some s) ∧
  (Scene.entities s ≠ [] →
   (Scene.selected s < - Z.of_nat (length (Scene.entities s)) ∨
    Z.of_nat (length (Scene.entities s)) ≤ Scene.selected s) →
   Scene._drag_to s mouse_pos = None) ∧
  (∀ ent, 0 ≤ Scene.selected s →
     Scene.entities s !! Z.to_nat (Scene.selected s) = Some ent →
     match pos ent with
     | None => Scene._drag_to s mouse_pos = Some s
     | Some _ =>
         ∃ v',
           Scene._drag_to s mouse_pos
             = Some (Scene.mk
                       (<[Z.to_nat (Scene.selected s) :=
                            mkPayload (Some v') (radius_attr ent)]>
                          (Scene.entities s))
                       (Scene.selected s) (Scene.dragging s) (Scene.drag_mode s)
                       (Scene.drag_offset s) (Scene.canvas_rect s)) ∧
           let r := default 0%Q (radius_attr ent) in
           let lo_x := (inject_Z (rect_left (Scene.canvas_rect s)) + r)%Q in
           let hi_x := (inject_Z (rect_right (Scene.canvas_rect s)) - r)%Q in
           let lo_y := (inject_Z (rect_top (Scene.canvas_rect s)) + r)%Q in
           let hi_y := (inject_Z (rect_bottom (Scene.canvas_rect s)) - r)%Q in
           (lo_x <= vx v')%Q ∧ ((lo_x <= hi_x)%Q → (vx v' <= hi_x)%Q) ∧
           (lo_y <= vy v')%Q ∧ ((lo_y <= hi_y)%Q → (vy v' <= hi_y)%Q)
     end).
Proof.
  split; [|split].
  - intros H. unfold Scene._drag_to. by rewrite H.
  - intros Hne Hout. unfold Scene._drag_to.
    destruct (Scene.entities s) as [|e l] eqn:He; [done|].
    unfold py_position. rewrite !bool_decide_eq_false_2; [done|lia|lia].
  - intros ent Hsel Hlk. pose proof (lookup_lt_Some _ _ _ Hlk) as Hlt.
    unfold Scene._drag_to.
    destruct (Scene.entities s) as [|e l] eqn:He; [done|].
    unfold py_position. rewrite bool_decide_eq_true_2 by lia. rewrite Hlk.
    destruct (pos ent) as [v|]; [|done].
    eexists. split; [reflexivity|]. simpl. repeat split.
    + apply py_max_lower.
    + intros H. apply py_max_upper; [done|apply py_min_upper].
    + apply py_max_lower.
    + intros H. apply py_max_upper; [done|apply py_min_upper].
Qed.

(** X18: [_safe_repr] never gives more than 70 characters (code points, as
    [len] counts them): a [repr] of at most 70 characters is given as it
    is, a longer one is cut to its first 67 characters followed by three
    dots, and a [repr] that raises gives the placeholder. *)
Theorem X18_safe_repr_bounded (repr_v : option Scene.PyStr) :
  (length (Scene._safe_repr repr_v) ≤ 70)%nat ∧
  Scene._safe_repr None = Scene.py_str "<unrepr-able>" ∧
  (∀ s, repr_v = Some s → (length s ≤ 70)%nat →
     Scene._safe_repr repr_v = s) ∧
  (∀ s, repr_v = Some s → (70 < length s)%nat →
     length (Scene._safe_repr repr_v) = 70%nat ∧
     take 67 (Scene._safe_repr repr_v) = take 67 s ∧
     drop 67 (Scene._safe_repr repr_v) = Scene.py_str "...").
Proof.
  assert (∀ s : Scene.PyStr, (70 < length s)%nat → length (take 67 s) = 67%nat)
    as Hlen.
  { intros s Hs. rewrite length_take. lia. }
  split; [|split; [done|split]].
  - unfold Scene._safe_repr. case_bool_decide as H; [done|].
    rewrite length_app, Hlen by lia. simpl. lia.
  - intros s -> Hs. unfold Scene._safe_repr. simpl.
    by rewrite bool_decide_eq_true_2.
  - intros s -> Hs. unfold Scene._safe_repr. simpl.
    rewrite bool_decide_eq_false_2 by lia.
    pose proof (Hlen s Hs) as H67. split; [|split].
    + rewrite length_app, H67. done.
    + by rewrite take_app_length' by done.
    + by rewrite drop_app_length' by done.
Qed.

(** ** Animation clips *)

Lemma turn_invariant {ops} (frame_time : Anim.num ops) (c : Anim.AnimClip ops) :
  0 ≤ Anim.idx c < Z.of_nat (length (Anim.frames c)) →
  Anim.frames (Anim.turn frame_time c) = Anim.frames c ∧
  Anim.fps (Anim.turn frame_time c) = Anim.fps c ∧
  Anim.loop (Anim.turn frame_time c) = Anim.loop c ∧
  0 ≤ Anim.idx (Anim.turn frame_time c) < Z.of_nat (length (Anim.frames c)) ∧
  (Anim.loop c = false → Anim.idx c ≤ Anim.idx (Anim.turn frame_time c)).
Proof.
  intros Hidx. unfold Anim.turn. simpl. repeat (split; [done|]).
  destruct (Anim.loop c).
  - split; [|done]. apply Z.mod_pos_bound. lia.
  - lia.
Qed.

Lemma turns_invariant {ops} (n : nat) (frame_time : Anim.num ops) :
  ∀ c : Anim.AnimClip ops,
    0 ≤ Anim.idx c < Z.of_nat (length (Anim.frames c)) →
    Anim.frames (Anim.turns n frame_time c) = Anim.frames c ∧
    Anim.fps (Anim.turns n frame_time c) = Anim.fps c ∧
    Anim.loop (Anim.turns n frame_time c) = Anim.loop c ∧
    0 ≤ Anim.idx (Anim.turns n frame_time c) < Z.of_nat (length (Anim.frames c)) ∧
    (Anim.loop c = false → Anim.idx c ≤ Anim.idx (Anim.turns n frame_time c)).
Proof.
  induction n as [|n IH]; intros c Hidx; simpl.
  - repeat (split; [done|]). intros _. lia.
  - destruct (Anim.ge ops (Anim.t c) frame_time).
    + destruct (turn_invariant frame_time c Hidx) as (Hf & Hp & Hl & Hi & Hm).
      destruct (IH (Anim.turn frame_time c)) as (Hf' & Hp' & Hl' & Hi' & Hm').
      { by rewrite Hf. }
      rewrite Hf in Hi'. rewrite Hf', Hp', Hl', Hf, Hp, Hl.
      repeat (split; [done|]). intros Hloop.
      rewrite Hl in Hm'. specialize (Hm Hloop). specialize (Hm' Hloop). lia.
    + repeat (split; [done|]). intros _. lia.
Qed.

Lemma advance_turns {ops} (fuel : nat) (frame_time : Anim.num ops) :
  ∀ c c' : Anim.AnimClip ops,
    Anim.advance fuel frame_time c = Some c' →
    c' = Anim.turns fuel frame_time c ∧
    Anim.ge ops (Anim.t c') frame_time = false.
Proof.
  induction fuel as [|fuel IH]; intros c c' H; [done|]. simpl in *.
  destruct (Anim.ge ops (Anim.t c) frame_time) eqn:E.
  - by apply IH.
  - by injection H as <-.
Qed.

Lemma current_valid {ops} (c : Anim.AnimClip ops) :
  0 ≤ Anim.idx c < Z.of_nat (length (Anim.frames c)) →
  ∃ f, Anim.current c = inl f.
Proof.
  intros Hi. unfold Anim.current.
  destruct (Anim.frames c) as [|f0 l] eqn:Hfr; [simpl in Hi; lia|].
  unfold py_position. rewrite bool_decide_eq_true_2 by done.
  destruct (lookup_lt_is_Some_2 (f0 :: l) (Z.to_nat (Anim.idx c))) as [f Hl];
    [lia|].
  rewrite Hl. by exists f.
Qed.

Lemma update_cases {ops} (fuel : nat) (c c' : Anim.AnimClip ops) (dt : Anim.num ops) :
  Anim.update fuel c dt = Some c' →
  c' = c ∨
  (c' = Anim.turns fuel (Anim.inv ops (Anim.fps c)) (Anim.started c dt) ∧
   Anim.ge ops (Anim.t c') (Anim.inv ops (Anim.fps c)) = false).
Proof.
  unfold Anim.update. intros H.
  destruct (bool_decide _ || Anim.le_zero ops _).
  - left. by injection H as <-.
  - right. by apply advance_turns.
Qed.

(** X19: whatever the rounding of the float arithmetic, [update] keeps a
    valid frame index valid: after any number of turns of its loop, and so
    whenever it returns, the clip has the same frames and a frame index
    within them, so that [current] gives a frame; on return the clip is
    unchanged or the loop test fails on it.  A clip with at most one frame
    or with [fps <= 0] is returned as it is, at once. *)
Theorem X19_update_keeps_frame_index
    (ops : Anim.FloatOps) (c : Anim.AnimClip ops) (dt : Anim.num ops) :
  (((length (Anim.frames c) ≤ 1)%nat ∨ Anim.le_zero ops (Anim.fps c) = true) →
     ∀ fuel, Anim.update fuel c dt = Some c) ∧
  (0 ≤ Anim.idx c < Z.of_nat (length (Anim.frames c)) →
   (∀ n, let c' := Anim.turns n (Anim.inv ops (Anim.fps c)) (Anim.started c dt) in
         Anim.frames c' = Anim.frames c ∧
         0 ≤ Anim.idx c' < Z.of_nat (length (Anim.frames c)) ∧
         ∃ f, Anim.current c' = inl f) ∧
   (∀ fuel c', Anim.update fuel c dt = Some c' →
         Anim.frames c' = Anim.frames c ∧ Anim.fps c' = Anim.fps c ∧
         Anim.loop c' = Anim.loop c ∧
         0 ≤ Anim.idx c' < Z.of_nat (length (Anim.frames c)) ∧
         (∃ f, Anim.current c' = inl f) ∧
         (c' = c ∨ Anim.ge ops (Anim.t c') (Anim.inv ops (Anim.fps c)) = false))).
Proof.
  split.
  - intros Hd fuel. unfold Anim.update.
    destruct Hd as [Hlen|Hfps].
    + by rewrite bool_decide_eq_true_2.
    + rewrite Hfps. by rewrite orb_true_r.
  - intros Hidx.
    assert (∀ n, let c' := Anim.turns n (Anim.inv ops (Anim.fps c)) (Anim.started c dt) in
              Anim.frames c' = Anim.frames c ∧ Anim.fps c' = Anim.fps c ∧
              Anim.loop c' = Anim.loop c ∧
              0 ≤ Anim.idx c' < Z.of_nat (length (Anim.frames c)) ∧
              ∃ f, Anim.current c' = inl f) as Hturns.
    { intros n c'.
      destruct (turns_invariant n (Anim.inv ops (Anim.fps c)) (Anim.started c dt))
        as (Hf & Hp & Hl & Hi & _); [done|].
      simpl in Hf, Hp, Hl, Hi. repeat (split; [done|]).
      apply current_valid. unfold c'. by rewrite Hf. }
    split.
    + intros n c'. destruct (Hturns n) as (Hf & _ & _ & Hi & Hc). done.
    + intros fuel c' Hu. destruct (update_cases fuel c c' dt Hu) as [->|[-> Hge]].
      * repeat (split; [done|]). split; [by apply current_valid|by left].
      * destruct (Hturns fuel) as (Hf & Hp & Hl & Hi & Hc).
        repeat (split; [done|]). by right.
Qed.

Lemma X19_update_keeps_frame_index_witness :
  match Anim.update (ops := Anim.rational) 4
          (Anim.mk (ops := Anim.rational) [Anim.surface 0; Anim.surface 1; Anim.surface 2] 10%Q true 0%Q 2)
          (1 # 4)%Q with
  | Some c' => 0 ≤ Anim.idx c' < 3
  | None => False
  end.
Proof.
  destruct (Anim.update (ops := Anim.rational) 4 _ _) as [c'|] eqn:E.
  - destruct (X19_update_keeps_frame_index Anim.rational
                (Anim.mk (ops := Anim.rational) [Anim.surface 0; Anim.surface 1; Anim.surface 2]
                   10%Q true 0%Q 2) (1 # 4)%Q) as [_ H].
    destruct H as [_ H]; [simpl; lia|].
    destruct (H 4%nat c' E) as (_ & _ & _ & Hi & _). exact Hi.
  - vm_compute in E. discriminate E.
Defined.

(** X20: on a clip that does not loop and whose frame index is valid
    (from 0 to the number of frames minus one), whatever the rounding of
    the float arithmetic, [update] never moves the frame index back and
    never past the last frame, and a clip on its last frame stays there. *)
Theorem X20_update_without_loop_saturates
    (ops : Anim.FloatOps) (fuel : nat) (c c' : Anim.AnimClip ops)
    (dt : Anim.num ops) :
  Anim.loop c = false →
  0 ≤ Anim.idx c < Z.of_nat (length (Anim.frames c)) →
  Anim.update fuel c dt = Some c' →
  Anim.idx c ≤ Anim.idx c' ≤ Z.of_nat (length (Anim.frames c)) - 1 ∧
  (Anim.idx c = Z.of_nat (length (Anim.frames c)) - 1 → Anim.idx c' = Anim.idx c).
Proof.
  intros Hloop Hidx Hu.
  destruct (update_cases fuel c c' dt Hu) as [->|[-> _]]; [lia|].
  destruct (turns_invariant fuel (Anim.inv ops (Anim.fps c)) (Anim.started c dt))
    as (_ & _ & _ & Hi & Hm); [done|].
  simpl in Hi, Hm. specialize (Hm Hloop). lia.
Qed.

Lemma X20_update_without_loop_saturates_witness :
  match Anim.update (ops := Anim.rational) 4
          (Anim.mk (ops := Anim.rational) [Anim.surface 0; Anim.surface 1; Anim.surface 2] 10%Q false 0%Q 1)
          (1 # 4)%Q with
  | Some c' => 1 ≤ Anim.idx c' ≤ 2
  | None => False
  end.
Proof.
  destruct (Anim.update (ops := Anim.rational) 4 _ _) as [c'|] eqn:E.
  - destruct (X20_update_without_loop_saturates Anim.rational 4
                (Anim.mk (ops := Anim.rational) [Anim.surface 0; Anim.surface 1; Anim.surface 2]
                   10%Q false 0%Q 1)
                c' (1 # 4)%Q eq_refl) as [H _].
    + simpl. lia.
    + exact E.
    + exact H.
  - vm_compute in E. discriminate E.
Defined.

(** ** Mass entities *)

(** X21: [integrate] uses up the accumulated force: whenever it returns the
    accumulator is zero; with a time step of zero or less it moves nothing;
    with a positive step it raises on a mass of zero, and otherwise a second
    step right after the first keeps the velocity and moves the position by
    velocity times step. *)
Theorem X21_integrate_consumes_force (e : Mass.MassEntity) (dt : Q) :
  ((dt <= 0)%Q →
     Mass.integrate e dt
       = Some (Mass.mk (Mass.pos e) (Mass.mass e) (Mass.velocity e) vec_zero)) ∧
  ((0 < dt)%Q → (Mass.mass e == 0)%Q → Mass.integrate e dt = None) ∧
  ((0 < dt)%Q → ¬ (Mass.mass e == 0)%Q →
     ∃ e1 e2,
       Mass.integrate e dt = Some e1 ∧
       Mass._force_accumulator e1 = vec_zero ∧ Mass.mass e1 = Mass.mass e ∧
       Mass.integrate e1 dt = Some e2 ∧
       (vx (Mass.velocity e2) == vx (Mass.velocity e1))%Q ∧
       (vy (Mass.velocity e2) == vy (Mass.velocity e1))%Q ∧
       (vx (Mass.pos e2) == vx (Mass.pos e1) + vx (Mass.velocity e1) * dt)%Q ∧
       (vy (Mass.pos e2) == vy (Mass.pos e1) + vy (Mass.velocity e1) * dt)%Q).
Proof.
  assert ((0 < dt)%Q → Qle_bool dt 0 = false) as Hpos.
  { intros Hdt. destruct (Qle_bool dt 0) eqn:E; [|done].
    apply Qle_bool_iff in E. exfalso. apply (Qlt_irrefl 0).
    by apply Qlt_le_trans with dt. }
  split; [|split].
  - intros Hdt. unfold Mass.integrate.
    assert (Qle_bool dt 0 = true) as -> by (by apply Qle_bool_iff). done.
  - intros Hdt Hm. unfold Mass.integrate. rewrite (Hpos Hdt).
    assert (Qeq_bool (Mass.mass e) 0 = true) as -> by (by apply Qeq_bool_iff). done.
  - intros Hdt Hm.
    assert (Qeq_bool (Mass.mass e) 0 = false) as Hne.
    { destruct (Qeq_bool (Mass.mass e) 0) eqn:E; [|done].
      apply Qeq_bool_iff in E. done. }
    assert (∀ e0, Mass.mass e0 = Mass.mass e →
              Mass.integrate e0 dt =
                Some (Mass.mk
                        (vec_add (Mass.pos e0)
                           (vec_scale
                              (vec_add (Mass.velocity e0)
                                 (vec_scale
                                    (vec_div (Mass._force_accumulator e0) (Mass.mass e))
                                    dt)) dt))
                        (Mass.mass e)
                        (vec_add (Mass.velocity e0)
                           (vec_scale
                              (vec_div (Mass._force_accumulator e0) (Mass.mass e)) dt))
                        vec_zero)) as Hint.
    { intros e0 He0. unfold Mass.integrate. by rewrite (Hpos Hdt), He0, Hne. }
    rewrite (Hint e eq_refl).
    eexists _, _. split; [reflexivity|]. split; [done|]. split; [done|].
    split; [by apply Hint|]. simpl. unfold Qdiv. repeat split; ring.
Qed.

Lemma _clamp8_of_int (n : Z) :
  Mass._clamp8 (Mass.of_int n) = inl (Z.max 0 (Z.min 255 n)).
Proof. unfold Mass._clamp8, Mass.of_int. simpl. by rewrite Z.quot_1_r. Qed.

Lemma _clamp8_range (x : Mass.PyValue) (n : Z) :
  Mass._clamp8 x = inl n → Mass.byte_range n.
Proof.
  unfold Mass._clamp8, Mass.byte_range.
  destruct (Mass.py_int x); intros H; [|done]. injection H as <-. lia.
Qed.

Lemma _clamp8_raises (x : Mass.PyValue) (e : Mass.Raised) :
  Mass._clamp8 x = inr e ↔ Mass.py_int x = inr e.
Proof. unfold Mass._clamp8. destruct (Mass.py_int x); naive_solver. Qed.

(** X22: on a finite number [_clamp8] gives an integer from 0 to 255: an
    integer in that range is given back as it is, a number below zero gives
    0 and a number of 255 or more gives 255; on an infinity it raises
    [OverflowError], on NaN [ValueError], and on a value that [int] refuses
    it raises what [int] raises; it never returns anything outside 0 to
    255. *)
Theorem X22_clamp8_is_a_byte (x : Mass.PyValue) :
  (∀ n, Mass._clamp8 x = inl n → 0 ≤ n ≤ 255) ∧
  (∀ q, x = Mass.Number (Mass.Finite q) →
     ∃ n, Mass._clamp8 x = inl n ∧ 0 ≤ n ≤ 255 ∧
          ((q < 0)%Q → n = 0) ∧ ((255 <= q)%Q → n = 255)) ∧
  (∀ n : Z, 0 ≤ n ≤ 255 → Mass._clamp8 (Mass.of_int n) = inl n) ∧
  (∀ s, x = Mass.Number (Mass.Infinity s) →
     Mass._clamp8 x = inr Mass.OverflowError) ∧
  (x = Mass.Number Mass.NaN → Mass._clamp8 x = inr Mass.ValueError) ∧
  (∀ e, x = Mass.NotNumber e → Mass._clamp8 x = inr e).
Proof.
  split; [|split; [|split; [|split; [|split]]]].
  - intros n H. by apply _clamp8_range in H.
  - intros q ->. unfold Mass._clamp8. simpl. eexists. split; [done|].
    split; [lia|]. destruct q as [a d]. unfold Qlt, Qle. simpl. split.
    + intros Hx. assert (a ÷ Z.pos d ≤ 0); [|lia].
      assert (a < 0) as Ha by lia.
      replace a with (- (- a)) by lia. rewrite Z.quot_opp_l by lia.
      assert (0 ≤ (- a) ÷ Z.pos d); [|lia]. apply Z.quot_pos; lia.
    + intros Hx. assert (255 ≤ a ÷ Z.pos d); [|lia].
      apply Z.quot_le_lower_bound; lia.
  - intros n Hn. rewrite _clamp8_of_int. f_equal. lia.
  - by intros s ->.
  - by intros ->.
  - by intros e ->.
Qed.

Lemma color3_bytes r g b col : Mass.color3 r g b = inl col → Mass.byte_color col.
Proof.
  unfold Mass.color3.
  destruct (Mass._clamp8 r) as [r'|] eqn:Hr; [|done].
  destruct (Mass._clamp8 g) as [g'|] eqn:Hg; [|done].
  destruct (Mass._clamp8 b) as [b'|] eqn:Hb; [|done].
  intros H. injection H as <-. simpl.
  repeat split; try by eapply _clamp8_range. all: lia.
Qed.

Lemma color4_bytes r g b a col : Mass.color4 r g b a = inl col → Mass.byte_color col.
Proof.
  unfold Mass.color4.
  destruct (Mass._clamp8 r) as [r'|] eqn:Hr; [|done].
  destruct (Mass._clamp8 g) as [g'|] eqn:Hg; [|done].
  destruct (Mass._clamp8 b) as [b'|] eqn:Hb; [|done].
  destruct (Mass._clamp8 a) as [a'|] eqn:Ha; [|done].
  intros H. injection H as <-. simpl.
  repeat split; by eapply _clamp8_range.
Qed.

Lemma color4_of_int r g b a :
  ∃ col, Mass.color4 (Mass.of_int r) (Mass.of_int g) (Mass.of_int b) (Mass.of_int a)
         = inl col.
Proof. unfold Mass.color4. rewrite !_clamp8_of_int. by eexists. Qed.

Lemma color3_raises r g b e :
  Mass.color3 r g b = inr e →
  Mass.py_int r = inr e ∨ Mass.py_int g = inr e ∨ Mass.py_int b = inr e.
Proof.
  unfold Mass.color3.
  destruct (Mass._clamp8 r) as [r'|] eqn:Hr;
    [|intros H; injection H as ->; left; by apply _clamp8_raises].
  destruct (Mass._clamp8 g) as [g'|] eqn:Hg;
    [|intros H; injection H as ->; right; left; by apply _clamp8_raises].
  destruct (Mass._clamp8 b) as [b'|] eqn:Hb; [done|].
  intros H; injection H as ->; right; right; by apply _clamp8_raises.
Qed.

Lemma color4_raises r g b a e :
  Mass.color4 r g b a = inr e →
  Mass.py_int r = inr e ∨ Mass.py_int g = inr e ∨ Mass.py_int b = inr e ∨
  Mass.py_int a = inr e.
Proof.
  unfold Mass.color4.
  destruct (Mass._clamp8 r) as [r'|] eqn:Hr;
    [|intros H; injection H as ->; left; by apply _clamp8_raises].
  destruct (Mass._clamp8 g) as [g'|] eqn:Hg;
    [|intros H; injection H as ->; right; left; by apply _clamp8_raises].
  destruct (Mass._clamp8 b) as [b'|] eqn:Hb;
    [|intros H; injection H as ->; right; right; left; by apply _clamp8_raises].
  destruct (Mass._clamp8 a) as [a'|] eqn:Ha; [done|].
  intros H; injection H as ->; right; right; right; by apply _clamp8_raises.
Qed.

Lemma try_color_raises named value e :
  Mass.try_color named value = Some (inr e) →
  (e = Mass.ValueError ∧ ∃ s, value = Mass.VStr s ∧ named s = None) ∨
  (∃ items v, value = Mass.VSeq items ∧ v ∈ items ∧ Mass.py_int v = inr e).
Proof.
  destruct value as [r g b a|s|items|]; unfold Mass.try_color.
  - destruct (color4_of_int r g b a) as [col ->]. done.
  - destruct (named s) as [[[[r g] b] a]|] eqn:Hs.
    + destruct (color4_of_int r g b a) as [col ->]. done.
    + intros H. injection H as <-. left. split; [done|]. by exists s.
  - destruct items as [|r [|g [|b [|a [|? ?]]]]]; try done; intros H; right;
      apply (inj Some) in H.
    + apply color3_raises in H. exists [r; g; b].
      destruct H as [H|[H|H]]; [exists r|exists g|exists b];
        (split; [done|]); (split; [|done]); set_solver.
    + apply color4_raises in H. exists [r; g; b; a].
      destruct H as [H|[H|[H|H]]]; [exists r|exists g|exists b|exists a];
        (split; [done|]); (split; [|done]); set_solver.
  - done.
Qed.

(** X23: [_to_color] never returns a color with a channel outside 0 to
    255.  With a fallback of three integers it returns a color unless
    [int] raises [OverflowError] on an item of a tuple of three or four (an
    infinite [float]), which is the only exception that escapes it, as for
    a tuple that starts with an infinity.  A tuple of three integers from 0
    to 255 is given back with an alpha of 255; a tuple of another length,
    a tuple that starts with NaN, an unknown color name or any other value
    gives the clamped fallback with an alpha of 255. *)
Theorem X23_to_color_channels_are_bytes
    (named : string → option Mass.Color) (value : Mass.ColorValue)
    (fallback : Mass.PyValue * Mass.PyValue * Mass.PyValue) :
  (∀ col, Mass._to_color named value fallback = inl col → Mass.byte_color col) ∧
  (∀ fr fg fb,
     fallback = (Mass.of_int fr, Mass.of_int fg, Mass.of_int fb) →
     (∀ e, Mass._to_color named value fallback = inr e →
        e = Mass.OverflowError ∧
        ∃ items v, value = Mass.VSeq items ∧ v ∈ items ∧ Mass.overflows v) ∧
     ((∀ items v, value = Mass.VSeq items → v ∈ items → ¬ Mass.overflows v) →
        ∃ col, Mass._to_color named value fallback = inl col)) ∧
  (∀ s g b, Mass._to_color named
              (Mass.VSeq [Mass.Number (Mass.Infinity s); g; b]) fallback
            = inr Mass.OverflowError) ∧
  (∀ r g b : Z, 0 ≤ r ≤ 255 → 0 ≤ g ≤ 255 → 0 ≤ b ≤ 255 →
     Mass._to_color named
       (Mass.VSeq [Mass.of_int r; Mass.of_int g; Mass.of_int b]) fallback
     = inl (r, g, b, 255)) ∧
  (∀ items, length items ≠ 3%nat → length items ≠ 4%nat →
     Mass._to_color named (Mass.VSeq items) fallback = Mass.fallback_color fallback) ∧
  (∀ g b, Mass._to_color named (Mass.VSeq [Mass.Number Mass.NaN; g; b]) fallback
          = Mass.fallback_color fallback) ∧
  (∀ s, named s = None →
     Mass._to_color named (Mass.VStr s) fallback = Mass.fallback_color fallback) ∧
  Mass._to_color named Mass.VOther fallback = Mass.fallback_color fallback.
Proof.
  assert (∀ col, Mass.fallback_color fallback = inl col → Mass.byte_color col)
    as Hfb.
  { destruct fallback as [[fr fg] fb]. simpl. apply color3_bytes. }
  assert (∀ col, Mass.try_color named value = Some (inl col) → Mass.byte_color col)
    as Htry.
  { intros col. destruct value as [r g b a|s|items|]; unfold Mass.try_color.
    - intros H. apply (inj Some) in H. by apply color4_bytes in H.
    - destruct (named s) as [[[[r g] b] a]|]; [|done].
      intros H. apply (inj Some) in H. by apply color4_bytes in H.
    - destruct items as [|r [|g [|b [|a [|? ?]]]]]; try done;
        intros H; apply (inj Some) in H.
      + by apply color3_bytes in H.
      + by apply color4_bytes in H.
    - done. }
  split; [|split; [|split; [|split; [|split; [|split; [|split]]]]]].
  - intros col. unfold Mass._to_color.
    destruct (Mass.try_color named value) as [[c|e]|] eqn:E.
    + intros H. injection H as <-. by apply Htry.
    + destruct (Mass.caught e); [apply Hfb|done].
    + apply Hfb.
  - intros fr fg fb ->.
    assert (Mass.fallback_color (Mass.of_int fr, Mass.of_int fg, Mass.of_int fb)
            = inl (Z.max 0 (Z.min 255 fr), Z.max 0 (Z.min 255 fg),
                   Z.max 0 (Z.min 255 fb), 255)) as Hf.
    { unfold Mass.fallback_color, Mass.color3. by rewrite !_clamp8_of_int. }
    unfold Mass._to_color. rewrite Hf.
    destruct (Mass.try_color named value) as [[c|e]|] eqn:E.
    + split; [done|]. intros _. by eexists.
    + destruct (try_color_raises _ _ _ E) as [[-> _]|(items & v & -> & Hin & Hv)].
      { simpl. split; [done|]. intros _. by eexists. }
      destruct e; simpl.
      * split.
        -- intros e H. injection H as <-. split; [done|]. by exists items, v.
        -- intros H. exfalso. by apply (H items v).
      * split; [done|]. intros _. by eexists.
      * split; [done|]. intros _. by eexists.
    + split; [done|]. intros _. by eexists.
  - done.
  - intros r g b Hr Hg Hb. unfold Mass._to_color, Mass.try_color, Mass.color3.
    rewrite !_clamp8_of_int.
    by rewrite !Z.min_r, !Z.max_r by lia.
  - intros items H3 H4. unfold Mass._to_color.
    destruct items as [|r [|g [|b [|a [|? ?]]]]]; simpl in *; done.
  - done.
  - intros s Hs. unfold Mass._to_color. simpl. by rewrite Hs.
  - done.
Qed.
